(** * A shallow embedding of the Xinu OS compiler

    The development follows the C sources stage by stage:
    [lexer.c], [parser.c], [symbol_table.c], [codegen.c] and the driver
    [compiler.c].  Every C function is a Rocq function of the same name
    working on explicit state:

    - C [int] values that count what the input holds (positions, lines,
      columns, counters of symbols, instructions and labels) are integers of
      [Z]; they stay far below [2^31] on any input that fits in memory, so
      no wrap-around is written for them.  Where the value is computed from
      numbers that the program text chooses (the size of an array type, a
      product of its lengths, and the offsets that add such sizes up), and
      where the C code narrows or wraps on purpose ([unsigned int] in
      [hash], the [(int32_t)] cast of a literal), the 32-bit result is
      written out with [mod].
    - A C string is the sequence of characters before its terminating NUL
      and is a [string]; a [char] buffer that may hold NUL bytes in the
      middle (the text of a token) is a [string] as well, and is read back
      through [c_str] wherever the C code reads it as a string.
    - Singly linked structures owned by their head (hash chains through
      [next], scopes through [parent]) are lists and nested records.
    - Loops whose iteration count is bounded by the remaining input run on a
      local fuel computed from that bound; the recursive-descent parser runs
      on an explicit fuel and answers [None] when it is exhausted. *)

From Stdlib Require Import ZArith String Ascii Lia DecimalString.
From stdpp Require Import base list strings.

#[local] Open Scope string_scope.
#[local] Open Scope Z_scope.

(** ** C strings and characters *)

Definition NUL : ascii := "000"%char.

Definition char_code (c : ascii) : Z := Z.of_N (N_of_ascii c).

Definition char_is (c : ascii) (d : ascii) : bool := Ascii.eqb c d.

(** [strlen]: the number of characters before the first NUL. *)
Fixpoint c_strlen (s : string) : nat :=
  match s with
  | EmptyString => 0%nat
  | String c rest => if char_is c NUL then 0%nat else S (c_strlen rest)
  end.

(** The C-string view of a buffer: its prefix before the first NUL. *)
Fixpoint c_str (s : string) : string :=
  match s with
  | EmptyString => EmptyString
  | String c rest => if char_is c NUL then EmptyString else String c (c_str rest)
  end.

(** [strncpy(dst, src, n); dst[n] = 0] and [snprintf(dst, n + 1, ...)] keep
    at most [n] characters. *)
Definition str_take (n : nat) (s : string) : string := String.substring 0 n s.

Definition str_snoc (s : string) (c : ascii) : string := s +:+ String c EmptyString.

(** [unsigned int] arithmetic. *)
Definition wrap_uint (z : Z) : Z := z mod 2 ^ 32.

(** The value of a 32-bit [int]: the [(int32_t)] conversion, and the result
    that [int] arithmetic leaves on a two's-complement machine when the
    mathematical one does not fit. *)
Definition to_int32 (z : Z) : Z := (z + 2 ^ 31) mod 2 ^ 32 - 2 ^ 31.

(** [%d] of printf. *)
Definition string_of_Z (z : Z) : string := NilZero.string_of_int (Z.to_int z).

(** <ctype.h> in the C locale. *)
Definition isdigit (c : ascii) : bool :=
  (48 <=? char_code c) && (char_code c <=? 57).

Definition isalpha (c : ascii) : bool :=
  ((65 <=? char_code c) && (char_code c <=? 90))
  || ((97 <=? char_code c) && (char_code c <=? 122)).

Definition isalnum (c : ascii) : bool := isalpha c || isdigit c.

Definition isxdigit (c : ascii) : bool :=
  isdigit c
  || ((65 <=? char_code c) && (char_code c <=? 70))
  || ((97 <=? char_code c) && (char_code c <=? 102)).

(** ** lexer.h *)

Definition MAX_TOKEN_LEN : Z := 256.

Inductive token_type_t : Set :=
  | TOKEN_EOF | TOKEN_ERROR | TOKEN_NUMBER | TOKEN_FLOAT | TOKEN_STRING
  | TOKEN_CHAR | TOKEN_IDENTIFIER
  | TOKEN_PLUS | TOKEN_MINUS | TOKEN_MULTIPLY | TOKEN_DIVIDE | TOKEN_MODULO
  | TOKEN_INCREMENT | TOKEN_DECREMENT
  | TOKEN_BIT_AND | TOKEN_BIT_OR | TOKEN_BIT_XOR | TOKEN_BIT_NOT
  | TOKEN_LSHIFT | TOKEN_RSHIFT
  | TOKEN_EQ | TOKEN_NE | TOKEN_LT | TOKEN_GT | TOKEN_LE | TOKEN_GE
  | TOKEN_AND | TOKEN_OR | TOKEN_NOT
  | TOKEN_ASSIGN | TOKEN_PLUS_ASSIGN | TOKEN_MINUS_ASSIGN | TOKEN_MUL_ASSIGN
  | TOKEN_DIV_ASSIGN | TOKEN_MOD_ASSIGN | TOKEN_AND_ASSIGN | TOKEN_OR_ASSIGN
  | TOKEN_XOR_ASSIGN | TOKEN_LSHIFT_ASSIGN | TOKEN_RSHIFT_ASSIGN
  | TOKEN_SEMICOLON | TOKEN_COLON | TOKEN_COMMA | TOKEN_DOT | TOKEN_ARROW
  | TOKEN_LPAREN | TOKEN_RPAREN | TOKEN_LBRACE | TOKEN_RBRACE
  | TOKEN_LBRACKET | TOKEN_RBRACKET | TOKEN_QUESTION
  | TOKEN_VOID | TOKEN_INT | TOKEN_CHAR_TYPE | TOKEN_FLOAT_TYPE | TOKEN_DOUBLE
  | TOKEN_LONG | TOKEN_SHORT | TOKEN_UNSIGNED | TOKEN_SIGNED | TOKEN_CONST
  | TOKEN_VOLATILE | TOKEN_STATIC | TOKEN_EXTERN | TOKEN_STRUCT | TOKEN_UNION
  | TOKEN_ENUM | TOKEN_TYPEDEF | TOKEN_SIZEOF
  | TOKEN_IF | TOKEN_ELSE | TOKEN_WHILE | TOKEN_DO | TOKEN_FOR | TOKEN_SWITCH
  | TOKEN_CASE | TOKEN_DEFAULT | TOKEN_BREAK | TOKEN_CONTINUE | TOKEN_RETURN
  | TOKEN_GOTO
  | TOKEN_PROCESS | TOKEN_SYSCALL | TOKEN_INTERRUPT | TOKEN_SEMAPHORE
  | TOKEN_SIGNAL | TOKEN_WAIT | TOKEN_CREATE | TOKEN_RESUME | TOKEN_SUSPEND
  | TOKEN_KILL | TOKEN_SLEEP | TOKEN_YIELD | TOKEN_GETPID | TOKEN_GETPRIO
  | TOKEN_CHPRIO | TOKEN_TRUE | TOKEN_FALSE | TOKEN_NULL_LITERAL.

(** The value of the enumerator, [TOKEN_EOF = 0] and counting up. *)
Definition token_type_code (t : token_type_t) : Z :=
  match t with
  | TOKEN_EOF => 0 | TOKEN_ERROR => 1 | TOKEN_NUMBER => 2 | TOKEN_FLOAT => 3
  | TOKEN_STRING => 4 | TOKEN_CHAR => 5 | TOKEN_IDENTIFIER => 6
  | TOKEN_PLUS => 7 | TOKEN_MINUS => 8 | TOKEN_MULTIPLY => 9
  | TOKEN_DIVIDE => 10 | TOKEN_MODULO => 11 | TOKEN_INCREMENT => 12
  | TOKEN_DECREMENT => 13 | TOKEN_BIT_AND => 14 | TOKEN_BIT_OR => 15
  | TOKEN_BIT_XOR => 16 | TOKEN_BIT_NOT => 17 | TOKEN_LSHIFT => 18
  | TOKEN_RSHIFT => 19 | TOKEN_EQ => 20 | TOKEN_NE => 21 | TOKEN_LT => 22
  | TOKEN_GT => 23 | TOKEN_LE => 24 | TOKEN_GE => 25 | TOKEN_AND => 26
  | TOKEN_OR => 27 | TOKEN_NOT => 28 | TOKEN_ASSIGN => 29
  | TOKEN_PLUS_ASSIGN => 30 | TOKEN_MINUS_ASSIGN => 31
  | TOKEN_MUL_ASSIGN => 32 | TOKEN_DIV_ASSIGN => 33 | TOKEN_MOD_ASSIGN => 34
  | TOKEN_AND_ASSIGN => 35 | TOKEN_OR_ASSIGN => 36 | TOKEN_XOR_ASSIGN => 37
  | TOKEN_LSHIFT_ASSIGN => 38 | TOKEN_RSHIFT_ASSIGN => 39
  | TOKEN_SEMICOLON => 40 | TOKEN_COLON => 41 | TOKEN_COMMA => 42
  | TOKEN_DOT => 43 | TOKEN_ARROW => 44 | TOKEN_LPAREN => 45
  | TOKEN_RPAREN => 46 | TOKEN_LBRACE => 47 | TOKEN_RBRACE => 48
  | TOKEN_LBRACKET => 49 | TOKEN_RBRACKET => 50 | TOKEN_QUESTION => 51
  | TOKEN_VOID => 52 | TOKEN_INT => 53 | TOKEN_CHAR_TYPE => 54
  | TOKEN_FLOAT_TYPE => 55 | TOKEN_DOUBLE => 56 | TOKEN_LONG => 57
  | TOKEN_SHORT => 58 | TOKEN_UNSIGNED => 59 | TOKEN_SIGNED => 60
  | TOKEN_CONST => 61 | TOKEN_VOLATILE => 62 | TOKEN_STATIC => 63
  | TOKEN_EXTERN => 64 | TOKEN_STRUCT => 65 | TOKEN_UNION => 66
  | TOKEN_ENUM => 67 | TOKEN_TYPEDEF => 68 | TOKEN_SIZEOF => 69
  | TOKEN_IF => 70 | TOKEN_ELSE => 71 | TOKEN_WHILE => 72 | TOKEN_DO => 73
  | TOKEN_FOR => 74 | TOKEN_SWITCH => 75 | TOKEN_CASE => 76
  | TOKEN_DEFAULT => 77 | TOKEN_BREAK => 78 | TOKEN_CONTINUE => 79
  | TOKEN_RETURN => 80 | TOKEN_GOTO => 81 | TOKEN_PROCESS => 82
  | TOKEN_SYSCALL => 83 | TOKEN_INTERRUPT => 84 | TOKEN_SEMAPHORE => 85
  | TOKEN_SIGNAL => 86 | TOKEN_WAIT => 87 | TOKEN_CREATE => 88
  | TOKEN_RESUME => 89 | TOKEN_SUSPEND => 90 | TOKEN_KILL => 91
  | TOKEN_SLEEP => 92 | TOKEN_YIELD => 93 | TOKEN_GETPID => 94
  | TOKEN_GETPRIO => 95 | TOKEN_CHPRIO => 96 | TOKEN_TRUE => 97
  | TOKEN_FALSE => 98 | TOKEN_NULL_LITERAL => 99
  end.

(** [a == b] on two enumerators. *)
Definition token_type_eqb (a b : token_type_t) : bool :=
  token_type_code a =? token_type_code b.

(** The [literal] union of a token.  [LitIndeterminate] stands for the
    bytes of a local [token_t] that the lexer never wrote. *)
Inductive token_literal : Set :=
  | LitInt (int_val : Z)
  | LitFloat (float_text : string)
  | LitChar (char_val : ascii)
  | LitIndeterminate.

(** Reading a member of the union.  The parser reads [int_val] only on
    NUMBER tokens and [char_val] only on CHAR tokens, where the lexer wrote
    that member; the fall-through values are never taken on lexer output. *)
Definition literal_int_val (l : token_literal) : Z :=
  match l with LitInt z => z | _ => 0 end.

Definition literal_char_val (l : token_literal) : ascii :=
  match l with LitChar c => c | _ => NUL end.

Definition literal_float_val (l : token_literal) : string :=
  match l with LitFloat s => s | _ => EmptyString end.

Record token_t : Set := mk_token {
  tok_type : token_type_t;
  tok_value : string;
  tok_literal : token_literal;
  tok_line : Z;
  tok_column : Z;
  tok_filename : string
}.

Record lexer_t : Set := mk_lexer {
  lx_source : string;
  lx_filename : string;
  lx_pos : Z;
  lx_line : Z;
  lx_column : Z;
  lx_length : Z;
  lx_has_error : bool;
  lx_error_msg : string
}.

(** The file-level statics of lexer.c next to [global_lexer]. *)
Record lexer_statics : Set := mk_statics {
  peek_buffer : token_t;
  has_peek : bool;
  unget_buffer : token_t;
  has_unget : bool
}.

(** Zero-initialised static storage. *)
Definition zero_token : token_t :=
  mk_token TOKEN_EOF EmptyString (LitInt 0) 0 0 EmptyString.

Definition statics_at_start : lexer_statics :=
  mk_statics zero_token false zero_token false.

(** ** lexer.c *)

Definition keywords : list (string * token_type_t) :=
  [ ("void", TOKEN_VOID); ("int", TOKEN_INT); ("char", TOKEN_CHAR_TYPE);
    ("float", TOKEN_FLOAT_TYPE); ("double", TOKEN_DOUBLE);
    ("long", TOKEN_LONG); ("short", TOKEN_SHORT);
    ("unsigned", TOKEN_UNSIGNED); ("signed", TOKEN_SIGNED);
    ("const", TOKEN_CONST); ("volatile", TOKEN_VOLATILE);
    ("static", TOKEN_STATIC); ("extern", TOKEN_EXTERN);
    ("struct", TOKEN_STRUCT); ("union", TOKEN_UNION); ("enum", TOKEN_ENUM);
    ("typedef", TOKEN_TYPEDEF); ("sizeof", TOKEN_SIZEOF); ("if", TOKEN_IF);
    ("else", TOKEN_ELSE); ("while", TOKEN_WHILE); ("do", TOKEN_DO);
    ("for", TOKEN_FOR); ("switch", TOKEN_SWITCH); ("case", TOKEN_CASE);
    ("default", TOKEN_DEFAULT); ("break", TOKEN_BREAK);
    ("continue", TOKEN_CONTINUE); ("return", TOKEN_RETURN);
    ("goto", TOKEN_GOTO); ("process", TOKEN_PROCESS);
    ("syscall", TOKEN_SYSCALL); ("interrupt", TOKEN_INTERRUPT);
    ("semaphore", TOKEN_SEMAPHORE); ("signal", TOKEN_SIGNAL);
    ("wait", TOKEN_WAIT); ("create", TOKEN_CREATE); ("resume", TOKEN_RESUME);
    ("suspend", TOKEN_SUSPEND); ("kill", TOKEN_KILL); ("sleep", TOKEN_SLEEP);
    ("yield", TOKEN_YIELD); ("getpid", TOKEN_GETPID);
    ("getprio", TOKEN_GETPRIO); ("chprio", TOKEN_CHPRIO);
    ("true", TOKEN_TRUE); ("false", TOKEN_FALSE);
    ("null", TOKEN_NULL_LITERAL); ("NULL", TOKEN_NULL_LITERAL) ].

(** Every field of the lexer is overwritten, so the previous contents of
    [*lexer] do not matter.  The statics are not touched. *)
Definition lexer_init_ex (source filename : string) : lexer_t :=
  mk_lexer source filename 0 1 1 (Z.of_nat (c_strlen source)) false EmptyString.

(** [lexer->source[i]] for an index inside the string. *)
Definition source_at (l : lexer_t) (i : Z) : ascii :=
  match String.get (Z.to_nat i) (lx_source l) with
  | Some c => c
  | None => NUL
  end.

Definition lexer_current (l : lexer_t) : ascii :=
  if lx_pos l >=? lx_length l then NUL else source_at l (lx_pos l).

Definition lexer_peek (l : lexer_t) : ascii :=
  if lx_pos l + 1 >=? lx_length l then NUL else source_at l (lx_pos l + 1).

Definition lexer_peek_at (l : lexer_t) (offset : Z) : ascii :=
  if lx_pos l + offset >=? lx_length l then NUL
  else source_at l (lx_pos l + offset).

Definition lexer_advance (l : lexer_t) : lexer_t :=
  if lx_pos l <? lx_length l then
    if char_is (source_at l (lx_pos l)) "010" then
      mk_lexer (lx_source l) (lx_filename l) (lx_pos l + 1)
               (lx_line l + 1) 1
               (lx_length l) (lx_has_error l) (lx_error_msg l)
    else
      mk_lexer (lx_source l) (lx_filename l) (lx_pos l + 1)
               (lx_line l) (lx_column l + 1)
               (lx_length l) (lx_has_error l) (lx_error_msg l)
  else l.

Definition lexer_error (l : lexer_t) (msg : string) : lexer_t :=
  mk_lexer (lx_source l) (lx_filename l) (lx_pos l) (lx_line l) (lx_column l)
           (lx_length l) true
           (str_take 255
              (lx_filename l +:+ ":" +:+ string_of_Z (lx_line l) +:+ ":"
               +:+ string_of_Z (lx_column l) +:+ ": error: " +:+ msg)).

Definition lexer_has_error (l : lexer_t) : bool := lx_has_error l.

Definition lexer_get_error (l : lexer_t) : string := lx_error_msg l.

(** Characters left to read.  Every loop of the lexer consumes at least one
    character per iteration, so one more than this many iterations is
    always enough; the fuel [O] branches are not reached. *)
Definition remaining (l : lexer_t) : nat := Z.to_nat (lx_length l - lx_pos l).

Definition is_space (c : ascii) : bool :=
  char_is c " " || char_is c "009" || char_is c "013" || char_is c "010".

Fixpoint skip_whitespace_loop (fuel : nat) (l : lexer_t) : lexer_t :=
  match fuel with
  | O => l
  | S fuel' =>
      if lx_pos l <? lx_length l then
        if is_space (lexer_current l)
        then skip_whitespace_loop fuel' (lexer_advance l)
        else l
      else l
  end.

Definition skip_whitespace (l : lexer_t) : lexer_t :=
  skip_whitespace_loop (S (remaining l)) l.

Fixpoint skip_line_comment_loop (fuel : nat) (l : lexer_t) : lexer_t :=
  match fuel with
  | O => l
  | S fuel' =>
      if (lx_pos l <? lx_length l) && negb (char_is (lexer_current l) "010")
      then skip_line_comment_loop fuel' (lexer_advance l)
      else l
  end.

Definition skip_line_comment (l : lexer_t) : lexer_t :=
  skip_line_comment_loop (S (remaining l)) l.

Fixpoint skip_block_comment_loop (fuel : nat) (l : lexer_t) : lexer_t :=
  match fuel with
  | O => l
  | S fuel' =>
      if lx_pos l <? lx_length l then
        if char_is (lexer_current l) "*" && char_is (lexer_peek l) "/"
        then lexer_advance (lexer_advance l)
        else skip_block_comment_loop fuel' (lexer_advance l)
      else lexer_error l "Unterminated block comment"
  end.

Definition skip_block_comment (l : lexer_t) : lexer_t :=
  let l := lexer_advance l in
  let l := lexer_advance l in
  skip_block_comment_loop (S (remaining l)) l.

Fixpoint skip_whitespace_and_comments_loop (fuel : nat) (l : lexer_t) : lexer_t :=
  match fuel with
  | O => l
  | S fuel' =>
      if lx_pos l <? lx_length l then
        let c := lexer_current l in
        if is_space c then
          skip_whitespace_and_comments_loop fuel' (lexer_advance l)
        else if char_is c "/" && char_is (lexer_peek l) "/" then
          skip_whitespace_and_comments_loop fuel' (skip_line_comment l)
        else if char_is c "/" && char_is (lexer_peek l) "*" then
          skip_whitespace_and_comments_loop fuel' (skip_block_comment l)
        else l
      else l
  end.

Definition skip_whitespace_and_comments (l : lexer_t) : lexer_t :=
  skip_whitespace_and_comments_loop (S (remaining l)) l.

Definition make_token (l : lexer_t) (type : token_type_t) (value : string) : token_t :=
  mk_token type (str_take 255 value) (LitInt 0)
           (lx_line l) (lx_column l) (lx_filename l).

(** The error token, and the lexer with its error state set. *)
Definition make_error_token (l : lexer_t) (message : string) : token_t * lexer_t :=
  (mk_token TOKEN_ERROR (str_take 255 message) LitIndeterminate
            (lx_line l) (lx_column l) (lx_filename l),
   mk_lexer (lx_source l) (lx_filename l) (lx_pos l) (lx_line l) (lx_column l)
            (lx_length l) true (str_take 255 message)).

Fixpoint lookup_keyword_in (table : list (string * token_type_t))
    (identifier : string) : token_type_t :=
  match table with
  | [] => TOKEN_IDENTIFIER
  | (keyword, type) :: rest =>
      if String.eqb keyword identifier then type
      else lookup_keyword_in rest identifier
  end.

Definition lookup_keyword (identifier : string) : token_type_t :=
  lookup_keyword_in keywords identifier.

Definition str_len (s : string) : Z := Z.of_nat (String.length s).

Fixpoint read_identifier_loop (fuel : nat) (value : string) (l : lexer_t)
    : string * lexer_t :=
  match fuel with
  | O => (value, l)
  | S fuel' =>
      if lx_pos l <? lx_length l then
        let c := lexer_current l in
        if isalnum c || char_is c "_" then
          let value' :=
            if str_len value <? MAX_TOKEN_LEN - 1 then str_snoc value c
            else value in
          read_identifier_loop fuel' value' (lexer_advance l)
        else (value, l)
      else (value, l)
  end.

Definition read_identifier (l : lexer_t) : token_t * lexer_t :=
  let line := lx_line l in
  let start_col := lx_column l in
  let '(value, l') := read_identifier_loop (S (remaining l)) EmptyString l in
  (mk_token (lookup_keyword value) value (LitInt 0)
            line start_col (lx_filename l), l').

Definition hex_digit_value (c : ascii) : Z :=
  if (char_code "0" <=? char_code c) && (char_code c <=? char_code "9")
  then char_code c - char_code "0"
  else if (char_code "a" <=? char_code c) && (char_code c <=? char_code "f")
  then char_code c - char_code "a" + 10
  else if (char_code "A" <=? char_code c) && (char_code c <=? char_code "F")
  then char_code c - char_code "A" + 10
  else -1.

(** [strtoll] of the C library on the texts [read_number] hands to it
    (no sign, no leading blanks): the longest prefix of digits of the base,
    after an optional [0x] when the base is 16, saturating at
    [LLONG_MAX]. *)
Definition LLONG_MAX : Z := 2 ^ 63 - 1.

Fixpoint strtoll_digits (s : string) (base acc : Z) : Z :=
  match s with
  | EmptyString => acc
  | String c rest =>
      let d := hex_digit_value c in
      if (0 <=? d) && (d <? base)
      then strtoll_digits rest base (acc * base + d)
      else acc
  end.

Definition strtoll (s : string) (base : Z) : Z :=
  let body :=
    match s with
    | String z (String x (String d rest)) =>
        if (base =? 16) && char_is z "0" && (char_is x "x" || char_is x "X")
           && isxdigit d
        then String d rest else s
    | _ => s
    end in
  Z.min (strtoll_digits body base 0) LLONG_MAX.

Fixpoint read_number_loop (fuel : nat) (is_hex is_binary : bool)
    (value : string) (is_float : bool) (l : lexer_t)
    : string * bool * lexer_t :=
  match fuel with
  | O => (value, is_float, l)
  | S fuel' =>
      if (lx_pos l <? lx_length l) && (str_len value <? MAX_TOKEN_LEN - 1) then
        let c := lexer_current l in
        if is_hex then
          if isxdigit c
          then read_number_loop fuel' is_hex is_binary (str_snoc value c)
                                is_float (lexer_advance l)
          else (value, is_float, l)
        else if is_binary then
          if char_is c "0" || char_is c "1"
          then read_number_loop fuel' is_hex is_binary (str_snoc value c)
                                is_float (lexer_advance l)
          else (value, is_float, l)
        else if isdigit c then
          read_number_loop fuel' is_hex is_binary (str_snoc value c)
                           is_float (lexer_advance l)
        else if char_is c "." && negb is_float && isdigit (lexer_peek l) then
          read_number_loop fuel' is_hex is_binary (str_snoc value c)
                           true (lexer_advance l)
        else if (char_is c "e" || char_is c "E") && negb is_hex then
          let value := str_snoc value c in
          let l := lexer_advance l in
          if char_is (lexer_current l) "+" || char_is (lexer_current l) "-"
          then read_number_loop fuel' is_hex is_binary
                                (str_snoc value (lexer_current l))
                                true (lexer_advance l)
          else read_number_loop fuel' is_hex is_binary value true l
        else (value, is_float, l)
      else (value, is_float, l)
  end.

Definition is_number_suffix (c : ascii) : bool :=
  char_is c "u" || char_is c "U" || char_is c "l" || char_is c "L"
  || char_is c "f" || char_is c "F".

Fixpoint read_number_suffix (fuel : nat) (l : lexer_t) : lexer_t :=
  match fuel with
  | O => l
  | S fuel' =>
      if is_number_suffix (lexer_current l)
      then read_number_suffix fuel' (lexer_advance l)
      else l
  end.

Definition read_number (l : lexer_t) : token_t * lexer_t :=
  let line := lx_line l in
  let column := lx_column l in
  let '(value, is_hex, is_binary, is_octal, l1) :=
    if char_is (lexer_current l) "0" then
      let value := String (lexer_current l) EmptyString in
      let l1 := lexer_advance l in
      if char_is (lexer_current l1) "x" || char_is (lexer_current l1) "X" then
        (str_snoc value (lexer_current l1), true, false, false, lexer_advance l1)
      else if char_is (lexer_current l1) "b" || char_is (lexer_current l1) "B" then
        (str_snoc value (lexer_current l1), false, true, false, lexer_advance l1)
      else if isdigit (lexer_current l1) then
        (value, false, false, true, l1)
      else (value, false, false, false, l1)
    else (EmptyString, false, false, false, l) in
  let '(value, is_float, l2) :=
    read_number_loop (S (remaining l1)) is_hex is_binary value false l1 in
  let l3 := read_number_suffix (S (remaining l2)) l2 in
  let literal :=
    if is_float then LitFloat value
    else if is_hex then LitInt (strtoll value 16)
    else if is_binary then LitInt (strtoll (String.substring 2 (String.length value) value) 2)
    else if is_octal then LitInt (strtoll value 8)
    else LitInt (strtoll value 10) in
  (mk_token (if is_float then TOKEN_FLOAT else TOKEN_NUMBER) value literal
            line column (lx_filename l), l3).

Definition char_of_code (n : Z) : ascii := ascii_of_N (Z.to_N (n mod 256)).

Definition read_escape_char (l : lexer_t) : ascii * lexer_t :=
  let l := lexer_advance l in
  let c := lexer_current l in
  let l := lexer_advance l in
  if char_is c "n" then ("010"%char, l)
  else if char_is c "t" then ("009"%char, l)
  else if char_is c "r" then ("013"%char, l)
  else if char_is c "0" then (NUL, l)
  else if char_is c "\" then ("\"%char, l)
  else if char_is c "'" then ("'"%char, l)
  else if char_is c "034" then ("034"%char, l)
  else if char_is c "a" then ("007"%char, l)
  else if char_is c "b" then ("008"%char, l)
  else if char_is c "f" then ("012"%char, l)
  else if char_is c "v" then ("011"%char, l)
  else if char_is c "x" then
    if isxdigit (lexer_current l) then
      let v1 := hex_digit_value (lexer_current l) in
      let l1 := lexer_advance l in
      if isxdigit (lexer_current l1) then
        (char_of_code (v1 * 16 + hex_digit_value (lexer_current l1)),
         lexer_advance l1)
      else (char_of_code v1, l1)
    else (char_of_code 0, l)
  else (c, l).

(** The loop of [read_string] either leaves through its [return] with an
    error token, or ends with the characters read so far. *)
Fixpoint read_string_loop (fuel : nat) (value : string) (l : lexer_t)
    : (token_t * lexer_t) + (string * lexer_t) :=
  match fuel with
  | O => inr (value, l)
  | S fuel' =>
      if (lx_pos l <? lx_length l) && (str_len value <? MAX_TOKEN_LEN - 1) then
        let c := lexer_current l in
        if char_is c "034" then inr (value, lexer_advance l)
        else if char_is c "\" then
          let '(e, l') := read_escape_char l in
          read_string_loop fuel' (str_snoc value e) l'
        else if char_is c "010" then
          inl (make_error_token l "Unterminated string literal")
        else read_string_loop fuel' (str_snoc value c) (lexer_advance l)
      else inr (value, l)
  end.

Definition read_string (l : lexer_t) : token_t * lexer_t :=
  let line := lx_line l in
  let column := lx_column l in
  let l1 := lexer_advance l in
  match read_string_loop (S (remaining l1)) EmptyString l1 with
  | inl err => err
  | inr (value, l2) =>
      (mk_token TOKEN_STRING value LitIndeterminate
                line column (lx_filename l), l2)
  end.

Definition read_char (l : lexer_t) : token_t * lexer_t :=
  let line := lx_line l in
  let column := lx_column l in
  let l1 := lexer_advance l in
  let '(char_val, l2) :=
    if char_is (lexer_current l1) "\" then read_escape_char l1
    else (lexer_current l1, lexer_advance l1) in
  if negb (char_is (lexer_current l2) "'") then
    make_error_token l2 "Unterminated character literal"
  else
    let l3 := lexer_advance l2 in
    (mk_token TOKEN_CHAR (String char_val EmptyString) (LitChar char_val)
              line column (lx_filename l), l3).

(** The operator and delimiter [switch] of [lexer_next_token_ex]; [l] is the
    lexer after the [lexer_advance] that precedes the switch. *)
Definition lex_operator (c : ascii) (l : lexer_t) : token_t * lexer_t :=
  let cur := lexer_current l in
  let adv := lexer_advance l in
  if char_is c "+" then
    if char_is cur "+" then (make_token adv TOKEN_INCREMENT "++", adv)
    else if char_is cur "=" then (make_token adv TOKEN_PLUS_ASSIGN "+=", adv)
    else (make_token l TOKEN_PLUS "+", l)
  else if char_is c "-" then
    if char_is cur "-" then (make_token adv TOKEN_DECREMENT "--", adv)
    else if char_is cur "=" then (make_token adv TOKEN_MINUS_ASSIGN "-=", adv)
    else if char_is cur ">" then (make_token adv TOKEN_ARROW "->", adv)
    else (make_token l TOKEN_MINUS "-", l)
  else if char_is c "*" then
    if char_is cur "=" then (make_token adv TOKEN_MUL_ASSIGN "*=", adv)
    else (make_token l TOKEN_MULTIPLY "*", l)
  else if char_is c "/" then
    if char_is cur "=" then (make_token adv TOKEN_DIV_ASSIGN "/=", adv)
    else (make_token l TOKEN_DIVIDE "/", l)
  else if char_is c "%" then
    if char_is cur "=" then (make_token adv TOKEN_MOD_ASSIGN "%=", adv)
    else (make_token l TOKEN_MODULO "%", l)
  else if char_is c "&" then
    if char_is cur "&" then (make_token adv TOKEN_AND "&&", adv)
    else if char_is cur "=" then (make_token adv TOKEN_AND_ASSIGN "&=", adv)
    else (make_token l TOKEN_BIT_AND "&", l)
  else if char_is c "|" then
    if char_is cur "|" then (make_token adv TOKEN_OR "||", adv)
    else if char_is cur "=" then (make_token adv TOKEN_OR_ASSIGN "|=", adv)
    else (make_token l TOKEN_BIT_OR "|", l)
  else if char_is c "^" then
    if char_is cur "=" then (make_token adv TOKEN_XOR_ASSIGN "^=", adv)
    else (make_token l TOKEN_BIT_XOR "^", l)
  else if char_is c "~" then (make_token l TOKEN_BIT_NOT "~", l)
  else if char_is c "!" then
    if char_is cur "=" then (make_token adv TOKEN_NE "!=", adv)
    else (make_token l TOKEN_NOT "!", l)
  else if char_is c "=" then
    if char_is cur "=" then (make_token adv TOKEN_EQ "==", adv)
    else (make_token l TOKEN_ASSIGN "=", l)
  else if char_is c "<" then
    if char_is cur "=" then (make_token adv TOKEN_LE "<=", adv)
    else if char_is cur "<" then
      if char_is (lexer_current adv) "="
      then (make_token (lexer_advance adv) TOKEN_LSHIFT_ASSIGN "<<=",
            lexer_advance adv)
      else (make_token adv TOKEN_LSHIFT "<<", adv)
    else (make_token l TOKEN_LT "<", l)
  else if char_is c ">" then
    if char_is cur "=" then (make_token adv TOKEN_GE ">=", adv)
    else if char_is cur ">" then
      if char_is (lexer_current adv) "="
      then (make_token (lexer_advance adv) TOKEN_RSHIFT_ASSIGN ">>=",
            lexer_advance adv)
      else (make_token adv TOKEN_RSHIFT ">>", adv)
    else (make_token l TOKEN_GT ">", l)
  else if char_is c ";" then (make_token l TOKEN_SEMICOLON ";", l)
  else if char_is c ":" then (make_token l TOKEN_COLON ":", l)
  else if char_is c "," then (make_token l TOKEN_COMMA ",", l)
  else if char_is c "." then
    if isdigit cur then
      read_number
        (mk_lexer (lx_source l) (lx_filename l) (lx_pos l - 1) (lx_line l)
                  (lx_column l - 1) (lx_length l) (lx_has_error l)
                  (lx_error_msg l))
    else (make_token l TOKEN_DOT ".", l)
  else if char_is c "(" then (make_token l TOKEN_LPAREN "(", l)
  else if char_is c ")" then (make_token l TOKEN_RPAREN ")", l)
  else if char_is c "{" then (make_token l TOKEN_LBRACE "{", l)
  else if char_is c "}" then (make_token l TOKEN_RBRACE "}", l)
  else if char_is c "[" then (make_token l TOKEN_LBRACKET "[", l)
  else if char_is c "]" then (make_token l TOKEN_RBRACKET "]", l)
  else if char_is c "?" then (make_token l TOKEN_QUESTION "?", l)
  else
    make_error_token l
      (str_take 63 ("Unexpected character: '" +:+ String c "'")).

(** The part of [lexer_next_token_ex] below the unget check: it works on
    the lexer alone. *)
Definition lexer_scan (l : lexer_t) : token_t * lexer_t :=
  let l := skip_whitespace_and_comments l in
  if lx_pos l >=? lx_length l then (make_token l TOKEN_EOF EmptyString, l)
  else
    let c := lexer_current l in
    if isalpha c || char_is c "_" then read_identifier l
    else if isdigit c then read_number l
    else if char_is c "034" then read_string l
    else if char_is c "'" then read_char l
    else lex_operator c (lexer_advance l).

Definition lexer_next_token_ex (l : lexer_t) (st : lexer_statics)
    : token_t * lexer_t * lexer_statics :=
  if has_unget st then
    (unget_buffer st, l,
     mk_statics (peek_buffer st) (has_peek st) (unget_buffer st) false)
  else
    let '(token, l') := lexer_scan l in (token, l', st).

Definition lexer_peek_token_ex (l : lexer_t) (st : lexer_statics)
    : token_t * lexer_t * lexer_statics :=
  if negb (has_peek st) then
    let '(token, l', st') := lexer_next_token_ex l st in
    (token, l',
     mk_statics token true (unget_buffer st') (has_unget st'))
  else (peek_buffer st, l, st).

Definition lexer_unget_token (token : token_t) (st : lexer_statics)
    : lexer_statics :=
  mk_statics (peek_buffer st) (has_peek st) token true.

Definition token_is_assignment_op (type : token_type_t) : bool :=
  token_type_eqb type TOKEN_ASSIGN || token_type_eqb type TOKEN_PLUS_ASSIGN
  || token_type_eqb type TOKEN_MINUS_ASSIGN
  || token_type_eqb type TOKEN_MUL_ASSIGN
  || token_type_eqb type TOKEN_DIV_ASSIGN
  || token_type_eqb type TOKEN_MOD_ASSIGN
  || token_type_eqb type TOKEN_AND_ASSIGN
  || token_type_eqb type TOKEN_OR_ASSIGN
  || token_type_eqb type TOKEN_XOR_ASSIGN
  || token_type_eqb type TOKEN_LSHIFT_ASSIGN
  || token_type_eqb type TOKEN_RSHIFT_ASSIGN.

(** [lexer_init]: the global lexer on [source], nothing peeked and nothing
    pushed back. *)
Definition lexer_init (source : string) (st : lexer_statics)
    : lexer_t * lexer_statics :=
  (lexer_init_ex source "<stdin>",
   mk_statics (peek_buffer st) false (unget_buffer st) false).

Definition token_type_to_string (type : token_type_t) : string :=
  match type with
  | TOKEN_EOF => "EOF" | TOKEN_ERROR => "ERROR" | TOKEN_NUMBER => "NUMBER"
  | TOKEN_FLOAT => "FLOAT" | TOKEN_STRING => "STRING" | TOKEN_CHAR => "CHAR"
  | TOKEN_IDENTIFIER => "IDENTIFIER"
  | TOKEN_PLUS => "+" | TOKEN_MINUS => "-" | TOKEN_MULTIPLY => "*"
  | TOKEN_DIVIDE => "/" | TOKEN_MODULO => "%" | TOKEN_INCREMENT => "++"
  | TOKEN_DECREMENT => "--" | TOKEN_BIT_AND => "&" | TOKEN_BIT_OR => "|"
  | TOKEN_BIT_XOR => "^" | TOKEN_BIT_NOT => "~" | TOKEN_LSHIFT => "<<"
  | TOKEN_RSHIFT => ">>" | TOKEN_EQ => "==" | TOKEN_NE => "!="
  | TOKEN_LT => "<" | TOKEN_GT => ">" | TOKEN_LE => "<=" | TOKEN_GE => ">="
  | TOKEN_AND => "&&" | TOKEN_OR => "||" | TOKEN_NOT => "!"
  | TOKEN_ASSIGN => "=" | TOKEN_SEMICOLON => ";" | TOKEN_COLON => ":"
  | TOKEN_COMMA => "," | TOKEN_DOT => "." | TOKEN_ARROW => "->"
  | TOKEN_LPAREN => "(" | TOKEN_RPAREN => ")" | TOKEN_LBRACE => "{"
  | TOKEN_RBRACE => "}" | TOKEN_LBRACKET => "[" | TOKEN_RBRACKET => "]"
  | TOKEN_IF => "if" | TOKEN_ELSE => "else" | TOKEN_WHILE => "while"
  | TOKEN_FOR => "for" | TOKEN_DO => "do" | TOKEN_RETURN => "return"
  | TOKEN_BREAK => "break" | TOKEN_CONTINUE => "continue"
  | TOKEN_SWITCH => "switch" | TOKEN_CASE => "case"
  | TOKEN_DEFAULT => "default" | TOKEN_VOID => "void" | TOKEN_INT => "int"
  | TOKEN_CHAR_TYPE => "char" | TOKEN_FLOAT_TYPE => "float"
  | TOKEN_STRUCT => "struct" | TOKEN_PROCESS => "process"
  | TOKEN_SYSCALL => "syscall"
  | _ => "UNKNOWN"
  end.

Definition token_is_type_keyword (type : token_type_t) : bool :=
  token_type_eqb type TOKEN_VOID || token_type_eqb type TOKEN_INT
  || token_type_eqb type TOKEN_CHAR_TYPE
  || token_type_eqb type TOKEN_FLOAT_TYPE
  || token_type_eqb type TOKEN_DOUBLE || token_type_eqb type TOKEN_LONG
  || token_type_eqb type TOKEN_SHORT || token_type_eqb type TOKEN_UNSIGNED
  || token_type_eqb type TOKEN_SIGNED || token_type_eqb type TOKEN_STRUCT
  || token_type_eqb type TOKEN_UNION || token_type_eqb type TOKEN_ENUM.

Definition token_is_storage_class (type : token_type_t) : bool :=
  token_type_eqb type TOKEN_STATIC || token_type_eqb type TOKEN_EXTERN
  || token_type_eqb type TOKEN_CONST || token_type_eqb type TOKEN_VOLATILE.

Definition token_is_comparison_op (type : token_type_t) : bool :=
  token_type_eqb type TOKEN_EQ || token_type_eqb type TOKEN_NE
  || token_type_eqb type TOKEN_LT || token_type_eqb type TOKEN_GT
  || token_type_eqb type TOKEN_LE || token_type_eqb type TOKEN_GE.

Definition token_is_unary_op (type : token_type_t) : bool :=
  token_type_eqb type TOKEN_PLUS || token_type_eqb type TOKEN_MINUS
  || token_type_eqb type TOKEN_NOT || token_type_eqb type TOKEN_BIT_NOT
  || token_type_eqb type TOKEN_INCREMENT
  || token_type_eqb type TOKEN_DECREMENT
  || token_type_eqb type TOKEN_MULTIPLY || token_type_eqb type TOKEN_BIT_AND.

Definition token_is_binary_op (type : token_type_t) : bool :=
  token_type_eqb type TOKEN_PLUS || token_type_eqb type TOKEN_MINUS
  || token_type_eqb type TOKEN_MULTIPLY || token_type_eqb type TOKEN_DIVIDE
  || token_type_eqb type TOKEN_MODULO || token_type_eqb type TOKEN_BIT_AND
  || token_type_eqb type TOKEN_BIT_OR || token_type_eqb type TOKEN_BIT_XOR
  || token_type_eqb type TOKEN_LSHIFT || token_type_eqb type TOKEN_RSHIFT
  || token_type_eqb type TOKEN_AND || token_type_eqb type TOKEN_OR
  || token_is_comparison_op type.

Definition token_get_precedence (type : token_type_t) : Z :=
  match type with
  | TOKEN_OR => 1
  | TOKEN_AND => 2
  | TOKEN_BIT_OR => 3
  | TOKEN_BIT_XOR => 4
  | TOKEN_BIT_AND => 5
  | TOKEN_EQ | TOKEN_NE => 6
  | TOKEN_LT | TOKEN_GT | TOKEN_LE | TOKEN_GE => 7
  | TOKEN_LSHIFT | TOKEN_RSHIFT => 8
  | TOKEN_PLUS | TOKEN_MINUS => 9
  | TOKEN_MULTIPLY | TOKEN_DIVIDE | TOKEN_MODULO => 10
  | _ => 0
  end.

(** The first [n] tokens delivered by [n] successive calls of
    [lexer_next_token_ex]. *)
Fixpoint lexer_tokens (n : nat) (l : lexer_t) (st : lexer_statics)
    : list token_t * lexer_t * lexer_statics :=
  match n with
  | O => ([], l, st)
  | S n' =>
      let '(token, l1, st1) := lexer_next_token_ex l st in
      let '(rest, l2, st2) := lexer_tokens n' l1 st1 in
      (token :: rest, l2, st2)
  end.

(** ** parser.h *)

Definition MAX_ARRAY_DIMS : Z := 8.

Inductive ast_node_type_t : Set :=
  | NODE_PROGRAM | NODE_FUNCTION | NODE_PROCESS | NODE_SYSCALL
  | NODE_INTERRUPT | NODE_PARAM | NODE_BLOCK | NODE_VAR_DECL
  | NODE_ARRAY_DECL | NODE_STRUCT_DECL | NODE_UNION_DECL | NODE_ENUM_DECL
  | NODE_TYPEDEF | NODE_FIELD | NODE_EXPR_STMT | NODE_IF | NODE_WHILE
  | NODE_DO_WHILE | NODE_FOR | NODE_SWITCH | NODE_CASE | NODE_DEFAULT
  | NODE_RETURN | NODE_BREAK | NODE_CONTINUE | NODE_GOTO | NODE_LABEL
  | NODE_EMPTY | NODE_NUMBER | NODE_FLOAT | NODE_STRING | NODE_CHAR
  | NODE_IDENTIFIER | NODE_BINARY_OP | NODE_UNARY_OP | NODE_ASSIGN
  | NODE_COMPOUND_ASSIGN | NODE_TERNARY | NODE_CALL | NODE_ARRAY_ACCESS
  | NODE_MEMBER_ACCESS | NODE_PTR_MEMBER | NODE_CAST | NODE_SIZEOF
  | NODE_ADDRESS_OF | NODE_DEREFERENCE | NODE_PRE_INC | NODE_PRE_DEC
  | NODE_POST_INC | NODE_POST_DEC | NODE_COMMA | NODE_INIT_LIST
  | NODE_CREATE | NODE_RESUME | NODE_SUSPEND | NODE_KILL | NODE_SLEEP
  | NODE_YIELD | NODE_WAIT | NODE_SIGNAL | NODE_GETPID | NODE_SEMAPHORE
  | NODE_TYPE | NODE_POINTER_TYPE | NODE_ARRAY_TYPE | NODE_FUNC_TYPE.

Inductive data_type_t : Set :=
  | TYPE_VOID | TYPE_CHAR | TYPE_SHORT | TYPE_INT | TYPE_LONG | TYPE_FLOAT
  | TYPE_DOUBLE | TYPE_POINTER | TYPE_ARRAY | TYPE_STRUCT | TYPE_UNION
  | TYPE_ENUM | TYPE_FUNCTION | TYPE_PROCESS | TYPE_SEMAPHORE | TYPE_PID
  | TYPE_UNKNOWN.

Definition QUAL_NONE : Z := 0.
Definition QUAL_CONST : Z := Z.shiftl 1 0.
Definition QUAL_VOLATILE : Z := Z.shiftl 1 1.
Definition QUAL_UNSIGNED : Z := Z.shiftl 1 2.
Definition QUAL_SIGNED : Z := Z.shiftl 1 3.

#[local] Unset Elimination Schemes.

Inductive type_info_t : Set := mk_type_info {
  base_type : data_type_t;
  qualifiers : Z;
  pointer_depth : Z;
  array_dims : Z;
  array_sizes : list Z;
  struct_name : string;
  pointed_type : option type_info_t;
  return_type : option type_info_t;
  num_params : Z;
  param_types : list type_info_t
}.

(** The [value] union of a node. *)
Inductive node_value : Set :=
  | ValInt (int_val : Z)
  | ValFloat (float_text : string)
  | ValChar (char_val : ascii)
  | ValString (string_val : string).

(** The fields of [ast_node_t] that the parser or a later stage reads or
    writes.  [token], [line], [column], [filename], [symbol] and
    [is_constant] keep the zero bytes of [ast_create_node] for ever, and
    [child_capacity] only drives the reallocation of [children]. *)
Inductive ast_node_t : Set := mk_ast_node {
  node_type : ast_node_type_t;
  data_type : option type_info_t;
  node_value_of : node_value;
  node_name : string;
  node_op : string;
  node_left : option ast_node_t;
  node_right : option ast_node_t;
  node_extra : option ast_node_t;
  children : list ast_node_t;
  is_lvalue : bool
}.

#[local] Set Elimination Schemes.

(** [node->value.int_val].  The parser writes the [int_val] member on every
    NUMBER node, the only kind on which the generator reads it. *)
Definition value_int_val (v : node_value) : Z :=
  match v with ValInt z => z | _ => 0 end.

Definition child_count (n : ast_node_t) : Z := Z.of_nat (length (children n)).

(** The state of the parser.  [p_lexer] is the lexer behind the [lexer]
    pointer and [p_statics] the statics of lexer.c that the lexer reads
    and writes. *)
Record parser_t : Set := mk_parser {
  p_lexer : lexer_t;
  p_statics : lexer_statics;
  p_current : token_t;
  p_previous : token_t;
  p_had_error : bool;
  p_panic_mode : bool;
  p_error_msg : string;
  p_filename : string
}.

(** ** parser.c: nodes and types *)

Definition ast_create_node (type : ast_node_type_t) : ast_node_t :=
  mk_ast_node type None (ValInt 0) EmptyString EmptyString
              None None None [] false.

Definition ast_add_child (parent : ast_node_t) (child : option ast_node_t)
    : ast_node_t :=
  match child with
  | None => parent
  | Some c =>
      mk_ast_node (node_type parent) (data_type parent) (node_value_of parent)
                  (node_name parent) (node_op parent) (node_left parent)
                  (node_right parent) (node_extra parent)
                  (children parent ++ [c]) (is_lvalue parent)
  end.

Definition set_data_type (n : ast_node_t) (t : option type_info_t) : ast_node_t :=
  mk_ast_node (node_type n) t (node_value_of n) (node_name n) (node_op n)
              (node_left n) (node_right n) (node_extra n) (children n)
              (is_lvalue n).

Definition set_value (n : ast_node_t) (v : node_value) : ast_node_t :=
  mk_ast_node (node_type n) (data_type n) v (node_name n) (node_op n)
              (node_left n) (node_right n) (node_extra n) (children n)
              (is_lvalue n).

Definition set_name (n : ast_node_t) (s : string) : ast_node_t :=
  mk_ast_node (node_type n) (data_type n) (node_value_of n) s (node_op n)
              (node_left n) (node_right n) (node_extra n) (children n)
              (is_lvalue n).

Definition set_op (n : ast_node_t) (s : string) : ast_node_t :=
  mk_ast_node (node_type n) (data_type n) (node_value_of n) (node_name n) s
              (node_left n) (node_right n) (node_extra n) (children n)
              (is_lvalue n).

Definition set_left (n : ast_node_t) (c : option ast_node_t) : ast_node_t :=
  mk_ast_node (node_type n) (data_type n) (node_value_of n) (node_name n)
              (node_op n) c (node_right n) (node_extra n) (children n)
              (is_lvalue n).

Definition set_right (n : ast_node_t) (c : option ast_node_t) : ast_node_t :=
  mk_ast_node (node_type n) (data_type n) (node_value_of n) (node_name n)
              (node_op n) (node_left n) c (node_extra n) (children n)
              (is_lvalue n).

Definition set_extra (n : ast_node_t) (c : option ast_node_t) : ast_node_t :=
  mk_ast_node (node_type n) (data_type n) (node_value_of n) (node_name n)
              (node_op n) (node_left n) (node_right n) c (children n)
              (is_lvalue n).

Definition set_is_lvalue (n : ast_node_t) (b : bool) : ast_node_t :=
  mk_ast_node (node_type n) (data_type n) (node_value_of n) (node_name n)
              (node_op n) (node_left n) (node_right n) (node_extra n)
              (children n) b.

Definition type_create (base : data_type_t) : type_info_t :=
  mk_type_info base QUAL_NONE 0 0 (replicate (Z.to_nat MAX_ARRAY_DIMS) 0)
               EmptyString None None 0 [].

Definition type_create_pointer (pointed : option type_info_t) : type_info_t :=
  let t := type_create TYPE_POINTER in
  mk_type_info (base_type t) (qualifiers t) 1 (array_dims t) (array_sizes t)
               (struct_name t) pointed (return_type t) (num_params t)
               (param_types t).

(** [memcpy] of the descriptor. *)
Definition type_copy (type : option type_info_t) : option type_info_t := type.

Definition type_create_array (element : option type_info_t) (size : Z)
    : option type_info_t :=
  match type_copy element with
  | None => None
  | Some t =>
      if array_dims t <? MAX_ARRAY_DIMS then
        Some (mk_type_info (base_type t) (qualifiers t) (pointer_depth t)
                (array_dims t + 1)
                (<[Z.to_nat (array_dims t) := size]> (array_sizes t))
                (struct_name t) (pointed_type t) (return_type t)
                (num_params t) (param_types t))
      else Some t
  end.

Definition add_qualifier (t : type_info_t) (q : Z) : type_info_t :=
  mk_type_info (base_type t) (Z.lor (qualifiers t) q) (pointer_depth t)
               (array_dims t) (array_sizes t) (struct_name t)
               (pointed_type t) (return_type t) (num_params t)
               (param_types t).

Definition type_base_size (b : data_type_t) : Z :=
  match b with
  | TYPE_VOID => 0
  | TYPE_CHAR => 1
  | TYPE_SHORT => 2
  | TYPE_INT => 4
  | TYPE_LONG => 8
  | TYPE_FLOAT => 4
  | TYPE_DOUBLE => 8
  | TYPE_POINTER => 4
  | TYPE_PID => 4
  | TYPE_SEMAPHORE => 4
  | _ => 4
  end.

(** [type_size]: [base_size *= array_sizes[i]] is a product of [int]. *)
Definition type_size (type : option type_info_t) : Z :=
  match type with
  | None => 0
  | Some t =>
      fold_left (fun size n => to_int32 (size * n))
                (take (Z.to_nat (array_dims t)) (array_sizes t))
                (type_base_size (base_type t))
  end.

(** [a == b] on two [data_type_t] enumerators. *)
Definition data_type_eqb (a b : data_type_t) : bool :=
  match a, b with
  | TYPE_VOID, TYPE_VOID | TYPE_CHAR, TYPE_CHAR | TYPE_SHORT, TYPE_SHORT
  | TYPE_INT, TYPE_INT | TYPE_LONG, TYPE_LONG | TYPE_FLOAT, TYPE_FLOAT
  | TYPE_DOUBLE, TYPE_DOUBLE | TYPE_POINTER, TYPE_POINTER
  | TYPE_ARRAY, TYPE_ARRAY | TYPE_STRUCT, TYPE_STRUCT
  | TYPE_UNION, TYPE_UNION | TYPE_ENUM, TYPE_ENUM
  | TYPE_FUNCTION, TYPE_FUNCTION | TYPE_PROCESS, TYPE_PROCESS
  | TYPE_SEMAPHORE, TYPE_SEMAPHORE | TYPE_PID, TYPE_PID
  | TYPE_UNKNOWN, TYPE_UNKNOWN => true
  | _, _ => false
  end.

(** The loop of [type_equal] over the first [n] array sizes. *)
Fixpoint array_sizes_equal (n : nat) (xs ys : list Z) : bool :=
  match n, xs, ys with
  | O, _, _ => true
  | S n', x :: xs', y :: ys' => (x =? y) && array_sizes_equal n' xs' ys'
  | S _, _, _ => true
  end.

(** [type_equal]; a NULL descriptor is [None].  The model holds for
    [array_dims] up to [MAX_ARRAY_DIMS], the length of [array_sizes]. *)
Definition type_equal (a b : option type_info_t) : bool :=
  match a, b with
  | None, None => true
  | None, Some _ | Some _, None => false
  | Some ta, Some tb =>
      data_type_eqb (base_type ta) (base_type tb)
      && (pointer_depth ta =? pointer_depth tb)
      && (array_dims ta =? array_dims tb)
      && array_sizes_equal (Z.to_nat (array_dims ta))
                           (array_sizes ta) (array_sizes tb)
  end.

Definition is_small_integer (b : data_type_t) : bool :=
  match b with
  | TYPE_INT | TYPE_CHAR | TYPE_SHORT => true
  | _ => false
  end.

(** [type_compatible]; [None] where the C code reads through a NULL
    pointer.  The tests run in the order of the C code and [&&] and [||]
    stop at the first operand that decides: [b] is read only when the test
    on [a] before it holds, [b->pointed_type] only when the pointee of [a]
    is not void. *)
Definition type_compatible (a b : option type_info_t) : option bool :=
  if type_equal a b then Some true
  else
    ta ← a;
    promotion ← (if is_small_integer (base_type ta)
                 then tb ← b; Some (is_small_integer (base_type tb))
                 else Some false);
    if (promotion : bool) then Some true
    else if data_type_eqb (base_type ta) TYPE_POINTER then
      tb ← b;
      if data_type_eqb (base_type tb) TYPE_POINTER then
        pa ← pointed_type ta;
        if data_type_eqb (base_type pa) TYPE_VOID then Some true
        else
          pb ← pointed_type tb;
          Some (data_type_eqb (base_type pb) TYPE_VOID)
      else Some false
    else Some false.

(** ** parser.c: token handling *)

Definition parser_error_at (p : parser_t) (token : token_t) (message : string)
    : parser_t :=
  if p_panic_mode p then p
  else
    mk_parser (p_lexer p) (p_statics p) (p_current p) (p_previous p)
      true true
      (str_take 511
         (p_filename p +:+ ":" +:+ string_of_Z (tok_line token) +:+ ":"
          +:+ string_of_Z (tok_column token) +:+ ": error: " +:+ message
          +:+ " at '" +:+ c_str (tok_value token) +:+ "'"))
      (p_filename p).

Definition parser_error (p : parser_t) (message : string) : parser_t :=
  parser_error_at p (p_current p) message.

Definition parser_had_error (p : parser_t) : bool := p_had_error p.

(** The [for (;;)] of [advance].  An ERROR token consumes at least one
    character, and a pushed-back token is delivered once, so the loop body
    runs at most [remaining + 2] times. *)
Fixpoint advance_loop (fuel : nat) (p : parser_t) : parser_t :=
  match fuel with
  | O => p
  | S fuel' =>
      let '(token, l, st) := lexer_next_token_ex (p_lexer p) (p_statics p) in
      let p1 := mk_parser l st token (p_previous p) (p_had_error p)
                          (p_panic_mode p) (p_error_msg p) (p_filename p) in
      if negb (token_type_eqb (tok_type token) TOKEN_ERROR) then p1
      else advance_loop fuel'
             (parser_error_at p1 (p_current p1) (c_str (tok_value (p_current p1))))
  end.

Definition advance (p : parser_t) : parser_t :=
  advance_loop (S (S (remaining (p_lexer p))))
    (mk_parser (p_lexer p) (p_statics p) (p_current p) (p_current p)
               (p_had_error p) (p_panic_mode p) (p_error_msg p)
               (p_filename p)).

Definition check (p : parser_t) (type : token_type_t) : bool :=
  token_type_eqb (tok_type (p_current p)) type.

(** [match] of parser.c (a keyword of Rocq). *)
Definition match_ (p : parser_t) (type : token_type_t) : bool * parser_t :=
  if negb (check p type) then (false, p) else (true, advance p).

(** [match(p, t1) || match(p, t2) || ...], left to right. *)
Fixpoint match_any (p : parser_t) (types : list token_type_t) : bool * parser_t :=
  match types with
  | [] => (false, p)
  | t :: rest =>
      let '(m, p1) := match_ p t in
      if m then (true, p1) else match_any p1 rest
  end.

(** In the source the text of an older, unfinished parser follows the call
    of [parser_error_at] inside the braces of [consume]; the function
    proper ends with that call. *)
Definition consume (p : parser_t) (type : token_type_t) (message : string)
    : parser_t :=
  if token_type_eqb (tok_type (p_current p)) type then advance p
  else parser_error_at p (p_current p) message.

(** The parser of the freshly allocated, not yet initialised [parser_t]:
    [parser_init] leaves [current] as it finds it and [advance] copies it
    to [previous].  The model takes zero bytes for that memory. *)
Definition parser_init (parser : parser_t) (lexer : lexer_t)
    (statics : lexer_statics) : parser_t :=
  advance (mk_parser lexer statics (p_current parser) (p_previous parser)
                     false false EmptyString (lx_filename lexer)).

Definition is_sync_token (t : token_type_t) : bool :=
  match t with
  | TOKEN_IF | TOKEN_WHILE | TOKEN_FOR | TOKEN_RETURN | TOKEN_INT
  | TOKEN_VOID | TOKEN_CHAR_TYPE | TOKEN_FLOAT_TYPE => true
  | _ => false
  end.

Fixpoint parser_synchronize_loop (fuel : nat) (p : parser_t) : parser_t :=
  match fuel with
  | O => p
  | S fuel' =>
      if negb (token_type_eqb (tok_type (p_current p)) TOKEN_EOF) then
        if token_type_eqb (tok_type (p_previous p)) TOKEN_SEMICOLON then p
        else if is_sync_token (tok_type (p_current p)) then p
        else parser_synchronize_loop fuel' (advance p)
      else p
  end.

(** Every turn of the loop of [parser_synchronize] takes one token that is
    not EOF, so [remaining + 2] turns are enough. *)
Definition parser_synchronize (p : parser_t) : parser_t :=
  parser_synchronize_loop (S (S (remaining (p_lexer p))))
    (mk_parser (p_lexer p) (p_statics p) (p_current p) (p_previous p)
               (p_had_error p) false (p_error_msg p) (p_filename p)).

(** ** parser.c: expressions, statements and declarations

    The functions call each other without a structural measure; they run
    on [fuel], one unit per call, and answer [None] when it runs out.  A
    result [Some (None, p)] is the C function returning NULL. *)

Definition parse_result : Set := option (option ast_node_t * parser_t).

(** The common shape of the left-associative levels:
    [while (match(...)) { node = make(); node->left = left;
                          node->right = operand(); left = node; }]. *)
Fixpoint binary_loop (n : nat) (matches : parser_t -> bool * parser_t)
    (make : parser_t -> ast_node_t) (operand : parser_t -> parse_result)
    (lhs : option ast_node_t) (p : parser_t) : parse_result :=
  match n with
  | O => None
  | S n' =>
      let '(m, p1) := matches p in
      if m then
        let node := set_left (make p1) lhs in
        '(rhs, p2) ← operand p1;
        binary_loop n' matches make operand (Some (set_right node rhs)) p2
      else Some (lhs, p1)
  end.

(** [node = ast_create_node(NODE_BINARY_OP);
     strcpy(node->op, parser->previous.value);] *)
Definition binary_op_previous (p : parser_t) : ast_node_t :=
  set_op (ast_create_node NODE_BINARY_OP) (c_str (tok_value (p_previous p))).

Definition binary_op_text (op : string) (p : parser_t) : ast_node_t :=
  set_op (ast_create_node NODE_BINARY_OP) op.

Definition unary_node (type : ast_node_type_t) (op : string)
    (operand : option ast_node_t) : ast_node_t :=
  set_left (set_op (ast_create_node type) op) operand.

Definition parse_type_specifier (p : parser_t) : type_info_t * parser_t :=
  let base (p : parser_t) : option (data_type_t) * parser_t :=
    let '(m, p) := match_ p TOKEN_VOID in if m then (Some TYPE_VOID, p) else
    let '(m, p) := match_ p TOKEN_CHAR_TYPE in if m then (Some TYPE_CHAR, p) else
    let '(m, p) := match_ p TOKEN_SHORT in if m then (Some TYPE_SHORT, p) else
    let '(m, p) := match_ p TOKEN_INT in if m then (Some TYPE_INT, p) else
    let '(m, p) := match_ p TOKEN_LONG in if m then (Some TYPE_LONG, p) else
    let '(m, p) := match_ p TOKEN_FLOAT_TYPE in if m then (Some TYPE_FLOAT, p) else
    let '(m, p) := match_ p TOKEN_DOUBLE in if m then (Some TYPE_DOUBLE, p) else
    let '(m, p) := match_ p TOKEN_PROCESS in if m then (Some TYPE_PROCESS, p) else
    let '(m, p) := match_ p TOKEN_SEMAPHORE in if m then (Some TYPE_SEMAPHORE, p) else
    (None, p) in
  match base p with
  | (None, p) =>
      (type_create TYPE_INT, parser_error p "Expected type specifier")
  | (Some b, p) =>
      let type := type_create b in
      let '(type, p) :=
        let '(m, p) := match_ p TOKEN_UNSIGNED in
        if m then (add_qualifier type QUAL_UNSIGNED, p)
        else
          let '(m, p) := match_ p TOKEN_SIGNED in
          if m then (add_qualifier type QUAL_SIGNED, p) else (type, p) in
      let '(type, p) :=
        let '(m, p) := match_ p TOKEN_CONST in
        if m then (add_qualifier type QUAL_CONST, p) else (type, p) in
      let '(type, p) :=
        let '(m, p) := match_ p TOKEN_VOLATILE in
        if m then (add_qualifier type QUAL_VOLATILE, p) else (type, p) in
      (type, p)
  end.

Definition previous_text (p : parser_t) : string := c_str (tok_value (p_previous p)).

Fixpoint parse_primary_expression (fuel : nat) (p : parser_t) {struct fuel}
    : parse_result :=
  match fuel with
  | O => None
  | S fuel =>
      let '(m, p) := match_ p TOKEN_NUMBER in
      if m then
        let node := ast_create_node NODE_NUMBER in
        let node := set_value node (ValInt (literal_int_val (tok_literal (p_previous p)))) in
        let node := set_name node (previous_text p) in
        Some (Some (set_data_type node (Some (type_create TYPE_INT))), p)
      else
      let '(m, p) := match_ p TOKEN_FLOAT in
      if m then
        let node := ast_create_node NODE_FLOAT in
        let node := set_value node (ValFloat (literal_float_val (tok_literal (p_previous p)))) in
        let node := set_name node (previous_text p) in
        Some (Some (set_data_type node (Some (type_create TYPE_FLOAT))), p)
      else
      let '(m, p) := match_ p TOKEN_STRING in
      if m then
        let node := ast_create_node NODE_STRING in
        let node := set_value node (ValString (previous_text p)) in
        Some (Some (set_data_type node
                      (Some (type_create_pointer (Some (type_create TYPE_CHAR))))), p)
      else
      let '(m, p) := match_ p TOKEN_CHAR in
      if m then
        let node := ast_create_node NODE_CHAR in
        let node := set_value node (ValChar (literal_char_val (tok_literal (p_previous p)))) in
        Some (Some (set_data_type node (Some (type_create TYPE_CHAR))), p)
      else
      let '(m, p) := match_ p TOKEN_IDENTIFIER in
      if m then
        let node := ast_create_node NODE_IDENTIFIER in
        let node := set_name node (previous_text p) in
        Some (Some (set_is_lvalue node true), p)
      else
      let '(m, p) := match_any p [TOKEN_TRUE; TOKEN_FALSE] in
      if m then
        let node := ast_create_node NODE_NUMBER in
        let node := set_value node
          (ValInt (if token_type_eqb (tok_type (p_previous p)) TOKEN_TRUE
                   then 1 else 0)) in
        Some (Some (set_data_type node (Some (type_create TYPE_INT))), p)
      else
      let '(m, p) := match_ p TOKEN_NULL_LITERAL in
      if m then
        let node := ast_create_node NODE_NUMBER in
        let node := set_value node (ValInt 0) in
        Some (Some (set_data_type node (Some (type_create TYPE_POINTER))), p)
      else
      let '(m, p) := match_ p TOKEN_LPAREN in
      if m then
        '(node, p) ← parse_expression fuel p;
        Some (node, consume p TOKEN_RPAREN "Expected ')' after expression")
      else
        Some (None, parser_error p "Expected expression")
  end

with parse_call_args (fuel : nat) (call : ast_node_t) (p : parser_t)
    {struct fuel} : option (ast_node_t * parser_t) :=
  match fuel with
  | O => None
  | S fuel =>
      '(arg, p) ← parse_assignment_expression fuel p;
      let call := ast_add_child call arg in
      let '(m, p) := match_ p TOKEN_COMMA in
      if m then parse_call_args fuel call p else Some (call, p)
  end

with parse_postfix_loop (fuel : nat) (node : option ast_node_t) (p : parser_t)
    {struct fuel} : parse_result :=
  match fuel with
  | O => None
  | S fuel =>
      let '(m, p) := match_ p TOKEN_LPAREN in
      if m then
        let call := set_left (ast_create_node NODE_CALL) node in
        '(call, p) ←
          (if negb (check p TOKEN_RPAREN) then parse_call_args fuel call p
           else Some (call, p));
        let p := consume p TOKEN_RPAREN "Expected ')' after arguments" in
        parse_postfix_loop fuel (Some call) p
      else
      let '(m, p) := match_ p TOKEN_LBRACKET in
      if m then
        let access := set_left (ast_create_node NODE_ARRAY_ACCESS) node in
        '(index, p) ← parse_expression fuel p;
        let access := set_right access index in
        let p := consume p TOKEN_RBRACKET "Expected ']' after array index" in
        parse_postfix_loop fuel (Some (set_is_lvalue access true)) p
      else
      let '(m, p) := match_ p TOKEN_DOT in
      if m then
        let member := set_left (ast_create_node NODE_MEMBER_ACCESS) node in
        let p := consume p TOKEN_IDENTIFIER "Expected member name" in
        let field := set_name (ast_create_node NODE_IDENTIFIER) (previous_text p) in
        let member := set_right member (Some field) in
        parse_postfix_loop fuel (Some (set_is_lvalue member true)) p
      else
      let '(m, p) := match_ p TOKEN_ARROW in
      if m then
        let member := set_left (ast_create_node NODE_PTR_MEMBER) node in
        let p := consume p TOKEN_IDENTIFIER "Expected member name" in
        let field := set_name (ast_create_node NODE_IDENTIFIER) (previous_text p) in
        let member := set_right member (Some field) in
        parse_postfix_loop fuel (Some (set_is_lvalue member true)) p
      else
      let '(m, p) := match_ p TOKEN_INCREMENT in
      if m then
        parse_postfix_loop fuel
          (Some (set_left (ast_create_node NODE_POST_INC) node)) p
      else
      let '(m, p) := match_ p TOKEN_DECREMENT in
      if m then
        parse_postfix_loop fuel
          (Some (set_left (ast_create_node NODE_POST_DEC) node)) p
      else Some (node, p)
  end

with parse_postfix_expression (fuel : nat) (p : parser_t) {struct fuel}
    : parse_result :=
  match fuel with
  | O => None
  | S fuel =>
      '(node, p) ← parse_primary_expression fuel p;
      parse_postfix_loop fuel node p
  end

with parse_unary_expression (fuel : nat) (p : parser_t) {struct fuel}
    : parse_result :=
  match fuel with
  | O => None
  | S fuel =>
      let '(m, p) := match_ p TOKEN_INCREMENT in
      if m then
        '(operand, p) ← parse_unary_expression fuel p;
        Some (Some (set_left (ast_create_node NODE_PRE_INC) operand), p)
      else
      let '(m, p) := match_ p TOKEN_DECREMENT in
      if m then
        '(operand, p) ← parse_unary_expression fuel p;
        Some (Some (set_left (ast_create_node NODE_PRE_DEC) operand), p)
      else
      let '(m, p) := match_ p TOKEN_PLUS in
      if m then parse_unary_expression fuel p
      else
      let '(m, p) := match_ p TOKEN_MINUS in
      if m then
        '(operand, p) ← parse_unary_expression fuel p;
        Some (Some (unary_node NODE_UNARY_OP "-" operand), p)
      else
      let '(m, p) := match_ p TOKEN_NOT in
      if m then
        '(operand, p) ← parse_unary_expression fuel p;
        Some (Some (unary_node NODE_UNARY_OP "!" operand), p)
      else
      let '(m, p) := match_ p TOKEN_BIT_NOT in
      if m then
        '(operand, p) ← parse_unary_expression fuel p;
        Some (Some (unary_node NODE_UNARY_OP "~" operand), p)
      else
      let '(m, p) := match_ p TOKEN_BIT_AND in
      if m then
        '(operand, p) ← parse_unary_expression fuel p;
        Some (Some (set_left (ast_create_node NODE_ADDRESS_OF) operand), p)
      else
      let '(m, p) := match_ p TOKEN_MULTIPLY in
      if m then
        '(operand, p) ← parse_unary_expression fuel p;
        Some (Some (set_is_lvalue
                      (set_left (ast_create_node NODE_DEREFERENCE) operand)
                      true), p)
      else
      let '(m, p) := match_ p TOKEN_SIZEOF in
      if m then
        let node := ast_create_node NODE_SIZEOF in
        let '(m, p) := match_ p TOKEN_LPAREN in
        '(node, p) ←
          (if m then
             '(operand, p) ← parse_expression fuel p;
             Some (set_left node operand,
                   consume p TOKEN_RPAREN "Expected ')' after sizeof expression")
           else
             '(operand, p) ← parse_unary_expression fuel p;
             Some (set_left node operand, p));
        Some (Some (set_data_type node (Some (type_create TYPE_INT))), p)
      else parse_postfix_expression fuel p
  end

with parse_multiplicative_expression (fuel : nat) (p : parser_t) {struct fuel}
    : parse_result :=
  match fuel with
  | O => None
  | S fuel =>
      '(lhs, p) ← parse_unary_expression fuel p;
      binary_loop fuel
        (fun p => match_any p [TOKEN_MULTIPLY; TOKEN_DIVIDE; TOKEN_MODULO])
        binary_op_previous (parse_unary_expression fuel) lhs p
  end

with parse_additive_expression (fuel : nat) (p : parser_t) {struct fuel}
    : parse_result :=
  match fuel with
  | O => None
  | S fuel =>
      '(lhs, p) ← parse_multiplicative_expression fuel p;
      binary_loop fuel (fun p => match_any p [TOKEN_PLUS; TOKEN_MINUS])
        binary_op_previous (parse_multiplicative_expression fuel) lhs p
  end

with parse_shift_expression (fuel : nat) (p : parser_t) {struct fuel}
    : parse_result :=
  match fuel with
  | O => None
  | S fuel =>
      '(lhs, p) ← parse_additive_expression fuel p;
      binary_loop fuel (fun p => match_any p [TOKEN_LSHIFT; TOKEN_RSHIFT])
        binary_op_previous (parse_additive_expression fuel) lhs p
  end

with parse_relational_expression (fuel : nat) (p : parser_t) {struct fuel}
    : parse_result :=
  match fuel with
  | O => None
  | S fuel =>
      '(lhs, p) ← parse_shift_expression fuel p;
      binary_loop fuel
        (fun p => match_any p [TOKEN_LT; TOKEN_GT; TOKEN_LE; TOKEN_GE])
        binary_op_previous (parse_shift_expression fuel) lhs p
  end

with parse_equality_expression (fuel : nat) (p : parser_t) {struct fuel}
    : parse_result :=
  match fuel with
  | O => None
  | S fuel =>
      '(lhs, p) ← parse_relational_expression fuel p;
      binary_loop fuel (fun p => match_any p [TOKEN_EQ; TOKEN_NE])
        binary_op_previous (parse_relational_expression fuel) lhs p
  end

with parse_bitwise_and_expression (fuel : nat) (p : parser_t) {struct fuel}
    : parse_result :=
  match fuel with
  | O => None
  | S fuel =>
      '(lhs, p) ← parse_equality_expression fuel p;
      binary_loop fuel (fun p => match_ p TOKEN_BIT_AND)
        (binary_op_text "&") (parse_equality_expression fuel) lhs p
  end

with parse_bitwise_xor_expression (fuel : nat) (p : parser_t) {struct fuel}
    : parse_result :=
  match fuel with
  | O => None
  | S fuel =>
      '(lhs, p) ← parse_bitwise_and_expression fuel p;
      binary_loop fuel (fun p => match_ p TOKEN_BIT_XOR)
        (binary_op_text "^") (parse_bitwise_and_expression fuel) lhs p
  end

with parse_bitwise_or_expression (fuel : nat) (p : parser_t) {struct fuel}
    : parse_result :=
  match fuel with
  | O => None
  | S fuel =>
      '(lhs, p) ← parse_bitwise_xor_expression fuel p;
      binary_loop fuel (fun p => match_ p TOKEN_BIT_OR)
        (binary_op_text "|") (parse_bitwise_xor_expression fuel) lhs p
  end

with parse_logical_and_expression (fuel : nat) (p : parser_t) {struct fuel}
    : parse_result :=
  match fuel with
  | O => None
  | S fuel =>
      '(lhs, p) ← parse_bitwise_or_expression fuel p;
      binary_loop fuel (fun p => match_ p TOKEN_AND)
        (binary_op_text "&&") (parse_bitwise_or_expression fuel) lhs p
  end

with parse_logical_or_expression (fuel : nat) (p : parser_t) {struct fuel}
    : parse_result :=
  match fuel with
  | O => None
  | S fuel =>
      '(lhs, p) ← parse_logical_and_expression fuel p;
      binary_loop fuel (fun p => match_ p TOKEN_OR)
        (binary_op_text "||") (parse_logical_and_expression fuel) lhs p
  end

with parse_conditional_expression (fuel : nat) (p : parser_t) {struct fuel}
    : parse_result :=
  match fuel with
  | O => None
  | S fuel =>
      '(lhs, p) ← parse_logical_or_expression fuel p;
      let '(m, p) := match_ p TOKEN_QUESTION in
      if m then
        let node := set_left (ast_create_node NODE_TERNARY) lhs in
        '(then_value, p) ← parse_expression fuel p;
        let node := set_right node then_value in
        let p := consume p TOKEN_COLON "Expected ':' in ternary expression" in
        '(else_value, p) ← parse_conditional_expression fuel p;
        Some (Some (set_extra node else_value), p)
      else Some (lhs, p)
  end

with parse_assignment_expression (fuel : nat) (p : parser_t) {struct fuel}
    : parse_result :=
  match fuel with
  | O => None
  | S fuel =>
      '(lhs, p) ← parse_conditional_expression fuel p;
      if token_is_assignment_op (tok_type (p_current p)) then
        let op_type := tok_type (p_current p) in
        let p := advance p in
        let node :=
          if token_type_eqb op_type TOKEN_ASSIGN
          then ast_create_node NODE_ASSIGN
          else set_op (ast_create_node NODE_COMPOUND_ASSIGN) (previous_text p) in
        let node := set_left node lhs in
        '(rhs, p) ← parse_assignment_expression fuel p;
        Some (Some (set_right node rhs), p)
      else Some (lhs, p)
  end

with parse_expression (fuel : nat) (p : parser_t) {struct fuel} : parse_result :=
  match fuel with
  | O => None
  | S fuel =>
      '(lhs, p) ← parse_assignment_expression fuel p;
      binary_loop fuel (fun p => match_ p TOKEN_COMMA)
        (fun _ => ast_create_node NODE_COMMA)
        (parse_assignment_expression fuel) lhs p
  end.

Definition parse_return_statement (fuel : nat) (p : parser_t) : parse_result :=
  let node := ast_create_node NODE_RETURN in
  '(node, p) ←
    (if negb (check p TOKEN_SEMICOLON) then
       '(value, p) ← parse_expression fuel p;
       Some (set_left node value, p)
     else Some (node, p));
  Some (Some node, consume p TOKEN_SEMICOLON "Expected ';' after return").

Definition parse_break_statement (p : parser_t) : parse_result :=
  let node := ast_create_node NODE_BREAK in
  Some (Some node, consume p TOKEN_SEMICOLON "Expected ';' after break").

Definition parse_continue_statement (p : parser_t) : parse_result :=
  let node := ast_create_node NODE_CONTINUE in
  Some (Some node, consume p TOKEN_SEMICOLON "Expected ';' after continue").

Fixpoint parse_statement (fuel : nat) (p : parser_t) {struct fuel} : parse_result :=
  match fuel with
  | O => None
  | S fuel =>
      if check p TOKEN_LBRACE then parse_block fuel p
      else
      let '(m, p) := match_ p TOKEN_IF in
      if m then parse_if_statement fuel p else
      let '(m, p) := match_ p TOKEN_WHILE in
      if m then parse_while_statement fuel p else
      let '(m, p) := match_ p TOKEN_DO in
      if m then parse_do_while_statement fuel p else
      let '(m, p) := match_ p TOKEN_FOR in
      if m then parse_for_statement fuel p else
      let '(m, p) := match_ p TOKEN_RETURN in
      if m then parse_return_statement fuel p else
      let '(m, p) := match_ p TOKEN_BREAK in
      if m then parse_break_statement p else
      let '(m, p) := match_ p TOKEN_CONTINUE in
      if m then parse_continue_statement p else
      let node := ast_create_node NODE_EXPR_STMT in
      '(e, p) ← parse_expression fuel p;
      let node := set_left node e in
      Some (Some node, consume p TOKEN_SEMICOLON "Expected ';' after expression")
  end

with parse_block_loop (fuel : nat) (block : ast_node_t) (p : parser_t)
    {struct fuel} : option (ast_node_t * parser_t) :=
  match fuel with
  | O => None
  | S fuel =>
      if negb (check p TOKEN_RBRACE) && negb (check p TOKEN_EOF) then
        '(stmt, p) ← parse_statement fuel p;
        parse_block_loop fuel (ast_add_child block stmt) p
      else Some (block, p)
  end

with parse_block (fuel : nat) (p : parser_t) {struct fuel} : parse_result :=
  match fuel with
  | O => None
  | S fuel =>
      let block := ast_create_node NODE_BLOCK in
      let p := consume p TOKEN_LBRACE "Expected '{'" in
      '(block, p) ← parse_block_loop fuel block p;
      Some (Some block, consume p TOKEN_RBRACE "Expected '}'")
  end

with parse_if_statement (fuel : nat) (p : parser_t) {struct fuel} : parse_result :=
  match fuel with
  | O => None
  | S fuel =>
      let node := ast_create_node NODE_IF in
      let p := consume p TOKEN_LPAREN "Expected '(' after 'if'" in
      '(cond, p) ← parse_expression fuel p;
      let node := set_left node cond in
      let p := consume p TOKEN_RPAREN "Expected ')' after condition" in
      '(then_branch, p) ← parse_statement fuel p;
      let node := set_right node then_branch in
      let '(m, p) := match_ p TOKEN_ELSE in
      if m then
        '(else_branch, p) ← parse_statement fuel p;
        Some (Some (set_extra node else_branch), p)
      else Some (Some node, p)
  end

with parse_while_statement (fuel : nat) (p : parser_t) {struct fuel}
    : parse_result :=
  match fuel with
  | O => None
  | S fuel =>
      let node := ast_create_node NODE_WHILE in
      let p := consume p TOKEN_LPAREN "Expected '(' after 'while'" in
      '(cond, p) ← parse_expression fuel p;
      let node := set_left node cond in
      let p := consume p TOKEN_RPAREN "Expected ')' after condition" in
      '(body, p) ← parse_statement fuel p;
      Some (Some (set_right node body), p)
  end

with parse_do_while_statement (fuel : nat) (p : parser_t) {struct fuel}
    : parse_result :=
  match fuel with
  | O => None
  | S fuel =>
      let node := ast_create_node NODE_DO_WHILE in
      '(body, p) ← parse_statement fuel p;
      let node := set_left node body in
      let p := consume p TOKEN_WHILE "Expected 'while' after do body" in
      let p := consume p TOKEN_LPAREN "Expected '(' after 'while'" in
      '(cond, p) ← parse_expression fuel p;
      let node := set_right node cond in
      let p := consume p TOKEN_RPAREN "Expected ')' after condition" in
      let p := consume p TOKEN_SEMICOLON "Expected ';' after do-while" in
      Some (Some node, p)
  end

with parse_for_statement (fuel : nat) (p : parser_t) {struct fuel}
    : parse_result :=
  match fuel with
  | O => None
  | S fuel =>
      let node := ast_create_node NODE_FOR in
      let p := consume p TOKEN_LPAREN "Expected '(' after 'for'" in
      let '(m, p) := match_ p TOKEN_SEMICOLON in
      '(node, p) ←
        (if m then Some (set_left node None, p)
         else
           '(init, p) ← parse_expression fuel p;
           Some (set_left node init,
                 consume p TOKEN_SEMICOLON "Expected ';' after for init"));
      let '(m, p) := match_ p TOKEN_SEMICOLON in
      '(node, p) ←
        (if m then Some (set_right node None, p)
         else
           '(cond, p) ← parse_expression fuel p;
           Some (set_right node cond,
                 consume p TOKEN_SEMICOLON "Expected ';' after for condition"));
      '(node, p) ←
        (if check p TOKEN_RPAREN then Some (set_extra node None, p)
         else
           '(step, p) ← parse_expression fuel p;
           Some (set_extra node step, p));
      let p := consume p TOKEN_RPAREN "Expected ')' after for clauses" in
      '(body, p) ← parse_statement fuel p;
      Some (Some (ast_add_child node body), p)
  end.

(** [while (match(parser, TOKEN_LBRACKET)) { ... }] of
    [parse_variable_declaration]. *)
Fixpoint parse_array_dims (fuel : nat) (node : ast_node_t) (p : parser_t)
    : option (ast_node_t * parser_t) :=
  match fuel with
  | O => None
  | S fuel =>
      let '(m, p) := match_ p TOKEN_LBRACKET in
      if m then
        let '(node, p) :=
          if check p TOKEN_NUMBER then
            let size := literal_int_val (tok_literal (p_current p)) in
            let size := to_int32 size in
            let p := advance p in
            (set_data_type node (type_create_array (data_type node) size), p)
          else
            (set_data_type node (type_create_array (data_type node) 0), p) in
        parse_array_dims fuel node (consume p TOKEN_RBRACKET "Expected ']'")
      else Some (node, p)
  end.

Definition parse_variable_declaration (fuel : nat) (p : parser_t)
    (type : type_info_t) : parse_result :=
  let node := set_data_type (ast_create_node NODE_VAR_DECL) (Some type) in
  let p := consume p TOKEN_IDENTIFIER "Expected variable name" in
  let node := set_name node (previous_text p) in
  '(node, p) ← parse_array_dims fuel node p;
  let '(m, p) := match_ p TOKEN_ASSIGN in
  '(node, p) ←
    (if m then
       '(init, p) ← parse_assignment_expression fuel p;
       Some (set_left node init, p)
     else Some (node, p));
  Some (Some node, consume p TOKEN_SEMICOLON "Expected ';' after declaration").

(** [do { ... } while (match(parser, TOKEN_COMMA));] of [parse_function]. *)
Fixpoint parse_params (fuel : nat) (node : ast_node_t) (p : parser_t)
    : option (ast_node_t * parser_t) :=
  match fuel with
  | O => None
  | S fuel =>
      let '(param_type, p) := parse_type_specifier p in
      let param := set_data_type (ast_create_node NODE_PARAM) (Some param_type) in
      let '(param, p) :=
        if check p TOKEN_IDENTIFIER
        then (set_name param (c_str (tok_value (p_current p))), advance p)
        else (param, p) in
      let node := ast_add_child node (Some param) in
      let '(m, p) := match_ p TOKEN_COMMA in
      if m then parse_params fuel node p else Some (node, p)
  end.

Definition parse_function (fuel : nat) (p : parser_t)
    (return_type : type_info_t) (name : string) : parse_result :=
  let node := set_data_type (ast_create_node NODE_FUNCTION) (Some return_type) in
  let node := set_name node name in
  let p := consume p TOKEN_LPAREN "Expected '(' after function name" in
  '(node, p) ←
    (if negb (check p TOKEN_RPAREN) then parse_params fuel node p
     else Some (node, p));
  let p := consume p TOKEN_RPAREN "Expected ')' after parameters" in
  if check p TOKEN_LBRACE then
    '(body, p) ← parse_block fuel p;
    Some (Some (set_left node body), p)
  else
    Some (Some node, consume p TOKEN_SEMICOLON "Expected ';' or function body").

(** [while (match(parser, TOKEN_MULTIPLY)) type = type_create_pointer(type);] *)
Fixpoint parse_pointer_stars (fuel : nat) (type : type_info_t) (p : parser_t)
    : option (type_info_t * parser_t) :=
  match fuel with
  | O => None
  | S fuel =>
      let '(m, p) := match_ p TOKEN_MULTIPLY in
      if m then parse_pointer_stars fuel (type_create_pointer (Some type)) p
      else Some (type, p)
  end.

Definition parse_declaration (fuel : nat) (p : parser_t) : parse_result :=
  let '(m, p) := match_ p TOKEN_STATIC in
  let p := if m then p else (match_ p TOKEN_EXTERN).2 in
  let '(type, p) := parse_type_specifier p in
  '(type, p) ← parse_pointer_stars fuel type p;
  let p := consume p TOKEN_IDENTIFIER "Expected identifier" in
  let name := previous_text p in
  if check p TOKEN_LPAREN then parse_function fuel p type name
  else
    let p := mk_parser (p_lexer p) (p_statics p) (p_previous p) (p_previous p)
                       (p_had_error p) (p_panic_mode p) (p_error_msg p)
                       (p_filename p) in
    let p := advance p in
    parse_variable_declaration fuel p type.

Fixpoint parser_parse_program_loop (fuel : nat) (program : ast_node_t)
    (p : parser_t) : option (ast_node_t * parser_t) :=
  match fuel with
  | O => None
  | S fuel =>
      if negb (check p TOKEN_EOF) then
        if p_had_error p then
          parser_parse_program_loop fuel program (parser_synchronize p)
        else
          '(decl, p) ← parse_declaration fuel p;
          parser_parse_program_loop fuel (ast_add_child program decl) p
      else Some (program, p)
  end.

Definition parser_parse_program (fuel : nat) (p : parser_t)
    : option (ast_node_t * parser_t) :=
  parser_parse_program_loop fuel (ast_create_node NODE_PROGRAM) p.

Definition parser_parse (fuel : nat) (p : parser_t)
    : option (ast_node_t * parser_t) :=
  parser_parse_program fuel p.

Definition fresh_parser : parser_t :=
  mk_parser (lexer_init_ex EmptyString EmptyString) statics_at_start
            zero_token zero_token false false EmptyString EmptyString.

(** ** symbol_table.h *)

Inductive symbol_kind_t : Set :=
  | SYM_VARIABLE | SYM_PARAMETER | SYM_FUNCTION | SYM_PROCESS | SYM_SEMAPHORE
  | SYM_STRUCT | SYM_UNION | SYM_ENUM | SYM_TYPEDEF | SYM_LABEL.

(** A symbol; the chain through [next] is the list that holds it. *)
Record symbol_t : Set := mk_symbol {
  sym_name : string;
  sym_kind : symbol_kind_t;
  sym_type : option type_info_t;
  sym_scope_level : Z;
  sym_offset : Z;
  sym_is_initialized : bool;
  sym_is_used : bool;
  sym_declaration : option ast_node_t
}.

#[local] Unset Elimination Schemes.

(** A scope owns its buckets and is reached from its children through
    [parent]. *)
Inductive scope_t : Set := mk_scope {
  scope_level_of : Z;
  symbols : list (list symbol_t);
  symbol_count : Z;
  next_offset : Z;
  parent : option scope_t
}.

#[local] Set Elimination Schemes.

(** The table.  [current_scope] holds the whole chain of open scopes; the
    [global_scope] pointer of the C structure designates the last scope of
    that chain, [global_scope] below. *)
Record symbol_table_t : Set := mk_symbol_table {
  current_scope : scope_t;
  scope_level : Z;
  st_had_error : bool;
  st_error_msg : string
}.

Fixpoint scope_root (s : scope_t) : scope_t :=
  match parent s with
  | None => s
  | Some p => scope_root p
  end.

Definition global_scope (table : symbol_table_t) : scope_t :=
  scope_root (current_scope table).

(** ** symbol_table.c *)

Definition HASH_TABLE_SIZE : Z := 128.

(** [int c = *str++] with [char] signed. *)
Definition char_to_int (c : ascii) : Z :=
  if char_code c <? 128 then char_code c else char_code c - 256.

Fixpoint hash_loop (str : string) (h : Z) : Z :=
  match str with
  | EmptyString => h
  | String c rest =>
      hash_loop rest
        (wrap_uint (wrap_uint (wrap_uint (Z.shiftl h 5) + h) + char_to_int c))
  end.

Definition hash (str : string) : Z := hash_loop str 5381 mod HASH_TABLE_SIZE.

Definition scope_create (parent : option scope_t) (level : Z) : scope_t :=
  mk_scope level (replicate (Z.to_nat HASH_TABLE_SIZE) []) 0 0 parent.

Definition symtab_create : symbol_table_t :=
  mk_symbol_table (scope_create None 0) 0 false EmptyString.

Definition symtab_enter_scope (table : symbol_table_t) : symbol_table_t :=
  let level := scope_level table + 1 in
  let new_scope := scope_create (Some (current_scope table)) level in
  mk_symbol_table new_scope level (st_had_error table) (st_error_msg table).

(** [current_scope == global_scope] holds exactly when the current scope
    has no parent ([scope_is_global_iff] below). *)
Definition symtab_exit_scope (table : symbol_table_t) : symbol_table_t :=
  match parent (current_scope table) with
  | None => table
  | Some p =>
      mk_symbol_table p (scope_level table - 1)
                      (st_had_error table) (st_error_msg table)
  end.

(** [scope->symbols[h]]: the chain of bucket [h]. *)
Definition bucket (s : scope_t) (h : Z) : list symbol_t :=
  default [] (symbols s !! Z.to_nat h).

(** The walk along [next] until [strcmp] answers 0. *)
Fixpoint chain_find (chain : list symbol_t) (name : string) : option symbol_t :=
  match chain with
  | [] => None
  | sym :: next =>
      if String.eqb (sym_name sym) name then Some sym
      else chain_find next name
  end.

Fixpoint scope_lookup (s : scope_t) (h : Z) (name : string) : option symbol_t :=
  match chain_find (bucket s h) name with
  | Some sym => Some sym
  | None =>
      match parent s with
      | None => None
      | Some p => scope_lookup p h name
      end
  end.

Definition symtab_lookup (table : symbol_table_t) (name : string)
    : option symbol_t :=
  scope_lookup (current_scope table) (hash name) name.

Definition symtab_lookup_current_scope (table : symbol_table_t) (name : string)
    : option symbol_t :=
  chain_find (bucket (current_scope table) (hash name)) name.

Definition symtab_exists_current_scope (table : symbol_table_t) (name : string)
    : bool :=
  match symtab_lookup_current_scope table name with
  | Some _ => true
  | None => false
  end.

Definition is_variable_or_parameter (kind : symbol_kind_t) : bool :=
  match kind with
  | SYM_VARIABLE | SYM_PARAMETER => true
  | _ => false
  end.

(** [symtab_insert] returns the table it leaves behind and the new symbol,
    or [None] for the NULL of a redeclaration. *)
Definition symtab_insert (table : symbol_table_t) (name : string)
    (kind : symbol_kind_t) (type : option type_info_t)
    : symbol_table_t * option symbol_t :=
  if symtab_exists_current_scope table name then
    (mk_symbol_table (current_scope table) (scope_level table) true
       (str_take 511
          ("Symbol '" +:+ name +:+ "' already declared in current scope")),
     None)
  else
    let cur := current_scope table in
    let symbol :=
      mk_symbol (str_take (Z.to_nat (MAX_TOKEN_LEN - 1)) name) kind type
                (scope_level table) (next_offset cur) false false None in
    let next_offset' :=
      if is_variable_or_parameter kind
      then to_int32 (next_offset cur + type_size type)
      else next_offset cur in
    let h := hash name in
    let cur' :=
      mk_scope (scope_level_of cur)
               (<[Z.to_nat h := symbol :: bucket cur h]> (symbols cur))
               (symbol_count cur + 1) next_offset' (parent cur) in
    (mk_symbol_table cur' (scope_level table) (st_had_error table)
                     (st_error_msg table),
     Some symbol).

Definition symtab_error (table : symbol_table_t) (message : string)
    : symbol_table_t :=
  mk_symbol_table (current_scope table) (scope_level table) true
                  (str_take 511 message).

Definition symtab_had_error (table : symbol_table_t) : bool := st_had_error table.

(** ** codegen.h *)

Inductive opcode_t : Set :=
  | OP_PUSH | OP_POP | OP_DUP | OP_SWAP
  | OP_ADD | OP_SUB | OP_MUL | OP_DIV | OP_MOD | OP_NEG
  | OP_AND | OP_OR | OP_XOR | OP_NOT | OP_SHL | OP_SHR
  | OP_LAND | OP_LOR | OP_LNOT
  | OP_EQ | OP_NE | OP_LT | OP_LE | OP_GT | OP_GE
  | OP_LOAD | OP_STORE | OP_LOADL | OP_STOREL | OP_LOADG | OP_STOREG | OP_ADDR
  | OP_JMP | OP_JZ | OP_JNZ | OP_CALL | OP_RET
  | OP_CREATE | OP_RESUME | OP_SUSPEND | OP_KILL | OP_SLEEP | OP_YIELD
  | OP_WAIT | OP_SIGNAL | OP_GETPID
  | OP_NOP | OP_HALT.

(** An instruction.  [label] and [comment] stand for the arrays
    [char label[64]] and [char comment[128]].  [codegen_emit] ends both at
    byte 0; the only other write is the [strncpy] of [codegen_emit_label],
    which fills bytes 0 to 62 of [label] and never byte 63.  The [label]
    of the model is what bytes 0 to 62 hold before their first NUL: a
    [label] of fewer than 63 characters is a string that the code has
    terminated, and a [label] of 63 characters is an array in which the
    code has written no terminator.  Byte 63, which [getmem] leaves as it
    finds it and no function of codegen.c writes, is not part of the model,
    and nothing is stated of it. *)
Record instruction_t : Set := mk_instruction {
  opcode : opcode_t;
  operand : Z;
  label : string;
  comment : string
}.

(** The code buffer.  [instructions] lists the [count] slots in use, so
    [count] is its length; [capacity] follows the doubling of the array. *)
Record code_buffer_t : Set := mk_code_buffer {
  instructions : list instruction_t;
  capacity : Z;
  label_counter : Z
}.

Definition count (buf : code_buffer_t) : Z := Z.of_nat (length (instructions buf)).

Record codegen_t : Set := mk_codegen {
  code : code_buffer_t;
  symtab : symbol_table_t;
  loop_break_label : Z;
  loop_continue_label : Z;
  had_error : bool;
  error_msg : string
}.

(** ** codegen.c *)

Definition INITIAL_CODE_CAPACITY : Z := 1024.

Definition code_buffer_create : code_buffer_t :=
  mk_code_buffer [] INITIAL_CODE_CAPACITY 0.

Definition codegen_create (symtab : symbol_table_t) : codegen_t :=
  mk_codegen code_buffer_create symtab (-1) (-1) false EmptyString.

Definition set_code (gen : codegen_t) (buf : code_buffer_t) : codegen_t :=
  mk_codegen buf (symtab gen) (loop_break_label gen) (loop_continue_label gen)
             (had_error gen) (error_msg gen).

Definition set_loop_break_label (gen : codegen_t) (l : Z) : codegen_t :=
  mk_codegen (code gen) (symtab gen) l (loop_continue_label gen)
             (had_error gen) (error_msg gen).

Definition set_loop_continue_label (gen : codegen_t) (l : Z) : codegen_t :=
  mk_codegen (code gen) (symtab gen) (loop_break_label gen) l
             (had_error gen) (error_msg gen).

Definition codegen_error (gen : codegen_t) (message : string) : codegen_t :=
  mk_codegen (code gen) (symtab gen) (loop_break_label gen)
             (loop_continue_label gen) true (str_take 511 message).

Definition codegen_had_error (gen : codegen_t) : bool := had_error gen.

Definition codegen_emit (gen : codegen_t) (op : opcode_t) (arg : Z) : codegen_t :=
  let buf := code gen in
  let capacity' :=
    if count buf >=? capacity buf then capacity buf * 2 else capacity buf in
  set_code gen
    (mk_code_buffer
       (instructions buf ++ [mk_instruction op arg EmptyString EmptyString])
       capacity' (label_counter buf)).

Definition set_label (i : instruction_t) (text : string) : instruction_t :=
  mk_instruction (opcode i) (operand i) text (comment i).

Definition set_operand (i : instruction_t) (target : Z) : instruction_t :=
  mk_instruction (opcode i) target (label i) (comment i).

(** [codegen_emit_label]: [strncpy (label, text, 63)] on the slot just
    emitted.  Bytes 0 to 62 receive the first 63 characters of [text],
    followed by NULs when [text] is shorter; no terminator is written when
    it is not. *)
Definition codegen_emit_label (gen : codegen_t) (text : string) : codegen_t :=
  let gen := codegen_emit gen OP_NOP 0 in
  let buf := code gen in
  if count buf >? 0 then
    set_code gen
      (mk_code_buffer
         (alter (fun i => set_label i (str_take 63 text))
                (Z.to_nat (count buf - 1)) (instructions buf))
         (capacity buf) (label_counter buf))
  else gen.

Definition codegen_new_label (gen : codegen_t) : Z * codegen_t :=
  let buf := code gen in
  (label_counter buf,
   set_code gen
     (mk_code_buffer (instructions buf) (capacity buf) (label_counter buf + 1))).

Definition codegen_patch_jump (gen : codegen_t) (instruction_index target : Z)
    : codegen_t :=
  let buf := code gen in
  if (instruction_index >=? 0) && (instruction_index <? count buf) then
    set_code gen
      (mk_code_buffer
         (alter (fun i => set_operand i target)
                (Z.to_nat instruction_index) (instructions buf))
         (capacity buf) (label_counter buf))
  else gen.

(** [f(gen, node)] for a pointer that may be NULL: the generators return at
    once on NULL. *)
Definition on_node (f : ast_node_t -> codegen_t -> option codegen_t)
    (node : option ast_node_t) (gen : codegen_t) : option codegen_t :=
  match node with
  | None => Some gen
  | Some n => f n gen
  end.

(** [for (i = 0; i < node->child_count; i++) f(gen, node->children[i]);] *)
Definition for_children (f : ast_node_t -> codegen_t -> option codegen_t)
    : list ast_node_t -> codegen_t -> option codegen_t :=
  fix go (nodes : list ast_node_t) (gen : codegen_t) : option codegen_t :=
    match nodes with
    | [] => Some gen
    | n :: rest => gen ← f n gen; go rest gen
    end.

Definition binary_opcode (op : string) : option opcode_t :=
  if String.eqb op "+" then Some OP_ADD
  else if String.eqb op "-" then Some OP_SUB
  else if String.eqb op "*" then Some OP_MUL
  else if String.eqb op "/" then Some OP_DIV
  else if String.eqb op "%" then Some OP_MOD
  else if String.eqb op "&" then Some OP_AND
  else if String.eqb op "|" then Some OP_OR
  else if String.eqb op "^" then Some OP_XOR
  else if String.eqb op "<<" then Some OP_SHL
  else if String.eqb op ">>" then Some OP_SHR
  else if String.eqb op "==" then Some OP_EQ
  else if String.eqb op "!=" then Some OP_NE
  else if String.eqb op "<" then Some OP_LT
  else if String.eqb op "<=" then Some OP_LE
  else if String.eqb op ">" then Some OP_GT
  else if String.eqb op ">=" then Some OP_GE
  else if String.eqb op "&&" then Some OP_LAND
  else if String.eqb op "||" then Some OP_LOR
  else None.

Definition unary_opcode (op : string) : option opcode_t :=
  if String.eqb op "-" then Some OP_NEG
  else if String.eqb op "!" then Some OP_LNOT
  else if String.eqb op "~" then Some OP_NOT
  else None.

Definition emit_opt (gen : codegen_t) (op : option opcode_t) : codegen_t :=
  match op with
  | Some o => codegen_emit gen o 0
  | None => gen
  end.

(** The generators answer [None] where the C code dereferences a NULL
    [node->left] (the [->name] of an assignment or a call without a left
    child) and [Some gen] with the generator they leave otherwise. *)
Fixpoint codegen_expression (node : ast_node_t) (gen : codegen_t) {struct node}
    : option codegen_t :=
  match node_type node with
  | NODE_NUMBER =>
      Some (codegen_emit gen OP_PUSH (to_int32 (value_int_val (node_value_of node))))
  | NODE_IDENTIFIER =>
      match symtab_lookup (symtab gen) (node_name node) with
      | None => Some (codegen_error gen "Undefined variable")
      | Some sym =>
          if sym_scope_level sym =? 0
          then Some (codegen_emit gen OP_LOADG (sym_offset sym))
          else Some (codegen_emit gen OP_LOADL (sym_offset sym))
      end
  | NODE_BINARY_OP =>
      gen ← on_node codegen_expression (node_left node) gen;
      gen ← on_node codegen_expression (node_right node) gen;
      Some (emit_opt gen (binary_opcode (node_op node)))
  | NODE_UNARY_OP =>
      gen ← on_node codegen_expression (node_left node) gen;
      Some (emit_opt gen (unary_opcode (node_op node)))
  | NODE_ASSIGN =>
      target ← node_left node;
      match symtab_lookup (symtab gen) (node_name target) with
      | None => Some (codegen_error gen "Undefined variable")
      | Some sym =>
          gen ← on_node codegen_expression (node_right node) gen;
          let gen := codegen_emit gen OP_DUP 0 in
          if sym_scope_level sym =? 0
          then Some (codegen_emit gen OP_STOREG (sym_offset sym))
          else Some (codegen_emit gen OP_STOREL (sym_offset sym))
      end
  | NODE_CALL =>
      gen ← for_children codegen_expression (children node) gen;
      callee ← node_left node;
      match symtab_lookup (symtab gen) (node_name callee) with
      | None => Some (codegen_error gen "Undefined function")
      | Some sym => Some (codegen_emit gen OP_CALL (sym_offset sym))
      end
  | NODE_GETPID => Some (codegen_emit gen OP_GETPID 0)
  | _ => Some gen
  end.

Definition codegen_expression_then (node : option ast_node_t) (op : opcode_t)
    (gen : codegen_t) : option codegen_t :=
  gen ← on_node codegen_expression node gen;
  Some (codegen_emit gen op 0).

Fixpoint codegen_statement (node : ast_node_t) (gen : codegen_t) {struct node}
    : option codegen_t :=
  match node_type node with
  | NODE_EXPR_STMT => codegen_expression_then (node_left node) OP_POP gen
  | NODE_RETURN =>
      gen ←
        match node_left node with
        | Some value => codegen_expression value gen
        | None => Some (codegen_emit gen OP_PUSH 0)
        end;
      Some (codegen_emit gen OP_RET 0)
  | NODE_IF =>
      let '(else_label, gen) := codegen_new_label gen in
      let '(end_label, gen) := codegen_new_label gen in
      gen ← on_node codegen_expression (node_left node) gen;
      let jz_index := count (code gen) in
      let gen := codegen_emit gen OP_JZ 0 in
      gen ← on_node codegen_statement (node_right node) gen;
      match node_extra node with
      | Some else_branch =>
          let jmp_index := count (code gen) in
          let gen := codegen_emit gen OP_JMP 0 in
          let gen := codegen_patch_jump gen jz_index (count (code gen)) in
          gen ← codegen_statement else_branch gen;
          Some (codegen_patch_jump gen jmp_index (count (code gen)))
      | None =>
          Some (codegen_patch_jump gen jz_index (count (code gen)))
      end
  | NODE_WHILE =>
      let loop_start := count (code gen) in
      let old_break := loop_break_label gen in
      let old_continue := loop_continue_label gen in
      let gen := set_loop_continue_label gen loop_start in
      gen ← on_node codegen_expression (node_left node) gen;
      let jz_index := count (code gen) in
      let gen := codegen_emit gen OP_JZ 0 in
      gen ← on_node codegen_statement (node_right node) gen;
      let gen := codegen_emit gen OP_JMP loop_start in
      let gen := codegen_patch_jump gen jz_index (count (code gen)) in
      let gen := set_loop_break_label gen old_break in
      Some (set_loop_continue_label gen old_continue)
  | NODE_FOR =>
      let old_break := loop_break_label gen in
      let old_continue := loop_continue_label gen in
      gen ←
        match node_left node with
        | Some init =>
            gen ← codegen_expression init gen;
            Some (codegen_emit gen OP_POP 0)
        | None => Some gen
        end;
      let loop_start := count (code gen) in
      gen ←
        match node_right node with
        | Some cond =>
            gen ← codegen_expression cond gen;
            let jz_index := count (code gen) in
            let gen := codegen_emit gen OP_JZ 0 in
            Some (set_loop_break_label gen jz_index)
        | None => Some gen
        end;
      gen ←
        match children node with
        | body :: _ => codegen_statement body gen
        | [] => Some gen
        end;
      let continue_pos := count (code gen) in
      let gen := set_loop_continue_label gen continue_pos in
      gen ←
        match node_extra node with
        | Some step =>
            gen ← codegen_expression step gen;
            Some (codegen_emit gen OP_POP 0)
        | None => Some gen
        end;
      let gen := codegen_emit gen OP_JMP loop_start in
      let gen :=
        match node_right node with
        | Some _ =>
            if loop_break_label gen >=? 0
            then codegen_patch_jump gen (loop_break_label gen) (count (code gen))
            else gen
        | None => gen
        end in
      let gen := set_loop_break_label gen old_break in
      Some (set_loop_continue_label gen old_continue)
  | NODE_BREAK =>
      if loop_break_label gen >=? 0
      then Some (codegen_emit gen OP_JMP (loop_break_label gen))
      else Some gen
  | NODE_CONTINUE =>
      if loop_continue_label gen >=? 0
      then Some (codegen_emit gen OP_JMP (loop_continue_label gen))
      else Some gen
  | NODE_BLOCK => for_children codegen_statement (children node) gen
  | NODE_CREATE =>
      gen ← for_children codegen_expression (children node) gen;
      Some (codegen_emit gen OP_CREATE (child_count node))
  | NODE_RESUME => codegen_expression_then (node_left node) OP_RESUME gen
  | NODE_SUSPEND => codegen_expression_then (node_left node) OP_SUSPEND gen
  | NODE_KILL => codegen_expression_then (node_left node) OP_KILL gen
  | NODE_SLEEP => codegen_expression_then (node_left node) OP_SLEEP gen
  | NODE_YIELD => Some (codegen_emit gen OP_YIELD 0)
  | NODE_WAIT => codegen_expression_then (node_left node) OP_WAIT gen
  | NODE_SIGNAL => codegen_expression_then (node_left node) OP_SIGNAL gen
  | _ => Some gen
  end.

Definition codegen_function (node : ast_node_t) (gen : codegen_t)
    : option codegen_t :=
  let text := str_take 63 ("func_" +:+ node_name node) in
  let gen := codegen_emit_label gen text in
  gen ← on_node codegen_statement (node_left node) gen;
  let gen := codegen_emit gen OP_PUSH 0 in
  Some (codegen_emit gen OP_RET 0).

Definition is_function_or_process (type : ast_node_type_t) : bool :=
  match type with
  | NODE_FUNCTION | NODE_PROCESS => true
  | _ => false
  end.

Definition codegen_program_child (child : ast_node_t) (gen : codegen_t)
    : option codegen_t :=
  if is_function_or_process (node_type child) then codegen_function child gen
  else Some gen.

Definition codegen_program (node : ast_node_t) (gen : codegen_t)
    : option codegen_t :=
  match node_type node with
  | NODE_PROGRAM =>
      gen ← for_children codegen_program_child (children node) gen;
      Some (codegen_emit gen OP_HALT 0)
  | _ => Some gen
  end.

(** The generator left behind and the value returned, [!gen->had_error]. *)
Definition codegen_generate (gen : codegen_t) (ast : ast_node_t)
    : option (codegen_t * bool) :=
  gen ← codegen_program ast gen;
  Some (gen, negb (had_error gen)).

Definition opcode_to_string (op : opcode_t) : string :=
  match op with
  | OP_PUSH => "PUSH" | OP_POP => "POP" | OP_DUP => "DUP"
  | OP_ADD => "ADD" | OP_SUB => "SUB" | OP_MUL => "MUL" | OP_DIV => "DIV"
  | OP_MOD => "MOD" | OP_NEG => "NEG"
  | OP_AND => "AND" | OP_OR => "OR" | OP_XOR => "XOR" | OP_NOT => "NOT"
  | OP_SHL => "SHL" | OP_SHR => "SHR"
  | OP_LAND => "LAND" | OP_LOR => "LOR" | OP_LNOT => "LNOT"
  | OP_EQ => "EQ" | OP_NE => "NE" | OP_LT => "LT" | OP_LE => "LE"
  | OP_GT => "GT" | OP_GE => "GE"
  | OP_LOAD => "LOAD" | OP_STORE => "STORE" | OP_LOADL => "LOADL"
  | OP_STOREL => "STOREL" | OP_LOADG => "LOADG" | OP_STOREG => "STOREG"
  | OP_JMP => "JMP" | OP_JZ => "JZ" | OP_JNZ => "JNZ" | OP_CALL => "CALL"
  | OP_RET => "RET"
  | OP_CREATE => "CREATE" | OP_RESUME => "RESUME" | OP_SUSPEND => "SUSPEND"
  | OP_KILL => "KILL" | OP_SLEEP => "SLEEP" | OP_YIELD => "YIELD"
  | OP_WAIT => "WAIT" | OP_SIGNAL => "SIGNAL" | OP_GETPID => "GETPID"
  | OP_NOP => "NOP" | OP_HALT => "HALT"
  | _ => "UNKNOWN"
  end.

(** ** compiler.c

    The pipeline under the options that [compiler_create] sets (every dump
    switched off); the dumps and the statistics only print.  [c_statics]
    are the statics of lexer.c as the compiler finds and leaves them. *)

Record compiler_t : Set := mk_compiler {
  c_source : string;
  c_filename : string;
  c_statics : lexer_statics;
  c_lexer : option lexer_t;
  c_parser : option parser_t;
  c_ast : option ast_node_t;
  c_symtab : option symbol_table_t;
  c_codegen : option codegen_t;
  c_had_error : bool;
  c_error_count : Z;
  c_error_msg : string
}.

Definition compiler_create (source filename : string) (statics : lexer_statics)
    : compiler_t :=
  mk_compiler source filename statics None None None None None
              false 0 EmptyString.

Definition compiler_error (c : compiler_t) (message : string) : compiler_t :=
  mk_compiler (c_source c) (c_filename c) (c_statics c) (c_lexer c)
              (c_parser c) (c_ast c) (c_symtab c) (c_codegen c)
              true (c_error_count c + 1) (str_take 511 message).

Definition compiler_lex (c : compiler_t) : compiler_t * bool :=
  let lexer := lexer_init_ex (c_source c) (c_filename c) in
  let c := mk_compiler (c_source c) (c_filename c) (c_statics c) (Some lexer)
                       (c_parser c) (c_ast c) (c_symtab c) (c_codegen c)
                       (c_had_error c) (c_error_count c) (c_error_msg c) in
  if lexer_has_error lexer
  then (compiler_error c (lexer_get_error lexer), false)
  else (c, true).

Definition compiler_parse (fuel : nat) (c : compiler_t)
    : option (compiler_t * bool) :=
  match c_lexer c with
  | None => Some (c, false)
  | Some lexer =>
      let parser := parser_init fresh_parser lexer (c_statics c) in
      '(ast, parser) ← parser_parse fuel parser;
      let c := mk_compiler (c_source c) (c_filename c) (p_statics parser)
                 (Some (p_lexer parser)) (Some parser) (Some ast)
                 (c_symtab c) (c_codegen c)
                 (c_had_error c) (c_error_count c) (c_error_msg c) in
      if parser_had_error parser then
        if negb (String.eqb (p_error_msg parser) EmptyString)
        then Some (compiler_error c (p_error_msg parser), false)
        else Some (compiler_error c "Parsing failed", false)
      else Some (c, true)
  end.

(** The body of the loop of [compiler_analyze] for one top-level child. *)
Definition analyze_child (table : symbol_table_t) (child : ast_node_t)
    : symbol_table_t :=
  match node_type child with
  | NODE_FUNCTION =>
      (symtab_insert table (node_name child) SYM_FUNCTION (data_type child)).1
  | NODE_PROCESS =>
      (symtab_insert table (node_name child) SYM_PROCESS (data_type child)).1
  | NODE_VAR_DECL =>
      (symtab_insert table (node_name child) SYM_VARIABLE (data_type child)).1
  | _ => table
  end.

Definition compiler_analyze (c : compiler_t) : compiler_t * bool :=
  match c_ast c with
  | None => (c, false)
  | Some ast =>
      let table := symtab_create in
      let table :=
        match node_type ast with
        | NODE_PROGRAM => fold_left analyze_child (children ast) table
        | _ => table
        end in
      let c := mk_compiler (c_source c) (c_filename c) (c_statics c)
                 (c_lexer c) (c_parser c) (c_ast c) (Some table) (c_codegen c)
                 (c_had_error c) (c_error_count c) (c_error_msg c) in
      if symtab_had_error table
      then (compiler_error c "Semantic analysis failed", false)
      else (c, true)
  end.

Definition compiler_generate (c : compiler_t) : option (compiler_t * bool) :=
  match c_ast c, c_symtab c with
  | Some ast, Some table =>
      let gen := codegen_create table in
      '(gen, ok) ← codegen_generate gen ast;
      let c := mk_compiler (c_source c) (c_filename c) (c_statics c)
                 (c_lexer c) (c_parser c) (c_ast c) (c_symtab c) (Some gen)
                 (c_had_error c) (c_error_count c) (c_error_msg c) in
      if negb ok then
        if negb (String.eqb (error_msg gen) EmptyString)
        then Some (compiler_error c (error_msg gen), false)
        else Some (compiler_error c "Code generation failed", false)
      else Some (c, true)
  | _, _ => Some (c, false)
  end.

(** [None]: the parser did not come back within [fuel] calls, or the
    generator dereferenced NULL. *)
Definition compiler_compile (fuel : nat) (c : compiler_t)
    : option (compiler_t * bool) :=
  let '(c, ok) := compiler_lex c in
  if negb ok then Some (c, false) else
  '(c, ok) ← compiler_parse fuel c;
  if negb ok then Some (c, false) else
  let '(c, ok) := compiler_analyze c in
  if negb ok then Some (c, false) else
  '(c, ok) ← compiler_generate c;
  if negb ok then Some (c, false) else
  Some (c, true).

(** [compile]: the code buffer of a successful compilation, NULL
    otherwise. *)
Definition compile (fuel : nat) (source : string) (statics : lexer_statics)
    : option (option code_buffer_t) :=
  match compiler_compile fuel (compiler_create source "<stdin>" statics) with
  | None => None
  | Some (c, true) => Some (option_map code (c_codegen c))
  | Some (c, false) => Some None
  end.

(** What [compiler_write_output] prints for one instruction, the label
    line apart: mnemonic and operand. *)
Definition listing (buf : code_buffer_t) : list (opcode_t * Z) :=
  map (fun i => (opcode i, operand i)) (instructions buf).


(** * Vocabulary of the properties *)

(** ** Symbol table *)

Fixpoint scope_depth (s : scope_t) : nat :=
  match parent s with
  | None => 0%nat
  | Some p => S (scope_depth p)
  end.

(** A symbol called [name] sits in some bucket of the scope. *)
Definition declared_in (s : scope_t) (name : string) : Prop :=
  exists chain sym, chain ∈ symbols s /\ sym ∈ chain /\ sym_name sym = name.

(** A symbol called [name] sits in some bucket of a proper ancestor. *)
Fixpoint declared_in_ancestor (s : scope_t) (name : string) : Prop :=
  match parent s with
  | None => False
  | Some p => declared_in p name \/ declared_in_ancestor p name
  end.

(** The representation invariant of one scope: [HASH_TABLE_SIZE] buckets,
    and every symbol in the bucket of its own name. *)
Fixpoint buckets_wfb (i : Z) (buckets : list (list symbol_t)) : bool :=
  match buckets with
  | [] => true
  | chain :: rest =>
      forallb (fun sym => hash (sym_name sym) =? i) chain
      && buckets_wfb (i + 1) rest
  end.

Definition scope_wfb (s : scope_t) : bool :=
  (Z.of_nat (length (symbols s)) =? HASH_TABLE_SIZE)
  && buckets_wfb 0 (symbols s).

Definition scope_wf (s : scope_t) : Prop := scope_wfb s = true.

(** The invariant along the whole chain of open scopes. *)
Fixpoint chain_wf (s : scope_t) : Prop :=
  scope_wf s
  /\ match parent s with
     | None => True
     | Some p => chain_wf p
     end.

(** The tables that the operations of symbol_table.c build from names that
    fit the [name] field of a symbol. *)
Inductive built : symbol_table_t -> Prop :=
  | built_create : built symtab_create
  | built_enter_scope (table : symbol_table_t) :
      built table -> built (symtab_enter_scope table)
  | built_exit_scope (table : symbol_table_t) :
      built table -> built (symtab_exit_scope table)
  | built_insert (table : symbol_table_t) (name : string)
      (kind : symbol_kind_t) (type : option type_info_t) :
      built table ->
      (String.length name < Z.to_nat MAX_TOKEN_LEN)%nat ->
      built (symtab_insert table name kind type).1
  | built_error (table : symbol_table_t) (message : string) :
      built table -> built (symtab_error table message).

(** A name one character longer than the [name] field of a symbol
    holds. *)
Definition name_of_256 : string :=
  string_of_list_ascii (replicate 256 "a"%char).

Definition redeclaration_message (name : string) : string :=
  str_take 511 ("Symbol '" +:+ name +:+ "' already declared in current scope").

(** A property of every open scope, from the current one to the root. *)
Fixpoint chain_all (P : scope_t -> Prop) (s : scope_t) : Prop :=
  P s
  /\ match parent s with
     | None => True
     | Some p => chain_all P p
     end.

(** The symbols of a scope, bucket after bucket. *)
Definition scope_symbols (s : scope_t) : list symbol_t := concat (symbols s).

(** The storage that [symtab_insert] reserves for a symbol. *)
Definition storage_size (sym : symbol_t) : Z :=
  if is_variable_or_parameter (sym_kind sym) then type_size (sym_type sym)
  else 0.

Definition total_storage (syms : list symbol_t) : Z :=
  foldr (fun sym acc => storage_size sym + acc) 0 syms.

(** The counters of a scope agree with its contents; [next_offset] is the
    [int] that the additions of [symtab_insert] leave. *)
Definition scope_accounted (s : scope_t) : Prop :=
  symbol_count s = Z.of_nat (length (scope_symbols s))
  /\ next_offset s = to_int32 (total_storage (scope_symbols s)).

(** The level of a scope is its depth, and its symbols carry it. *)
Definition scope_levelled (s : scope_t) : Prop :=
  scope_level_of s = Z.of_nat (scope_depth s)
  /\ forall sym, sym ∈ scope_symbols s -> sym_scope_level sym = scope_level_of s.

(** A run of declarations, as a block makes them. *)
Definition symtab_insert_all
    (decls : list (string * symbol_kind_t * option type_info_t))
    (table : symbol_table_t) : symbol_table_t :=
  fold_left (fun t d => (symtab_insert t d.1.1 d.1.2 d.2).1) decls table.

(** [s'] is [s] or one of the scopes that enclose it. *)
Fixpoint scope_in_chain (s' s : scope_t) : Prop :=
  s' = s
  \/ match parent s with
     | None => False
     | Some p => scope_in_chain s' p
     end.

(** ** Lexer *)

Definition token_position (t : token_t) : string * Z * Z :=
  (tok_value t, tok_line t, tok_column t).

(** The names that [token_type_to_string] gives to classes of tokens, not
    to one spelling. *)
Definition token_class_names : list string :=
  ["EOF"; "ERROR"; "NUMBER"; "FLOAT"; "STRING"; "CHAR"; "IDENTIFIER";
   "UNKNOWN"].

Definition ident_start (c : ascii) : bool := isalpha c || char_is c "_".

Definition ident_char (c : ascii) : bool := isalnum c || char_is c "_".

Fixpoint string_forall (P : ascii -> bool) (s : string) : bool :=
  match s with
  | EmptyString => true
  | String c rest => P c && string_forall P rest
  end.

(** The lexer [k] characters further on the same line. *)
Definition advanced_by (l : lexer_t) (k : Z) : lexer_t :=
  mk_lexer (lx_source l) (lx_filename l) (lx_pos l + k) (lx_line l)
           (lx_column l + k) (lx_length l) (lx_has_error l) (lx_error_msg l).

(** ** Fuel of the lexer and parser loops *)

(** [l'] is [l] after reading on: same source, position not smaller. *)
Definition reads_on (l l' : lexer_t) : Prop :=
  lx_length l' = lx_length l /\ lx_pos l <= lx_pos l'.

(** Strict progress: same source, position greater. *)
Definition reads_further (l l' : lexer_t) : Prop :=
  lx_length l' = lx_length l /\ lx_pos l < lx_pos l'.

(** The lexer that [read_string_loop] leaves, on either exit. *)
Definition read_string_loop_lexer
    (r : (token_t * lexer_t) + (string * lexer_t)) : lexer_t :=
  match r with
  | inl (_, l) => l
  | inr (_, l) => l
  end.

(** What is left for the parser to take: the characters of the lexer and
    the token that was put back, if any. *)
Definition tokens_bound (p : parser_t) : nat :=
  (remaining (p_lexer p) + (if has_unget (p_statics p) then 1 else 0))%nat.

(** ** Parser and types *)

(** Where [parser_synchronize] stops. *)
Definition at_sync_point (p : parser_t) : Prop :=
  tok_type (p_current p) = TOKEN_EOF
  \/ tok_type (p_previous p) = TOKEN_SEMICOLON
  \/ is_sync_token (tok_type (p_current p)) = true.

(** The descriptors that the constructors of parser.c build: eight array
    sizes, of which [array_dims] are in use. *)
Definition type_wf (t : type_info_t) : Prop :=
  length (array_sizes t) = Z.to_nat MAX_ARRAY_DIMS
  /\ 0 <= array_dims t <= MAX_ARRAY_DIMS.

(** ** End-to-end scenarios *)

Definition src_if_else : string :=
  "void f(){ if (1) return 2; else return 3; }".

(** The listing that the scenario expects, with [JZ 5]. *)
Definition listing_if_else_expected : list (opcode_t * Z) :=
  [(OP_NOP, 0); (OP_PUSH, 1); (OP_JZ, 5); (OP_PUSH, 2); (OP_RET, 0);
   (OP_JMP, 8); (OP_PUSH, 3); (OP_RET, 0); (OP_PUSH, 0); (OP_RET, 0);
   (OP_HALT, 0)].

(** The listing that the generator emits, with [JZ 6]. *)
Definition listing_if_else : list (opcode_t * Z) :=
  [(OP_NOP, 0); (OP_PUSH, 1); (OP_JZ, 6); (OP_PUSH, 2); (OP_RET, 0);
   (OP_JMP, 8); (OP_PUSH, 3); (OP_RET, 0); (OP_PUSH, 0); (OP_RET, 0);
   (OP_HALT, 0)].

Definition src_two_functions : string := "void a(){} void b(){ a(); }".

Definition listing_two_functions : list (opcode_t * Z) :=
  [(OP_NOP, 0); (OP_PUSH, 0); (OP_RET, 0);
   (OP_NOP, 0); (OP_CALL, 0); (OP_POP, 0); (OP_PUSH, 0); (OP_RET, 0);
   (OP_HALT, 0)].

(** The offset that the symbol table built by [compiler_analyze] holds for
    a name. *)
Definition analysis_offset (c : compiler_t) (name : string) : option Z :=
  match c_symtab c with
  | Some table => option_map sym_offset (symtab_lookup table name)
  | None => None
  end.

Definition compiled_listing (c : compiler_t) : option (list (opcode_t * Z)) :=
  option_map (fun gen => listing (code gen)) (c_codegen c).

(** Offsets of [a] and [b] and the listing of a successful compilation of
    [src_two_functions]. *)
Definition two_functions_outcome (fuel : nat)
    : option (option Z * option Z * option (list (opcode_t * Z))) :=
  match compiler_compile fuel
          (compiler_create src_two_functions "<stdin>" statics_at_start) with
  | Some (c, true) =>
      Some (analysis_offset c "a", analysis_offset c "b", compiled_listing c)
  | _ => None
  end.

(** ** The analysis of the driver *)

(** The children of the program that [compiler_analyze] declares. *)
Definition is_global_declaration (type : ast_node_type_t) : bool :=
  match type with
  | NODE_FUNCTION | NODE_PROCESS | NODE_VAR_DECL => true
  | _ => false
  end.

Definition global_names (ast : ast_node_t) : list string :=
  map node_name
      (filter (fun c => is_global_declaration (node_type c) = true)
              (children ast)).

(** ** Code generator *)

Definition is_jump (op : opcode_t) : bool :=
  match op with
  | OP_JMP | OP_JZ | OP_JNZ => true
  | _ => false
  end.

(** A jump whose operand lies in [0, n]. *)
Definition jump_in_range (n : Z) (i : instruction_t) : Prop :=
  is_jump (opcode i) = true -> 0 <= operand i <= n.

(** The invariant of a generator at work: the operand of every jump
    emitted so far is at most the current count (the address of the next
    instruction), the break target designates an instruction already
    emitted and the continue target is at most the current count. *)
Definition gen_inv (gen : codegen_t) : Prop :=
  Forall (jump_in_range (count (code gen))) (instructions (code gen))
  /\ loop_break_label gen < count (code gen)
  /\ loop_continue_label gen <= count (code gen).

(** What a generator step leaves alone: the borrowed symbol table and the
    loop targets; the buffer only grows. *)
Definition same_context (gen gen' : codegen_t) : Prop :=
  symtab gen' = symtab gen
  /\ loop_break_label gen' = loop_break_label gen
  /\ loop_continue_label gen' = loop_continue_label gen
  /\ count (code gen) <= count (code gen').

Definition step_ok (gen gen' : codegen_t) : Prop :=
  gen_inv gen -> gen_inv gen' /\ same_context gen gen'.

(** [gen'] is a later state of the generator that was [gen]: it satisfies
    the invariant, borrows the same symbol table and its buffer is at
    least as long.  The loop targets may have moved. *)
Definition reached_from (gen gen' : codegen_t) : Prop :=
  gen_inv gen' /\ symtab gen' = symtab gen
  /\ count (code gen) <= count (code gen').

Definition steps_ok (f : codegen_t -> option codegen_t) : Prop :=
  forall gen gen', f gen = Some gen' -> step_ok gen gen'.

(** The tree that the scenario [void f(){ while (0) { yield; } }] stands
    for: a function [f] whose block holds a WHILE with the condition 0 and
    a block with one YIELD. *)
Definition node_number (n : Z) : ast_node_t :=
  set_data_type (set_value (ast_create_node NODE_NUMBER) (ValInt n))
                (Some (type_create TYPE_INT)).

Definition ast_while_yield : ast_node_t :=
  let body := ast_add_child (ast_create_node NODE_BLOCK)
                            (Some (ast_create_node NODE_YIELD)) in
  let loop := set_right (set_left (ast_create_node NODE_WHILE)
                                  (Some (node_number 0)))
                        (Some body) in
  let block := ast_add_child (ast_create_node NODE_BLOCK) (Some loop) in
  let f := set_left (set_name (set_data_type (ast_create_node NODE_FUNCTION)
                                             (Some (type_create TYPE_VOID)))
                              "f")
                    (Some block) in
  ast_add_child (ast_create_node NODE_PROGRAM) (Some f).

Definition listing_while_yield : list (opcode_t * Z) :=
  [(OP_NOP, 0); (OP_PUSH, 0); (OP_JZ, 5); (OP_YIELD, 0); (OP_JMP, 1);
   (OP_PUSH, 0); (OP_RET, 0); (OP_HALT, 0)].

(** The stages behind the parser, on a given tree: [compiler_analyze]
    and [compiler_generate]. *)
Definition compile_tree (ast : ast_node_t) : option (compiler_t * bool) :=
  let c := mk_compiler EmptyString "<stdin>" statics_at_start None None
                       (Some ast) None None false 0 EmptyString in
  let '(c, ok) := compiler_analyze c in
  if ok then compiler_generate c else Some (c, false).

(** Whether bytes 0 to 62 of the [label] array hold a NUL, so that the
    array is a terminated string whatever byte 63 holds. *)
Definition label_terminated (i : instruction_t) : bool :=
  (String.length (label i) <? 63)%nat.

(** The opcodes that the generators of expressions, statements and
    functions emit. *)
Definition statement_opcode (op : opcode_t) : bool :=
  match op with
  | OP_SWAP | OP_LOAD | OP_STORE | OP_ADDR | OP_JNZ | OP_HALT => false
  | _ => true
  end.

Definition statement_instruction (i : instruction_t) : Prop :=
  statement_opcode (opcode i) = true.

(** The buffer after [codegen_emit]'s doubling: the instructions fit, the
    capacity is the initial one doubled some number of times, and it has
    been doubled only when the buffer was full. *)
Definition buffer_fits (buf : code_buffer_t) : Prop :=
  count buf <= capacity buf
  /\ (capacity buf = INITIAL_CODE_CAPACITY \/ capacity buf < 2 * count buf)
  /\ exists k : nat, capacity buf = INITIAL_CODE_CAPACITY * 2 ^ Z.of_nat k.

Definition loop_labels (gen : codegen_t) : Z * Z :=
  (loop_break_label gen, loop_continue_label gen).

(** [gen] is a later state of the generator that was [gen0], in which the
    first [n] instructions are still those of [gen0]. *)
Definition extends (n : nat) (gen0 gen : codegen_t) : Prop :=
  (n <= length (instructions (code gen)))%nat
  /\ take n (instructions (code gen)) = take n (instructions (code gen0))
  /\ (Forall statement_instruction (drop n (instructions (code gen0))) ->
      Forall statement_instruction (drop n (instructions (code gen))))
  /\ symtab gen = symtab gen0
  /\ (had_error gen0 = true -> had_error gen = true)
  /\ (buffer_fits (code gen0) -> buffer_fits (code gen)).

(** A generator function that restores the loop targets and only adds to
    the state it is given. *)
Definition preserves (f : codegen_t -> option codegen_t) : Prop :=
  forall gen gen', f gen = Some gen' ->
  loop_labels gen' = loop_labels gen
  /\ forall n g0, extends n g0 gen -> extends n g0 gen'.

(** [while (0) yield;] and [while (0) break;] as trees. *)
Definition ast_loop (body : ast_node_type_t) : ast_node_t :=
  set_right (set_left (ast_create_node NODE_WHILE) (Some (node_number 0)))
            (Some (ast_create_node body)).

Definition src_while_yield : string := "void f(){ while (0) { yield; } }".

(** The states of the parser on [src_while_yield]: after [parser_init],
    with the current token [void] ... *)
Definition wy_start : parser_t :=
  Eval vm_compute in
    parser_init fresh_parser (lexer_init_ex src_while_yield "<stdin>")
                statics_at_start.

(** ... after the type specifier ... *)
Definition wy_type : type_info_t * parser_t :=
  Eval vm_compute in parse_type_specifier wy_start.

(** ... at the brace that opens the body of [f] ... *)
Definition wy_body : parser_t :=
  Eval vm_compute in
    consume (consume (consume wy_type.2 TOKEN_IDENTIFIER "Expected identifier")
               TOKEN_LPAREN "Expected '(' after function name")
            TOKEN_RPAREN "Expected ')' after parameters".

(** ... at [while], at its parenthesis and at its condition ... *)
Definition wy_while : parser_t :=
  Eval vm_compute in consume wy_body TOKEN_LBRACE "Expected '{'".

Definition wy_paren : parser_t :=
  Eval vm_compute in (match_ wy_while TOKEN_WHILE).2.

Definition wy_cond : parser_t :=
  Eval vm_compute in
    consume wy_paren TOKEN_LPAREN "Expected '(' after 'while'".

(** ... the condition and the state behind it ... *)
Definition wy_cond_result : option ast_node_t * parser_t :=
  Eval vm_compute in default (None, wy_cond) (parse_expression 40 wy_cond).

(** ... at the brace that opens the body of the loop, and at [yield] ... *)
Definition wy_inner : parser_t :=
  Eval vm_compute in
    consume wy_cond_result.2 TOKEN_RPAREN "Expected ')' after condition".

Definition wy_yield : parser_t :=
  Eval vm_compute in consume wy_inner TOKEN_LBRACE "Expected '{'".

(** ... the statement that [parse_statement] makes of [yield] and the
    state it leaves: still at [yield], with the error recorded ... *)
Definition wy_first : option ast_node_t * parser_t :=
  Eval vm_compute in default (None, wy_yield) (parse_statement 40 wy_yield).

Definition wy_stuck : parser_t := Eval vm_compute in wy_first.2.

(** ... and the statement that every further call makes there. *)
Definition wy_again : option ast_node_t * parser_t :=
  Eval vm_compute in default (None, wy_stuck) (parse_statement 40 wy_stuck).

(** * Proofs *)

(** ** Symbol table *)

Lemma scope_root_depth (s : scope_t) : scope_depth (scope_root s) = 0%nat.
Proof.
  revert s.
  fix IH 1.
  intros [lvl syms cnt off [p|]]; simpl.
  - apply IH.
  - reflexivity.
Qed.

(** The pointer test [current_scope == global_scope] of [symtab_exit_scope]
    is the test that the current scope has no parent. *)
Lemma scope_is_global_iff (s : scope_t) : scope_root s = s <-> parent s = None.
Proof.
  split.
  - intros Hroot.
    destruct (parent s) as [p|] eqn:Hp; [|reflexivity].
    pose proof (scope_root_depth s) as Hd.
    rewrite Hroot in Hd.
    destruct s as [lvl syms cnt off par]; simpl in *.
    rewrite Hp in Hd. discriminate.
  - intros Hp.
    destruct s as [lvl syms cnt off par]; simpl in *.
    now rewrite Hp.
Qed.

Lemma hash_range (name : string) : 0 <= hash name < HASH_TABLE_SIZE.
Proof. unfold hash. apply Z.mod_pos_bound. reflexivity. Qed.

Lemma chain_find_Some chain name sym :
  chain_find chain name = Some sym -> sym ∈ chain /\ sym_name sym = name.
Proof.
  induction chain as [|s chain IH]; simpl; [discriminate|].
  destruct (String.eqb (sym_name s) name) eqn:E.
  - intros [= <-]. split; [left|]. now apply String.eqb_eq.
  - intros H. destruct (IH H) as [Hin Hname]. split; [now right|assumption].
Qed.

Lemma chain_find_None chain name :
  chain_find chain name = None ->
  forall sym, sym ∈ chain -> sym_name sym <> name.
Proof.
  induction chain as [|s chain IH]; simpl; intros H sym Hin.
  - inversion Hin.
  - destruct (String.eqb (sym_name s) name) eqn:E; [discriminate|].
    apply String.eqb_neq in E.
    inversion Hin; subst; [assumption|]. now apply IH.
Qed.

Lemma buckets_wfb_spec (i : Z) (buckets : list (list symbol_t)) :
  buckets_wfb i buckets = true
  <-> forall (j : nat) chain sym,
        buckets !! j = Some chain -> sym ∈ chain ->
        hash (sym_name sym) = i + Z.of_nat j.
Proof.
  revert i. induction buckets as [|chain rest IH]; intros i; simpl.
  - split; [|reflexivity]. intros _ j chain sym Hj. destruct j; discriminate.
  - rewrite andb_true_iff, forallb_forall, IH. split.
    + intros [Hhead Hrest] j ch sym Hj Hin.
      destruct j as [|j]; simpl in Hj.
      * injection Hj as <-. apply list_elem_of_In in Hin.
        specialize (Hhead sym Hin). lia.
      * specialize (Hrest j ch sym Hj Hin). lia.
    + intros H. split.
      * intros sym Hin. apply list_elem_of_In in Hin.
        specialize (H 0%nat chain sym eq_refl Hin). lia.
      * intros j ch sym Hj Hin.
        specialize (H (S j) ch sym Hj Hin). lia.
Qed.

Lemma scope_wf_spec (s : scope_t) :
  scope_wf s
  <-> length (symbols s) = Z.to_nat HASH_TABLE_SIZE
      /\ forall (i : nat) chain sym,
           symbols s !! i = Some chain -> sym ∈ chain ->
           hash (sym_name sym) = Z.of_nat i.
Proof.
  unfold scope_wf, scope_wfb.
  rewrite andb_true_iff, buckets_wfb_spec, Z.eqb_eq.
  unfold HASH_TABLE_SIZE. split; (intros [Hlen H]; split; [lia|exact H]).
Qed.

Lemma exists_current_scope_iff (table : symbol_table_t) (name : string) :
  scope_wf (current_scope table) ->
  symtab_exists_current_scope table name = true
  <-> declared_in (current_scope table) name.
Proof.
  intros Hwf. apply scope_wf_spec in Hwf as [Hlen Hbuckets].
  unfold symtab_exists_current_scope, symtab_lookup_current_scope, bucket.
  pose proof (hash_range name) as Hh.
  split.
  - destruct (symbols (current_scope table) !! Z.to_nat (hash name))
      as [chain|] eqn:Hchain; simpl; [|discriminate].
    destruct (chain_find chain name) as [sym|] eqn:Hfind; [|discriminate].
    intros _. apply chain_find_Some in Hfind as [Hin Hname].
    exists chain, sym. split; [|now split].
    apply list_elem_of_lookup. now exists (Z.to_nat (hash name)).
  - intros (chain & sym & Hchain & Hin & Hname).
    apply list_elem_of_lookup in Hchain as [i Hi].
    pose proof (Hbuckets i chain sym Hi Hin) as Hhash.
    rewrite Hname in Hhash. rewrite Hhash, Nat2Z.id, Hi. simpl.
    destruct (chain_find chain name) as [found|] eqn:Hfind; [reflexivity|].
    exfalso. exact (chain_find_None _ _ Hfind sym Hin Hname).
Qed.

Lemma insert_result_None (table : symbol_table_t) name kind type :
  (symtab_insert table name kind type).2 = None
  <-> symtab_exists_current_scope table name = true.
Proof.
  unfold symtab_insert.
  destruct (symtab_exists_current_scope table name); simpl; split;
    congruence.
Qed.

Lemma str_take_all (n : nat) (s : string) :
  (String.length s <= n)%nat -> str_take n s = s.
Proof.
  unfold str_take. revert n.
  induction s as [|c s IH]; intros n Hn; destruct n as [|n]; simpl in *;
    try reflexivity; try lia.
  f_equal. apply IH. lia.
Qed.

(** The invariant holds for the scopes that [symtab_create] and
    [symtab_enter_scope] make ... *)
Lemma scope_create_wf (p : option scope_t) (level : Z) :
  scope_wf (scope_create p level).
Proof. reflexivity. Qed.

(** ... and [symtab_insert] keeps it for every name that fits the [name]
    field of a symbol, as the names of tokens and nodes do. *)
Lemma symtab_insert_wf (table : symbol_table_t) name kind type :
  (String.length name < Z.to_nat MAX_TOKEN_LEN)%nat ->
  scope_wf (current_scope table) ->
  scope_wf (current_scope (symtab_insert table name kind type).1).
Proof.
  intros Hname Hwf. unfold symtab_insert.
  destruct (symtab_exists_current_scope table name); simpl; [exact Hwf|].
  apply scope_wf_spec in Hwf as [Hlen Hb]. apply scope_wf_spec. simpl.
  split; [now rewrite length_insert|].
  intros i chain sym Hi Hin.
  destruct (decide (i = Z.to_nat (hash name))) as [->|Hne].
  - rewrite list_lookup_insert_eq in Hi.
    2:{ pose proof (hash_range name). rewrite Hlen.
        unfold HASH_TABLE_SIZE in *. lia. }
    injection Hi as <-.
    apply elem_of_cons in Hin as [->|Hin].
    + simpl. rewrite str_take_all.
      * pose proof (hash_range name). lia.
      * unfold MAX_TOKEN_LEN in *. lia.
    + unfold bucket in Hin.
      destruct (symbols (current_scope table) !! Z.to_nat (hash name))
        as [old|] eqn:Hold; simpl in Hin; [|inversion Hin].
      exact (Hb _ _ _ Hold Hin).
  - rewrite list_lookup_insert_ne in Hi by congruence.
    exact (Hb _ _ _ Hi Hin).
Qed.

Lemma chain_wf_current (s : scope_t) : chain_wf s -> scope_wf s.
Proof. destruct s; simpl. now intros [H _]. Qed.

Lemma chain_wf_unfold (s : scope_t) :
  chain_wf s
  <-> scope_wf s /\ match parent s with
                    | None => True
                    | Some p => chain_wf p
                    end.
Proof. destruct s; reflexivity. Qed.

(** Every table built by the operations satisfies the invariant in each of
    its open scopes. *)
Lemma built_chain_wf (table : symbol_table_t) :
  built table -> chain_wf (current_scope table).
Proof.
  induction 1 as [|table _ IH|table _ IH|table name kind type _ IH Hname
                  |table message _ IH].
  - simpl. split; [reflexivity|exact I].
  - simpl. split; [reflexivity|exact IH].
  - unfold symtab_exit_scope.
    apply chain_wf_unfold in IH as [Hcur Hparent].
    destruct (parent (current_scope table)) as [p|] eqn:Hp; simpl.
    + exact Hparent.
    + apply chain_wf_unfold. rewrite Hp. now split.
  - pose proof (symtab_insert_wf table name kind type Hname
                  (chain_wf_current _ IH)) as Hwf.
    apply chain_wf_unfold in IH as [_ Hparent].
    apply chain_wf_unfold. split; [exact Hwf|].
    unfold symtab_insert.
    destruct (symtab_exists_current_scope table name); simpl; exact Hparent.
  - exact IH.
Qed.

Lemma built_scope_wf (table : symbol_table_t) :
  built table -> scope_wf (current_scope table).
Proof. intros H. exact (chain_wf_current _ (built_chain_wf _ H)). Qed.

(** C6, as stated: the [name] field of a symbol takes 255 characters and
    the bucket is chosen by the hash of the whole name.  After the
    insertion of a name of 256 characters the current scope holds a symbol
    under the first 255 of them, in a bucket that is not the one of its
    stored name; an insertion of that name of 255 characters looks in its
    own bucket, finds nothing and succeeds. *)
Lemma symtab_insert_of_declared_name_succeeds :
  let table := (symtab_insert symtab_create name_of_256 SYM_VARIABLE None).1 in
  let stored := str_take 255 name_of_256 in
  declared_in (current_scope table) stored
  /\ (exists sym, (symtab_insert table stored SYM_VARIABLE None).2 = Some sym)
  /\ scope_wfb (current_scope table) = false.
Proof.
  intros table stored. split; [|split].
  - exists [mk_symbol stored SYM_VARIABLE None 0 0 false false None],
           (mk_symbol stored SYM_VARIABLE None 0 0 false false None).
    split; [|split; [apply list_elem_of_singleton; reflexivity|reflexivity]].
    apply list_elem_of_lookup. exists (Z.to_nat (hash name_of_256)).
    vm_compute. reflexivity.
  - eexists. vm_compute. reflexivity.
  - vm_compute. reflexivity.
Qed.

(** C6, amended: on a table whose current scope satisfies the bucket
    invariant (every symbol in the bucket of its stored name, as in every
    table built from names that fit the [name] field, lemma
    [built_scope_wf]), [symtab_insert] fails exactly when a symbol of that
    name is already in the current scope, and the failure sets the error
    flag with the redeclaration message; a name found only in an ancestor
    scope does not make it fail. *)
Theorem symtab_insert_fails_iff_declared
    (table : symbol_table_t) (name : string) (kind : symbol_kind_t)
    (type : option type_info_t) :
  scope_wf (current_scope table) ->
  ((symtab_insert table name kind type).2 = None
   <-> declared_in (current_scope table) name)
  /\ ((symtab_insert table name kind type).2 = None ->
      st_had_error (symtab_insert table name kind type).1 = true
      /\ st_error_msg (symtab_insert table name kind type).1
         = redeclaration_message name)
  /\ (declared_in_ancestor (current_scope table) name ->
      ~ declared_in (current_scope table) name ->
      (exists sym, (symtab_insert table name kind type).2 = Some sym)
      /\ st_had_error (symtab_insert table name kind type).1
         = st_had_error table).
Proof.
  intros Hwf.
  pose proof (exists_current_scope_iff table name Hwf) as Hex.
  pose proof (insert_result_None table name kind type) as Hnone.
  split; [|split].
  - now rewrite Hnone.
  - intros H. apply Hnone in H. unfold symtab_insert. rewrite H. simpl.
    now split.
  - intros _ Hnot.
    assert (symtab_exists_current_scope table name = false) as Hf.
    { destruct (symtab_exists_current_scope table name); [|reflexivity].
      exfalso. apply Hnot, Hex. reflexivity. }
    unfold symtab_insert. rewrite Hf. simpl. split; [eauto|reflexivity].
Qed.

(** A table with [x] declared in the global scope and an empty inner scope
    as the current one. *)
Lemma symtab_insert_fails_iff_declared_witness :
  let outer :=
    (symtab_insert symtab_create "x" SYM_VARIABLE
                   (Some (type_create TYPE_INT))).1 in
  let table := symtab_enter_scope outer in
  scope_wf (current_scope table)
  /\ declared_in_ancestor (current_scope table) "x"
  /\ (exists sym,
        (symtab_insert table "x" SYM_VARIABLE (Some (type_create TYPE_INT))).2
        = Some sym)
  /\ (symtab_insert outer "x" SYM_VARIABLE (Some (type_create TYPE_INT))).2
     = None.
Proof.
  intros outer table.
  assert (scope_wf (current_scope table)) as Hwf by (vm_compute; reflexivity).
  assert (scope_wf (current_scope outer)) as Hwf' by (vm_compute; reflexivity).
  assert (declared_in (current_scope outer) "x") as Hdecl.
  { apply (exists_current_scope_iff outer "x" Hwf'). vm_compute. reflexivity. }
  assert (declared_in_ancestor (current_scope table) "x") as Hanc
    by (simpl; left; exact Hdecl).
  assert (~ declared_in (current_scope table) "x") as Hnot.
  { intros H. apply (exists_current_scope_iff table "x" Hwf) in H.
    vm_compute in H. discriminate. }
  split; [exact Hwf|]. split; [exact Hanc|]. split.
  - exact (proj1 (proj2 (proj2 (symtab_insert_fails_iff_declared
             table "x" SYM_VARIABLE (Some (type_create TYPE_INT)) Hwf))
             Hanc Hnot)).
  - exact (proj2 (proj1 (symtab_insert_fails_iff_declared
             outer "x" SYM_VARIABLE (Some (type_create TYPE_INT)) Hwf'))
             Hdecl).
Defined.

(** C9: [symtab_enter_scope] makes a scope whose parent is the old current
    scope and whose level is one greater, [symtab_exit_scope] right after
    it gives back the table as it was, and [symtab_exit_scope] on a table
    whose current scope is the global scope changes nothing. *)
Theorem symtab_enter_exit_scope (table : symbol_table_t) :
  symtab_exit_scope (symtab_enter_scope table) = table
  /\ parent (current_scope (symtab_enter_scope table))
     = Some (current_scope table)
  /\ scope_level_of (current_scope (symtab_enter_scope table))
     = scope_level table + 1
  /\ scope_level (symtab_enter_scope table) = scope_level table + 1
  /\ (current_scope table = global_scope table ->
      symtab_exit_scope table = table).
Proof.
  split; [|split; [|split; [|split]]]; try reflexivity.
  - destruct table as [cur lvl err msg].
    unfold symtab_exit_scope, symtab_enter_scope. simpl.
    f_equal. lia.
  - intros Hglobal. unfold global_scope in Hglobal. symmetry in Hglobal.
    apply scope_is_global_iff in Hglobal.
    unfold symtab_exit_scope. now rewrite Hglobal.
Qed.

Lemma symtab_enter_exit_scope_witness :
  current_scope symtab_create = global_scope symtab_create
  /\ symtab_exit_scope symtab_create = symtab_create
  /\ symtab_exit_scope (symtab_enter_scope symtab_create) = symtab_create.
Proof.
  split; [reflexivity|]. split.
  - exact (proj2 (proj2 (proj2 (proj2
             (symtab_enter_exit_scope symtab_create)))) eq_refl).
  - exact (proj1 (symtab_enter_exit_scope symtab_create)).
Defined.

(** C10: an insert that fails on a name already in the current scope
    returns NULL and leaves the scope chain and the level as they were:
    the buckets, the symbol count and [next_offset] of the current scope
    are unchanged; only the error flag and message are written. *)
Theorem symtab_insert_failure_preserves_scope
    (table : symbol_table_t) (name : string) (kind : symbol_kind_t)
    (type : option type_info_t) :
  symtab_exists_current_scope table name = true ->
  (symtab_insert table name kind type).2 = None
  /\ current_scope (symtab_insert table name kind type).1 = current_scope table
  /\ symbols (current_scope (symtab_insert table name kind type).1)
     = symbols (current_scope table)
  /\ symbol_count (current_scope (symtab_insert table name kind type).1)
     = symbol_count (current_scope table)
  /\ next_offset (current_scope (symtab_insert table name kind type).1)
     = next_offset (current_scope table)
  /\ scope_level (symtab_insert table name kind type).1 = scope_level table
  /\ st_had_error (symtab_insert table name kind type).1 = true
  /\ st_error_msg (symtab_insert table name kind type).1
     = redeclaration_message name.
Proof.
  intros H. unfold symtab_insert. rewrite H. simpl. repeat split.
Qed.

Lemma symtab_insert_failure_preserves_scope_witness :
  let table :=
    (symtab_insert symtab_create "x" SYM_VARIABLE
                   (Some (type_create TYPE_INT))).1 in
  symtab_exists_current_scope table "x" = true
  /\ next_offset (current_scope
                    (symtab_insert table "x" SYM_VARIABLE
                                   (Some (type_create TYPE_LONG))).1) = 4.
Proof.
  intros table.
  assert (symtab_exists_current_scope table "x" = true) as H
    by (vm_compute; reflexivity).
  split; [exact H|].
  pose proof (symtab_insert_failure_preserves_scope
                table "x" SYM_VARIABLE (Some (type_create TYPE_LONG)) H)
    as (_ & _ & _ & _ & Hoff & _).
  rewrite Hoff. vm_compute. reflexivity.
Defined.

(** ** Symbol table: lookups, scopes and counters *)

Lemma bucket_insert_eq (s : scope_t) (h : Z) chain :
  (Z.to_nat h < length (symbols s))%nat ->
  default [] (<[Z.to_nat h := chain]> (symbols s) !! Z.to_nat h) = chain.
Proof. intros Hh. now rewrite list_lookup_insert_eq. Qed.

Lemma hash_in_table (s : scope_t) (name : string) :
  scope_wf s -> (Z.to_nat (hash name) < length (symbols s))%nat.
Proof.
  intros Hwf. apply scope_wf_spec in Hwf as [Hlen _].
  pose proof (hash_range name). rewrite Hlen. unfold HASH_TABLE_SIZE in *. lia.
Qed.

Lemma stored_name (name : string) :
  (String.length name < Z.to_nat MAX_TOKEN_LEN)%nat ->
  str_take (Z.to_nat (MAX_TOKEN_LEN - 1)) name = name.
Proof. intros H. apply str_take_all. unfold MAX_TOKEN_LEN in *. lia. Qed.

Lemma scope_lookup_current (s : scope_t) (h : Z) (name : string) sym :
  chain_find (bucket s h) name = Some sym -> scope_lookup s h name = Some sym.
Proof. intros H. destruct s; simpl in *. now rewrite H. Qed.

Lemma symtab_insert_new_symbol
    (table : symbol_table_t) (name : string) (kind : symbol_kind_t)
    (type : option type_info_t) (sym : symbol_t) :
  (String.length name < Z.to_nat MAX_TOKEN_LEN)%nat ->
  (symtab_insert table name kind type).2 = Some sym ->
  sym = mk_symbol name kind type (scope_level table)
                  (next_offset (current_scope table)) false false None.
Proof.
  intros Hname. unfold symtab_insert.
  destruct (symtab_exists_current_scope table name); [discriminate|].
  cbn [snd]. intros [= <-]. now rewrite (stored_name name Hname).
Qed.

(** X1: after a successful [symtab_insert] of a name that fits the [name]
    field, into a table whose current scope satisfies the bucket
    invariant, [symtab_lookup_current_scope] and [symtab_lookup] find the
    symbol just inserted: it carries the name, kind and type given, the
    scope level of the table and the offset that was next. *)
Theorem symtab_insert_then_lookup
    (table : symbol_table_t) (name : string) (kind : symbol_kind_t)
    (type : option type_info_t) (sym : symbol_t) :
  scope_wf (current_scope table) ->
  (String.length name < Z.to_nat MAX_TOKEN_LEN)%nat ->
  (symtab_insert table name kind type).2 = Some sym ->
  symtab_lookup_current_scope (symtab_insert table name kind type).1 name
  = Some sym
  /\ symtab_lookup (symtab_insert table name kind type).1 name = Some sym
  /\ sym = mk_symbol name kind type (scope_level table)
                     (next_offset (current_scope table)) false false None.
Proof.
  intros Hwf Hname. unfold symtab_insert.
  destruct (symtab_exists_current_scope table name); [discriminate|].
  cbn [fst snd]. intros [= <-].
  rewrite (stored_name name Hname).
  assert (symtab_lookup_current_scope
            (mk_symbol_table
               (mk_scope (scope_level_of (current_scope table))
                  (<[Z.to_nat (hash name) :=
                       mk_symbol name kind type (scope_level table)
                         (next_offset (current_scope table)) false false None
                       :: bucket (current_scope table) (hash name)]>
                     (symbols (current_scope table)))
                  (symbol_count (current_scope table) + 1)
                  (if is_variable_or_parameter kind
                   then to_int32
                          (next_offset (current_scope table) + type_size type)
                   else next_offset (current_scope table))
                  (parent (current_scope table)))
               (scope_level table) (st_had_error table) (st_error_msg table))
            name
          = Some (mk_symbol name kind type (scope_level table)
                    (next_offset (current_scope table)) false false None))
    as Hcur.
  { unfold symtab_lookup_current_scope, bucket. cbn [current_scope symbols].
    rewrite list_lookup_insert_eq by now apply hash_in_table.
    simpl. now rewrite String.eqb_refl. }
  split; [exact Hcur|]. split; [|reflexivity].
  unfold symtab_lookup. now apply scope_lookup_current.
Qed.

Lemma symtab_insert_then_lookup_witness :
  symtab_lookup (symtab_insert symtab_create "x" SYM_VARIABLE
                   (Some (type_create TYPE_INT))).1 "x"
  = Some (mk_symbol "x" SYM_VARIABLE (Some (type_create TYPE_INT)) 0 0
                    false false None).
Proof.
  assert (scope_wf (current_scope symtab_create)) as Hwf by reflexivity.
  assert (String.length "x" < Z.to_nat MAX_TOKEN_LEN)%nat as Hname
    by (vm_compute; lia).
  exact (proj1 (proj2 (symtab_insert_then_lookup symtab_create "x" SYM_VARIABLE
                   (Some (type_create TYPE_INT)) _ Hwf Hname eq_refl))).
Defined.

Lemma chain_find_other (sym : symbol_t) chain (name : string) :
  sym_name sym <> name ->
  chain_find (sym :: chain) name = chain_find chain name.
Proof. intros H. simpl. apply String.eqb_neq in H. now rewrite H. Qed.

Lemma bucket_after_insert (table : symbol_table_t) name kind type sym h :
  (String.length name < Z.to_nat MAX_TOKEN_LEN)%nat ->
  (symtab_insert table name kind type).2 = Some sym ->
  bucket (current_scope (symtab_insert table name kind type).1) h
  = if decide (Z.to_nat h = Z.to_nat (hash name)
               /\ (Z.to_nat h < length (symbols (current_scope table)))%nat)
    then sym :: bucket (current_scope table) h
    else bucket (current_scope table) h.
Proof.
  intros Hname. unfold symtab_insert.
  destruct (symtab_exists_current_scope table name); [discriminate|].
  cbn [fst snd]. intros [= <-]. unfold bucket. cbn [current_scope symbols].
  destruct (decide _) as [[Heq Hlt]|Hno].
  - rewrite <- Heq. rewrite list_lookup_insert_eq by exact Hlt. reflexivity.
  - destruct (decide (Z.to_nat h = Z.to_nat (hash name))) as [Heq|Hne].
    + rewrite <- Heq.
      rewrite list_insert_ge by lia.
      reflexivity.
    + rewrite list_lookup_insert_ne by congruence. reflexivity.
Qed.

Lemma scope_lookup_same_parent (s s' : scope_t) (h : Z) (name : string) :
  chain_find (bucket s' h) name = chain_find (bucket s h) name ->
  parent s' = parent s ->
  scope_lookup s' h name = scope_lookup s h name.
Proof.
  intros Hb Hp. destruct s, s'; simpl in *. rewrite Hb. now subst.
Qed.

Lemma symtab_insert_parent (table : symbol_table_t) name kind type :
  parent (current_scope (symtab_insert table name kind type).1)
  = parent (current_scope table)
  /\ scope_level (symtab_insert table name kind type).1 = scope_level table
  /\ scope_level_of (current_scope (symtab_insert table name kind type).1)
     = scope_level_of (current_scope table).
Proof.
  unfold symtab_insert.
  destruct (symtab_exists_current_scope table name); now repeat split.
Qed.

Lemma symtab_insert_failed (table : symbol_table_t) name kind type :
  (symtab_insert table name kind type).2 = None ->
  current_scope (symtab_insert table name kind type).1 = current_scope table.
Proof.
  unfold symtab_insert.
  destruct (symtab_exists_current_scope table name); [reflexivity|discriminate].
Qed.

(** X2: [symtab_insert] of a name that fits the [name] field, successful or
    not, changes the answer of [symtab_lookup] and of
    [symtab_lookup_current_scope] for no other name. *)
Theorem symtab_insert_keeps_other_names
    (table : symbol_table_t) (name other : string) (kind : symbol_kind_t)
    (type : option type_info_t) :
  (String.length name < Z.to_nat MAX_TOKEN_LEN)%nat ->
  other <> name ->
  symtab_lookup (symtab_insert table name kind type).1 other
  = symtab_lookup table other
  /\ symtab_lookup_current_scope (symtab_insert table name kind type).1 other
     = symtab_lookup_current_scope table other.
Proof.
  intros Hname Hother.
  assert (chain_find
            (bucket (current_scope (symtab_insert table name kind type).1)
                    (hash other)) other
          = chain_find (bucket (current_scope table) (hash other)) other)
    as Hbucket.
  { destruct (symtab_insert table name kind type).2 as [sym|] eqn:Hres.
    - rewrite (bucket_after_insert _ _ _ _ _ _ Hname Hres).
      destruct (decide _); [|reflexivity].
      apply chain_find_other.
      unfold symtab_insert in Hres.
      destruct (symtab_exists_current_scope table name); [discriminate|].
      injection Hres as <-. cbn [sym_name].
      rewrite (stored_name name Hname). congruence.
    - now rewrite (symtab_insert_failed _ _ _ _ Hres). }
  split; [|exact Hbucket].
  unfold symtab_lookup. apply scope_lookup_same_parent; [exact Hbucket|].
  apply symtab_insert_parent.
Qed.

Lemma symtab_insert_keeps_other_names_witness :
  symtab_lookup (symtab_insert
                   (symtab_insert symtab_create "x" SYM_VARIABLE None).1
                   "y" SYM_FUNCTION None).1 "x"
  = symtab_lookup (symtab_insert symtab_create "x" SYM_VARIABLE None).1 "x".
Proof.
  assert (String.length "y" < Z.to_nat MAX_TOKEN_LEN)%nat as Hname
    by (vm_compute; lia).
  assert ("x" <> "y") as Hne by discriminate.
  exact (proj1 (symtab_insert_keeps_other_names
                  (symtab_insert symtab_create "x" SYM_VARIABLE None).1
                  "y" "x" SYM_FUNCTION None Hname Hne)).
Defined.

Lemma symtab_insert_all_parent decls :
  forall table,
  parent (current_scope (symtab_insert_all decls table))
  = parent (current_scope table)
  /\ scope_level (symtab_insert_all decls table) = scope_level table.
Proof.
  induction decls as [|d decls IH]; intros table; [now split|].
  unfold symtab_insert_all in *. cbn [fold_left].
  destruct (IH (symtab_insert table d.1.1 d.1.2 d.2).1) as [Hp Hl].
  destruct (symtab_insert_parent table d.1.1 d.1.2 d.2) as (Hp' & Hl' & _).
  split; congruence.
Qed.

Lemma bucket_scope_create p level h : bucket (scope_create p level) h = [].
Proof.
  unfold bucket, scope_create. cbn [symbols].
  destruct (replicate _ _ !! _) as [chain|] eqn:E; [|reflexivity].
  apply lookup_replicate in E as [-> _]. reflexivity.
Qed.

Lemma scope_lookup_unfold (s : scope_t) (h : Z) (name : string) :
  scope_lookup s h name
  = match chain_find (bucket s h) name with
    | Some sym => Some sym
    | None =>
        match parent s with
        | None => None
        | Some p => scope_lookup p h name
        end
    end.
Proof. destruct s; reflexivity. Qed.

(** X3: entering a scope changes no lookup; and after [symtab_enter_scope],
    any run of insertions and [symtab_exit_scope], the current scope, the
    scope level and every lookup are what they were before the block:
    the symbols of the block are gone and no outer symbol was touched. *)
Theorem symtab_block_scoping
    (table : symbol_table_t)
    (decls : list (string * symbol_kind_t * option type_info_t))
    (name : string) :
  symtab_lookup (symtab_enter_scope table) name = symtab_lookup table name
  /\ current_scope
       (symtab_exit_scope (symtab_insert_all decls (symtab_enter_scope table)))
     = current_scope table
  /\ scope_level
       (symtab_exit_scope (symtab_insert_all decls (symtab_enter_scope table)))
     = scope_level table
  /\ symtab_lookup
       (symtab_exit_scope (symtab_insert_all decls (symtab_enter_scope table)))
       name
     = symtab_lookup table name.
Proof.
  assert (symtab_lookup (symtab_enter_scope table) name
          = symtab_lookup table name) as Henter.
  { unfold symtab_lookup, symtab_enter_scope. cbn [current_scope].
    rewrite scope_lookup_unfold, bucket_scope_create. reflexivity. }
  destruct (symtab_insert_all_parent decls (symtab_enter_scope table))
    as [Hp Hl].
  cbn [symtab_enter_scope current_scope scope_create parent scope_level]
    in Hp, Hl.
  assert (current_scope
            (symtab_exit_scope
               (symtab_insert_all decls (symtab_enter_scope table)))
          = current_scope table) as Hcur.
  { unfold symtab_exit_scope. now rewrite Hp. }
  split; [exact Henter|]. split; [exact Hcur|]. split.
  - unfold symtab_exit_scope. rewrite Hp. cbn [scope_level]. lia.
  - unfold symtab_lookup. now rewrite Hcur.
Qed.

Lemma concat_insert_cons {A} (L : list (list A)) (i : nat) (li : list A) (x : A) :
  L !! i = Some li ->
  exists a b, concat L = (a ++ li ++ b)%list
              /\ concat (<[i := x :: li]> L) = (a ++ (x :: li) ++ b)%list.
Proof.
  revert i. induction L as [|l L IH]; intros i Hi; [destruct i; discriminate|].
  destruct i as [|i]; simpl in *.
  - injection Hi as ->. exists [], (concat L). now split.
  - destruct (IH i Hi) as (a & b & H1 & H2).
    exists (l ++ a)%list, b. rewrite H1, H2, <- !app_assoc. now split.
Qed.

Lemma total_storage_app (a b : list symbol_t) :
  total_storage (a ++ b)%list = total_storage a + total_storage b.
Proof.
  unfold total_storage. induction a as [|x a IH]; simpl; [reflexivity|].
  rewrite IH. lia.
Qed.

Lemma to_int32_small (z : Z) : - 2 ^ 31 <= z < 2 ^ 31 -> to_int32 z = z.
Proof. intros H. unfold to_int32. rewrite Z.mod_small; lia. Qed.

Lemma to_int32_add_l (a b : Z) : to_int32 (to_int32 a + b) = to_int32 (a + b).
Proof.
  unfold to_int32. f_equal.
  replace ((a + 2 ^ 31) mod 2 ^ 32 - 2 ^ 31 + b + 2 ^ 31)
    with ((a + 2 ^ 31) mod 2 ^ 32 + b) by lia.
  rewrite Zplus_mod_idemp_l. f_equal. lia.
Qed.

Lemma chain_all_unfold (P : scope_t -> Prop) (s : scope_t) :
  chain_all P s
  <-> P s /\ match parent s with
             | None => True
             | Some p => chain_all P p
             end.
Proof. destruct s; reflexivity. Qed.

(** What a successful insertion does to the current scope. *)
Lemma symtab_insert_scope (table : symbol_table_t) name kind type sym :
  scope_wf (current_scope table) ->
  (symtab_insert table name kind type).2 = Some sym ->
  let cur := current_scope table in
  let cur' := current_scope (symtab_insert table name kind type).1 in
  (exists a b, scope_symbols cur = (a ++ b)%list
               /\ scope_symbols cur' = (a ++ sym :: b)%list)
  /\ symbol_count cur' = symbol_count cur + 1
  /\ next_offset cur'
     = (if is_variable_or_parameter (sym_kind sym)
        then to_int32 (next_offset cur + storage_size sym)
        else next_offset cur)
  /\ sym_scope_level sym = scope_level table.
Proof.
  intros Hwf. unfold symtab_insert.
  destruct (symtab_exists_current_scope table name); [discriminate|].
  cbn [fst snd]. intros [= <-]. cbn [current_scope symbols symbol_count
    next_offset sym_scope_level]. unfold storage_size. cbn [sym_kind sym_type].
  split; [|split; [reflexivity|split; [|reflexivity]]].
  - unfold scope_symbols. cbn [symbols].
    pose proof (hash_in_table _ name Hwf) as Hh.
    destruct (lookup_lt_is_Some_2 _ _ Hh) as [li Hli].
    unfold bucket. rewrite Hli. change (default [] (Some li)) with li.
    destruct (concat_insert_cons _ _ _
                (mk_symbol (str_take (Z.to_nat (MAX_TOKEN_LEN - 1)) name) kind
                   type (scope_level table)
                   (next_offset (current_scope table)) false false None)
                Hli) as (a & b & H1 & H2).
    exists a, (li ++ b)%list. now rewrite H1, H2.
  - destruct (is_variable_or_parameter kind); reflexivity.
Qed.

Lemma scope_create_accounted p level : scope_accounted (scope_create p level).
Proof.
  unfold scope_accounted, scope_symbols, scope_create. cbn [symbols
    symbol_count next_offset].
  assert (forall n, concat (replicate n ([] : list symbol_t)) = []) as H
    by (induction n; simpl; auto).
  now rewrite H.
Qed.

Lemma built_accounted (table : symbol_table_t) :
  built table -> chain_all scope_accounted (current_scope table).
Proof.
  induction 1 as [|table _ IH|table Hb IH|table name kind type Hb IH Hname
                  |table message _ IH].
  - simpl. split; [apply scope_create_accounted|exact I].
  - simpl. split; [apply (scope_create_accounted (Some _))|exact IH].
  - unfold symtab_exit_scope.
    pose proof IH as IH'.
    apply chain_all_unfold in IH' as [_ Hparent].
    destruct (parent (current_scope table)) as [p|] eqn:Hp; simpl;
      [exact Hparent|exact IH].
  - destruct (symtab_insert table name kind type).2 as [sym|] eqn:Hres.
    + pose proof (symtab_insert_scope table name kind type sym
                    (built_scope_wf _ Hb) Hres)
        as ((a & b & Hold & Hnew) & Hcount & Hoff & _).
      destruct (symtab_insert_parent table name kind type) as (Hp & _).
      apply chain_all_unfold in IH as [[Hc Ho] Hparent].
      apply chain_all_unfold. rewrite Hp. split; [|exact Hparent].
      split.
      * rewrite Hcount, Hc, Hold, Hnew, !length_app. simpl. lia.
      * rewrite Hoff, Ho, Hold, Hnew, !total_storage_app.
        cbn [total_storage foldr]. fold (total_storage b).
        destruct (is_variable_or_parameter (sym_kind sym)) eqn:Hkind.
        -- rewrite to_int32_add_l. f_equal. lia.
        -- unfold storage_size. rewrite Hkind. f_equal; lia.
    + now rewrite (symtab_insert_failed _ _ _ _ Hres).
  - exact IH.
Qed.

(** X4: in every table built from [symtab_create] by [symtab_enter_scope],
    [symtab_exit_scope], [symtab_error] and [symtab_insert] of names shorter
    than [MAX_TOKEN_LEN], the [symbol_count] of the current scope is the
    number of symbols in its buckets, and [next_offset] is the sum of the
    sizes of its variables and parameters (functions and the other kinds
    take no room) as the [int] additions of [symtab_insert] leave it: the
    32-bit value of the sum, which is the sum itself whenever that fits an
    [int]; a symbol inserted next is placed at that offset. *)
Theorem symtab_counters_match_contents (table : symbol_table_t) :
  built table ->
  symbol_count (current_scope table)
  = Z.of_nat (length (scope_symbols (current_scope table)))
  /\ next_offset (current_scope table)
     = to_int32 (total_storage (scope_symbols (current_scope table)))
  /\ (- 2 ^ 31 <= total_storage (scope_symbols (current_scope table)) < 2 ^ 31 ->
      next_offset (current_scope table)
      = total_storage (scope_symbols (current_scope table)))
  /\ forall name kind type sym,
       (symtab_insert table name kind type).2 = Some sym ->
       sym_offset sym
       = to_int32 (total_storage (scope_symbols (current_scope table))).
Proof.
  intros H. apply built_accounted in H.
  apply chain_all_unfold in H as [[Hc Ho] _].
  split; [exact Hc|]. split; [exact Ho|].
  split; [intros Hfits; now rewrite Ho, to_int32_small|].
  intros name kind type sym. unfold symtab_insert.
  destruct (symtab_exists_current_scope table name); [discriminate|].
  cbn [snd]. intros [= <-]. exact Ho.
Qed.

Lemma symtab_counters_match_contents_witness :
  let table :=
    (symtab_insert
       (symtab_insert symtab_create "f" SYM_FUNCTION None).1
       "x" SYM_VARIABLE (Some (type_create TYPE_INT))).1 in
  symbol_count (current_scope table) = 2
  /\ next_offset (current_scope table) = 4.
Proof.
  assert (forall name, String.length name = 1%nat ->
          (String.length name < Z.to_nat MAX_TOKEN_LEN)%nat) as Hshort
    by (intros name ->; vm_compute; lia).
  pose proof (symtab_counters_match_contents _
                (built_insert _ "x" SYM_VARIABLE (Some (type_create TYPE_INT))
                   (built_insert _ "f" SYM_FUNCTION None built_create
                      (Hshort "f" eq_refl))
                   (Hshort "x" eq_refl))) as (Hc & _ & Ho & _).
  split; [exact Hc|]. apply Ho. vm_compute. split; [discriminate|reflexivity].
Defined.

Lemma scope_create_levelled p level :
  level = Z.of_nat (scope_depth (scope_create p level)) ->
  scope_levelled (scope_create p level).
Proof.
  intros Hl. split; [exact Hl|].
  intros sym Hin. exfalso. revert Hin.
  unfold scope_symbols, scope_create. cbn [symbols].
  assert (forall n, concat (replicate n ([] : list symbol_t)) = []) as H
    by (induction n; simpl; auto).
  rewrite H. apply not_elem_of_nil.
Qed.

Lemma scope_depth_unfold (s : scope_t) :
  scope_depth s = match parent s with
                  | None => 0%nat
                  | Some p => S (scope_depth p)
                  end.
Proof. destruct s; reflexivity. Qed.

(** The level of the table is that of its current scope, along with the
    levels of every open scope. *)
Lemma built_levelled (table : symbol_table_t) :
  built table ->
  scope_level table = scope_level_of (current_scope table)
  /\ chain_all scope_levelled (current_scope table).
Proof.
  induction 1 as [|table _ [IHl IH]|table Hb [IHl IH]
                  |table name kind type Hb [IHl IH] Hname
                  |table message _ IH].
  - split; [reflexivity|]. simpl. split; [|exact I].
    now apply scope_create_levelled.
  - split; [reflexivity|]. simpl. split; [|exact IH].
    apply (scope_create_levelled (Some _)).
    apply chain_all_unfold in IH as [[Hd _] _].
    rewrite scope_depth_unfold. cbn [scope_create parent].
    rewrite IHl, Hd. lia.
  - unfold symtab_exit_scope.
    pose proof IH as IH'.
    apply chain_all_unfold in IH' as [[Hd _] Hparent].
    destruct (parent (current_scope table)) as [p|] eqn:Hp;
      cbn [current_scope scope_level]; [|now split].
    split; [|exact Hparent].
    apply chain_all_unfold in Hparent as [[Hdp _] _].
    rewrite IHl, Hd, Hdp, (scope_depth_unfold (current_scope table)), Hp. lia.
  - destruct (symtab_insert_parent table name kind type) as (Hp & Hl & Hlo).
    split; [congruence|].
    destruct (symtab_insert table name kind type).2 as [sym|] eqn:Hres.
    + pose proof (symtab_insert_scope table name kind type sym
                    (built_scope_wf _ Hb) Hres)
        as ((a & b & Hold & Hnew) & _ & _ & Hlevel).
      apply chain_all_unfold in IH as [[Hd Hsyms] Hparent].
      apply chain_all_unfold. rewrite Hp. split; [|exact Hparent].
      split.
      * rewrite Hlo, Hd, !scope_depth_unfold, Hp. reflexivity.
      * intros s. rewrite Hnew, Hlo. intros Hin.
        apply elem_of_app in Hin as [Hin|Hin].
        -- apply Hsyms. rewrite Hold. apply elem_of_app. now left.
        -- apply elem_of_cons in Hin as [->|Hin]; [congruence|].
           apply Hsyms. rewrite Hold. apply elem_of_app. now right.
    + now rewrite (symtab_insert_failed _ _ _ _ Hres).
  - exact IH.
Qed.

Lemma scope_in_chain_unfold (s' s : scope_t) :
  scope_in_chain s' s
  <-> s' = s \/ match parent s with
                | None => False
                | Some p => scope_in_chain s' p
                end.
Proof. destruct s; reflexivity. Qed.

Lemma bucket_scope_symbols (s : scope_t) (h : Z) (sym : symbol_t) :
  sym ∈ bucket s h -> sym ∈ scope_symbols s.
Proof.
  unfold bucket, scope_symbols.
  destruct (symbols s !! Z.to_nat h) as [chain|] eqn:Hb;
    [|intros Hin; inversion Hin].
  cbn. intros Hin. apply list_elem_of_In, in_concat.
  exists chain. split; apply list_elem_of_In; [|exact Hin].
  apply list_elem_of_lookup. now exists (Z.to_nat h).
Qed.

Lemma scope_lookup_in_chain :
  forall (s : scope_t) (h : Z) (name : string) (sym : symbol_t),
  scope_lookup s h name = Some sym ->
  exists s', scope_in_chain s' s /\ sym ∈ scope_symbols s'
             /\ sym_name sym = name.
Proof.
  fix IH 1.
  intros s h name sym Hfind.
  rewrite scope_lookup_unfold in Hfind.
  destruct (chain_find (bucket s h) name) as [found|] eqn:Hc.
  - injection Hfind as ->. apply chain_find_Some in Hc as [Hin Hname].
    exists s. split; [apply scope_in_chain_unfold; now left|].
    split; [now apply (bucket_scope_symbols s h)|exact Hname].
  - destruct s as [lvl syms cnt off [p|]]; cbn [parent] in Hfind;
      [|discriminate].
    destruct (IH p h name sym Hfind) as (s' & Hin & Hsym).
    exists s'. split; [|exact Hsym].
    apply scope_in_chain_unfold. right. exact Hin.
Qed.

Lemma chain_all_in_chain (P : scope_t -> Prop) :
  forall s s', chain_all P s -> scope_in_chain s' s -> P s'.
Proof.
  fix IH 1.
  intros [lvl syms cnt off par] s' Hall Hin.
  apply chain_all_unfold in Hall as [Hs Hparent].
  apply scope_in_chain_unfold in Hin as [->|Hin]; [exact Hs|].
  cbn [parent] in *. destruct par as [p|]; [|contradiction].
  exact (IH p s' Hparent Hin).
Qed.

Lemma scope_in_chain_depth :
  forall s s', scope_in_chain s' s -> (scope_depth s' <= scope_depth s)%nat.
Proof.
  fix IH 1.
  intros [lvl syms cnt off par] s' Hin.
  apply scope_in_chain_unfold in Hin as [->|Hin]; [lia|].
  cbn [parent] in *. destruct par as [p|]; [|contradiction].
  specialize (IH p s' Hin). rewrite (scope_depth_unfold (mk_scope _ _ _ _ _)).
  cbn [parent]. lia.
Qed.

Lemma scope_in_chain_root :
  forall s s', scope_in_chain s' s -> parent s' = None -> s' = scope_root s.
Proof.
  fix IH 1.
  intros [lvl syms cnt off par] s' Hin Hroot.
  apply scope_in_chain_unfold in Hin as [->|Hin].
  - symmetry. now apply scope_is_global_iff.
  - cbn [parent] in *. destruct par as [p|]; [|contradiction].
    exact (IH p s' Hin Hroot).
Qed.

Lemma scope_root_in_chain : forall s, scope_in_chain (scope_root s) s.
Proof.
  fix IH 1.
  intros [lvl syms cnt off [p|]]; apply scope_in_chain_unfold.
  - right. cbn [parent]. exact (IH p).
  - now left.
Qed.

(** X5: in a table built by the operations, a symbol found by
    [symtab_lookup] bears the name asked for, its [scope_level] is between
    0 and the level of the table, and it is 0 exactly when the symbol sits
    in the global scope, which is the test the generator uses to choose
    between the global and the local load and store. *)
Theorem symtab_lookup_level_is_scope
    (table : symbol_table_t) (name : string) (sym : symbol_t) :
  built table ->
  symtab_lookup table name = Some sym ->
  sym_name sym = name
  /\ 0 <= sym_scope_level sym <= scope_level table
  /\ (sym_scope_level sym = 0 <-> sym ∈ scope_symbols (global_scope table)).
Proof.
  intros Hbuilt Hfind.
  destruct (built_levelled table Hbuilt) as [Hlevel Hall].
  destruct (scope_lookup_in_chain _ _ _ _ Hfind) as (s' & Hin & Hsym & Hname).
  destruct (chain_all_in_chain _ _ _ Hall Hin) as [Hd Hsyms].
  assert (scope_levelled (current_scope table)) as [Hdc _]
    by (apply chain_all_unfold in Hall; tauto).
  pose proof (scope_in_chain_depth _ _ Hin) as Hle.
  split; [exact Hname|]. split.
  - rewrite (Hsyms sym Hsym), Hd, Hlevel, Hdc. lia.
  - split.
    + intros Hzero. rewrite (Hsyms sym Hsym), Hd in Hzero.
      assert (parent s' = None) as Hroot.
      { rewrite scope_depth_unfold in Hzero.
        destruct (parent s'); [lia|reflexivity]. }
      unfold global_scope.
      now rewrite <- (scope_in_chain_root _ _ Hin Hroot).
    + intros Hglobal.
      destruct (chain_all_in_chain _ _ _ Hall
                  (scope_root_in_chain (current_scope table)))
        as [Hdr Hsymsr].
      rewrite (Hsymsr sym Hglobal), Hdr, scope_root_depth. reflexivity.
Qed.

Lemma symtab_lookup_level_is_scope_witness :
  let table :=
    (symtab_insert
       (symtab_enter_scope
          (symtab_insert symtab_create "g" SYM_VARIABLE None).1)
       "x" SYM_VARIABLE None).1 in
  let g := mk_symbol "g" SYM_VARIABLE None 0 0 false false None in
  symtab_lookup table "g" = Some g
  /\ 0 <= sym_scope_level g <= scope_level table
  /\ (sym_scope_level g = 0 <-> g ∈ scope_symbols (global_scope table)).
Proof.
  assert (forall name, String.length name = 1%nat ->
          (String.length name < Z.to_nat MAX_TOKEN_LEN)%nat) as Hshort
    by (intros name ->; vm_compute; lia).
  split; [vm_compute; reflexivity|].
  refine (proj2 (symtab_lookup_level_is_scope _ "g" _ _ _)).
  - apply built_insert; [|now apply Hshort].
    apply built_enter_scope, built_insert; [apply built_create|].
    now apply Hshort.
  - vm_compute. reflexivity.
Defined.

(** ** The analysis of the driver *)

Lemma declared_in_scope_symbols (s : scope_t) (name : string) :
  declared_in s name
  <-> exists sym, sym ∈ scope_symbols s /\ sym_name sym = name.
Proof.
  unfold declared_in, scope_symbols. split.
  - intros (chain & sym & Hchain & Hin & Hname). exists sym.
    split; [|exact Hname].
    apply list_elem_of_In, in_concat. exists chain.
    split; now apply list_elem_of_In.
  - intros (sym & Hin & Hname).
    apply list_elem_of_In, in_concat in Hin as (chain & Hchain & Hin).
    exists chain, sym. repeat split; try apply list_elem_of_In; assumption.
Qed.

Lemma analyze_child_cases (table : symbol_table_t) (child : ast_node_t) :
  (is_global_declaration (node_type child) = false
   /\ analyze_child table child = table)
  \/ (is_global_declaration (node_type child) = true
      /\ exists kind,
           analyze_child table child
           = (symtab_insert table (node_name child) kind (data_type child)).1).
Proof.
  unfold analyze_child.
  destruct (node_type child); try (left; split; reflexivity);
    right; (split; [reflexivity|]); eexists; reflexivity.
Qed.

Lemma symtab_insert_had_error (table : symbol_table_t) name kind type :
  st_had_error (symtab_insert table name kind type).1
  = st_had_error table || symtab_exists_current_scope table name.
Proof.
  unfold symtab_insert.
  destruct (symtab_exists_current_scope table name); cbn [fst st_had_error].
  - now rewrite orb_true_r.
  - now rewrite orb_false_r.
Qed.

Lemma analyze_error_sticky (nodes : list ast_node_t) :
  forall table, st_had_error table = true ->
  st_had_error (fold_left analyze_child nodes table) = true.
Proof.
  induction nodes as [|c nodes IH]; intros table H; [exact H|].
  cbn [fold_left]. apply IH.
  destruct (analyze_child_cases table c) as [[_ ->]|[_ [kind ->]]]; [exact H|].
  rewrite symtab_insert_had_error, H. reflexivity.
Qed.

Lemma analyze_fold (nodes : list ast_node_t) :
  forall (table : symbol_table_t) (seen : list string),
  built table ->
  st_had_error table = false ->
  (forall n, declared_in (current_scope table) n <-> n ∈ seen) ->
  NoDup seen ->
  Forall (fun n => (String.length n < Z.to_nat MAX_TOKEN_LEN)%nat)
         (map node_name
            (filter (fun c => is_global_declaration (node_type c) = true)
                    nodes)) ->
  st_had_error (fold_left analyze_child nodes table) = false
  <-> NoDup (seen ++ map node_name
                       (filter (fun c => is_global_declaration (node_type c)
                                         = true) nodes))%list.
Proof.
  induction nodes as [|c nodes IH]; intros table seen Hbuilt Herr Hdecl Hseen Hshort.
  - cbn. rewrite app_nil_r. tauto.
  - cbn [fold_left].
    destruct (analyze_child_cases table c) as [[Hty ->]|[Hty [kind ->]]].
    + rewrite filter_cons_False in * by congruence.
      now apply IH.
    + rewrite filter_cons_True in * by exact Hty.
      cbn [map] in *. apply Forall_cons in Hshort as [Hname Hshort].
      destruct (symtab_exists_current_scope table (node_name c)) eqn:Hex.
      * pose proof Hex as Hin.
        apply (exists_current_scope_iff _ _ (built_scope_wf _ Hbuilt)) in Hin.
        apply Hdecl in Hin.
        split.
        -- intros Hno. exfalso.
           rewrite analyze_error_sticky in Hno; [discriminate|].
           rewrite symtab_insert_had_error, Hex. apply orb_true_r.
        -- intros Hnd. exfalso.
           apply NoDup_app in Hnd as (_ & Hdisj & _).
           apply (Hdisj _ Hin). left.
      * assert (node_name c ∉ seen) as Hnew.
        { intros Hin. apply Hdecl in Hin.
          apply (exists_current_scope_iff _ _ (built_scope_wf _ Hbuilt)) in Hin.
          congruence. }
        destruct (symtab_insert table (node_name c) kind (data_type c)).2
          as [sym|] eqn:Hres.
        2:{ apply insert_result_None in Hres. congruence. }
        rewrite (IH _ (seen ++ [node_name c])%list).
        -- rewrite <- app_assoc. reflexivity.
        -- now apply built_insert.
        -- rewrite symtab_insert_had_error, Herr, Hex. reflexivity.
        -- intros n.
           pose proof (symtab_insert_scope _ _ _ _ _
                         (built_scope_wf _ Hbuilt) Hres)
             as ((a & b & Hold & Hnewsyms) & _).
           pose proof (symtab_insert_new_symbol _ _ _ _ _ Hname Hres)
             as Hsym.
           rewrite declared_in_scope_symbols, Hnewsyms, elem_of_app,
             <- Hdecl, declared_in_scope_symbols, Hold.
           rewrite list_elem_of_singleton.
           split.
           ++ intros (s & Hin & Hn).
              apply elem_of_app in Hin as [Hin|Hin].
              ** left. exists s. split; [|exact Hn].
                 apply elem_of_app. now left.
              ** apply elem_of_cons in Hin as [->|Hin].
                 --- right. rewrite <- Hn, Hsym. reflexivity.
                 --- left. exists s. split; [|exact Hn].
                     apply elem_of_app. now right.
           ++ intros [(s & Hin & Hn)| ->].
              ** exists s. split; [|exact Hn].
                 apply elem_of_app in Hin as [Hin|Hin]; apply elem_of_app;
                   [now left|right; now right].
              ** exists sym. split; [|now rewrite Hsym].
                 apply elem_of_app. right. left.
        -- apply NoDup_app. split; [exact Hseen|].
           split; [|apply NoDup_singleton].
           intros x Hx Hx'. apply list_elem_of_singleton in Hx'. congruence.
        -- exact Hshort.
Qed.

(** X6: on a program whose top-level names fit the [name] field,
    [compiler_analyze] succeeds exactly when no two of its functions,
    processes and variable declarations share a name. *)
Theorem compiler_analyze_rejects_duplicates (c : compiler_t) (ast : ast_node_t) :
  c_ast c = Some ast ->
  node_type ast = NODE_PROGRAM ->
  Forall (fun n => (String.length n < Z.to_nat MAX_TOKEN_LEN)%nat)
         (global_names ast) ->
  (compiler_analyze c).2 = true <-> NoDup (global_names ast).
Proof.
  intros Hast Hty Hshort. unfold compiler_analyze. rewrite Hast, Hty.
  pose proof (analyze_fold (children ast) symtab_create [] built_create
                eq_refl) as H.
  cbn [app] in H. unfold global_names in *. rewrite <- H; clear H.
  - unfold symtab_had_error.
    destruct (st_had_error (fold_left analyze_child (children ast)
                                      symtab_create));
      cbn [snd]; split; congruence.
  - intros n. split.
    + intros (chain & sym & Hchain & Hin & _). exfalso.
      cbn in Hchain. apply elem_of_replicate in Hchain as [-> _].
      inversion Hin.
    + intros Hin. inversion Hin.
  - apply NoDup_nil_2.
  - exact Hshort.
Qed.

Lemma compiler_analyze_rejects_duplicates_witness :
  let f := set_name (ast_create_node NODE_FUNCTION) "f" in
  let ast := ast_add_child
               (ast_add_child (ast_create_node NODE_PROGRAM) (Some f))
               (Some f) in
  let c := mk_compiler EmptyString "<stdin>" statics_at_start None None
                       (Some ast) None None false 0 EmptyString in
  (compiler_analyze c).2 = true <-> NoDup ["f"; "f"].
Proof.
  intros f ast c.
  apply (compiler_analyze_rejects_duplicates c ast eq_refl eq_refl).
  repeat constructor; vm_compute; lia.
Defined.

(** ** Fuel of the lexer and parser loops

    Every loop of the lexer takes at least one character per turn, and
    every turn of the loops of [advance] and [parser_synchronize] takes a
    token; the fuel they run on is never used up, and any larger fuel
    gives the same result. *)

Lemma reads_on_refl l : reads_on l l.
Proof. split; [reflexivity|lia]. Qed.

Lemma reads_on_trans l1 l2 l3 : reads_on l1 l2 -> reads_on l2 l3 -> reads_on l1 l3.
Proof. intros [? ?] [? ?]. split; [congruence|lia]. Qed.

Lemma lexer_advance_spec l :
  lx_length (lexer_advance l) = lx_length l
  /\ lx_pos (lexer_advance l)
     = (if lx_pos l <? lx_length l then lx_pos l + 1 else lx_pos l).
Proof.
  unfold lexer_advance.
  destruct (lx_pos l <? lx_length l); [|now split].
  destruct (char_is _ _); now split.
Qed.

Lemma lexer_advance_reads_on l : reads_on l (lexer_advance l).
Proof.
  destruct (lexer_advance_spec l) as [Hlen Hpos]. split; [exact Hlen|].
  rewrite Hpos. destruct (lx_pos l <? lx_length l); lia.
Qed.

Lemma remaining_advance l :
  lx_pos l < lx_length l ->
  (remaining (lexer_advance l) < remaining l)%nat.
Proof.
  intros H. destruct (lexer_advance_spec l) as [Hlen Hpos].
  unfold remaining. rewrite Hlen, Hpos.
  destruct (lx_pos l <? lx_length l) eqn:E; lia.
Qed.

Lemma remaining_reads_on l l' :
  reads_on l l' -> (remaining l' <= remaining l)%nat.
Proof. intros [Hlen Hpos]. unfold remaining. rewrite Hlen. lia. Qed.

Lemma lexer_current_in_range l :
  lexer_current l <> NUL -> lx_pos l < lx_length l.
Proof.
  unfold lexer_current. destruct (lx_pos l >=? lx_length l) eqn:E; [congruence|lia].
Qed.

(** skip_line_comment *)
Lemma skip_line_comment_loop_fuel f1 :
  forall f2 l, (remaining l < f1)%nat -> (remaining l < f2)%nat ->
  skip_line_comment_loop f1 l = skip_line_comment_loop f2 l.
Proof.
  induction f1 as [|f1 IH]; intros f2 l H1 H2; [lia|].
  destruct f2 as [|f2]; [lia|]. simpl.
  destruct (lx_pos l <? lx_length l) eqn:E; simpl; [|reflexivity].
  destruct (negb _); [|reflexivity].
  pose proof (remaining_advance l ltac:(lia)).
  apply IH; lia.
Qed.

Lemma skip_line_comment_loop_reads_on f :
  forall l, reads_on l (skip_line_comment_loop f l).
Proof.
  induction f as [|f IH]; intros l; simpl; [apply reads_on_refl|].
  destruct (_ && _); [|apply reads_on_refl].
  exact (reads_on_trans _ _ _ (lexer_advance_reads_on l) (IH _)).
Qed.

Lemma skip_whitespace_loop_fuel f1 :
  forall f2 l, (remaining l < f1)%nat -> (remaining l < f2)%nat ->
  skip_whitespace_loop f1 l = skip_whitespace_loop f2 l.
Proof.
  induction f1 as [|f1 IH]; intros f2 l H1 H2; [lia|].
  destruct f2 as [|f2]; [lia|]. simpl.
  destruct (lx_pos l <? lx_length l) eqn:E; [|reflexivity].
  destruct (is_space _); [|reflexivity].
  pose proof (remaining_advance l ltac:(lia)).
  apply IH; lia.
Qed.

Lemma lexer_error_reads_on l msg : reads_on l (lexer_error l msg).
Proof. split; simpl; [reflexivity|lia]. Qed.

Lemma skip_block_comment_loop_fuel f1 :
  forall f2 l, (remaining l < f1)%nat -> (remaining l < f2)%nat ->
  skip_block_comment_loop f1 l = skip_block_comment_loop f2 l.
Proof.
  induction f1 as [|f1 IH]; intros f2 l H1 H2; [lia|].
  destruct f2 as [|f2]; [lia|]. simpl.
  destruct (lx_pos l <? lx_length l) eqn:E; [|reflexivity].
  destruct (_ && _); [reflexivity|].
  pose proof (remaining_advance l ltac:(lia)).
  apply IH; lia.
Qed.

Lemma skip_block_comment_loop_reads_on f :
  forall l, reads_on l (skip_block_comment_loop f l).
Proof.
  induction f as [|f IH]; intros l; simpl; [apply reads_on_refl|].
  destruct (lx_pos l <? lx_length l); [|apply lexer_error_reads_on].
  destruct (_ && _).
  - exact (reads_on_trans _ _ _ (lexer_advance_reads_on l)
             (lexer_advance_reads_on _)).
  - exact (reads_on_trans _ _ _ (lexer_advance_reads_on l) (IH _)).
Qed.

Lemma reads_further_on l l' : reads_further l l' -> reads_on l l'.
Proof. intros [? ?]. split; [assumption|lia]. Qed.

Lemma reads_further_then l1 l2 l3 :
  reads_further l1 l2 -> reads_on l2 l3 -> reads_further l1 l3.
Proof. intros [? ?] [? ?]. split; [congruence|lia]. Qed.

Lemma reads_on_then_further l1 l2 l3 :
  reads_on l1 l2 -> reads_further l2 l3 -> reads_further l1 l3.
Proof. intros [? ?] [? ?]. split; [congruence|lia]. Qed.

Lemma lexer_advance_reads_further l :
  lx_pos l < lx_length l -> reads_further l (lexer_advance l).
Proof.
  intros H. destruct (lexer_advance_spec l) as [Hlen Hpos].
  split; [exact Hlen|]. rewrite Hpos.
  destruct (lx_pos l <? lx_length l) eqn:E; lia.
Qed.

Lemma remaining_reads_further l l' :
  lx_pos l < lx_length l -> reads_further l l' ->
  (remaining l' < remaining l)%nat.
Proof. intros H [Hlen Hpos]. unfold remaining. rewrite Hlen. lia. Qed.

Lemma skip_line_comment_reads_further l :
  lx_pos l < lx_length l -> lexer_current l <> "010"%char ->
  reads_further l (skip_line_comment l).
Proof.
  intros Hpos Hcur. unfold skip_line_comment. simpl.
  destruct (lx_pos l <? lx_length l) eqn:E; [|lia]. simpl.
  destruct (char_is (lexer_current l) "010") eqn:Hc.
  - apply Ascii.eqb_eq in Hc. contradiction.
  - simpl. exact (reads_further_then _ _ _ (lexer_advance_reads_further l Hpos)
                    (skip_line_comment_loop_reads_on _ _)).
Qed.

Lemma skip_block_comment_reads_further l :
  lx_pos l < lx_length l -> reads_further l (skip_block_comment l).
Proof.
  intros Hpos. unfold skip_block_comment.
  apply (reads_further_then _ (lexer_advance l));
    [now apply lexer_advance_reads_further|].
  exact (reads_on_trans _ _ _ (lexer_advance_reads_on _)
           (skip_block_comment_loop_reads_on _ _)).
Qed.

Lemma char_is_eq c d : char_is c d = true -> c = d.
Proof. apply Ascii.eqb_eq. Qed.

Lemma skip_whitespace_and_comments_loop_fuel f1 :
  forall f2 l, (remaining l < f1)%nat -> (remaining l < f2)%nat ->
  skip_whitespace_and_comments_loop f1 l
  = skip_whitespace_and_comments_loop f2 l.
Proof.
  induction f1 as [|f1 IH]; intros f2 l H1 H2; [lia|].
  destruct f2 as [|f2]; [lia|]. simpl.
  destruct (lx_pos l <? lx_length l) eqn:E; [|reflexivity].
  assert (lx_pos l < lx_length l) as Hpos by lia.
  destruct (is_space _).
  { pose proof (remaining_advance l Hpos). apply IH; lia. }
  destruct (char_is (lexer_current l) "/") eqn:Hslash; simpl; [|reflexivity].
  apply char_is_eq in Hslash.
  destruct (char_is (lexer_peek l) "/").
  { assert (lexer_current l <> "010"%char) as Hnl
      by (rewrite Hslash; discriminate).
    pose proof (remaining_reads_further _ _ Hpos
                  (skip_line_comment_reads_further l Hpos Hnl)).
    apply IH; lia. }
  destruct (char_is (lexer_peek l) "*"); [|reflexivity].
  pose proof (remaining_reads_further _ _ Hpos
                (skip_block_comment_reads_further l Hpos)).
  apply IH; lia.
Qed.

Lemma skip_whitespace_and_comments_loop_reads_on f :
  forall l, reads_on l (skip_whitespace_and_comments_loop f l).
Proof.
  induction f as [|f IH]; intros l; simpl; [apply reads_on_refl|].
  destruct (lx_pos l <? lx_length l) eqn:E; [|apply reads_on_refl].
  assert (lx_pos l < lx_length l) as Hpos by lia.
  destruct (is_space _).
  { exact (reads_on_trans _ _ _ (lexer_advance_reads_on l) (IH _)). }
  destruct (char_is (lexer_current l) "/"); simpl; [|apply reads_on_refl].
  destruct (char_is (lexer_peek l) "/").
  { refine (reads_on_trans _ _ _ _ (IH _)).
    apply skip_line_comment_loop_reads_on. }
  destruct (char_is (lexer_peek l) "*"); [|apply reads_on_refl].
  refine (reads_on_trans _ _ _ _ (IH _)).
  apply reads_further_on, skip_block_comment_reads_further, Hpos.
Qed.

Lemma read_identifier_loop_fuel f1 :
  forall f2 value l, (remaining l < f1)%nat -> (remaining l < f2)%nat ->
  read_identifier_loop f1 value l = read_identifier_loop f2 value l.
Proof.
  induction f1 as [|f1 IH]; intros f2 value l H1 H2; [lia|].
  destruct f2 as [|f2]; [lia|]. simpl.
  destruct (lx_pos l <? lx_length l) eqn:E; [|reflexivity].
  destruct (_ || _); [|reflexivity].
  pose proof (remaining_advance l ltac:(lia)).
  apply IH; lia.
Qed.

Lemma read_identifier_loop_reads_on f :
  forall value l, reads_on l (read_identifier_loop f value l).2.
Proof.
  induction f as [|f IH]; intros value l; simpl; [apply reads_on_refl|].
  destruct (lx_pos l <? lx_length l); [|apply reads_on_refl].
  destruct (_ || _); [|apply reads_on_refl].
  exact (reads_on_trans _ _ _ (lexer_advance_reads_on l) (IH _ _)).
Qed.

Lemma read_number_loop_fuel f1 :
  forall f2 is_hex is_binary value is_float l,
  (remaining l < f1)%nat -> (remaining l < f2)%nat ->
  read_number_loop f1 is_hex is_binary value is_float l
  = read_number_loop f2 is_hex is_binary value is_float l.
Proof.
  induction f1 as [|f1 IH]; intros f2 is_hex is_binary value is_float l H1 H2;
    [lia|].
  destruct f2 as [|f2]; [lia|]. simpl.
  destruct (lx_pos l <? lx_length l) eqn:E; simpl; [|reflexivity].
  destruct (str_len value <? MAX_TOKEN_LEN - 1); [|reflexivity].
  pose proof (remaining_advance l ltac:(lia)) as Hadv.
  pose proof (remaining_reads_on _ _ (lexer_advance_reads_on (lexer_advance l)))
    as Hadv2.
  destruct is_hex.
  { destruct (isxdigit _); [apply IH; lia|reflexivity]. }
  destruct is_binary.
  { destruct (_ || _); [apply IH; lia|reflexivity]. }
  destruct (isdigit _); [apply IH; lia|].
  destruct (_ && _ && _); [apply IH; lia|].
  destruct ((_ || _) && _); [|reflexivity].
  destruct (_ || _); apply IH; lia.
Qed.

Lemma read_number_loop_reads_on f :
  forall is_hex is_binary value is_float l,
  reads_on l (read_number_loop f is_hex is_binary value is_float l).2.
Proof.
  induction f as [|f IH]; intros is_hex is_binary value is_float l; simpl;
    [apply reads_on_refl|].
  destruct (_ && _); [|apply reads_on_refl].
  pose proof (lexer_advance_reads_on l) as Hadv.
  pose proof (reads_on_trans _ _ _ Hadv
                (lexer_advance_reads_on (lexer_advance l))) as Hadv2.
  destruct is_hex.
  { destruct (isxdigit _); [|apply reads_on_refl].
    exact (reads_on_trans _ _ _ Hadv (IH _ _ _ _ _)). }
  destruct is_binary.
  { destruct (_ || _); [|apply reads_on_refl].
    exact (reads_on_trans _ _ _ Hadv (IH _ _ _ _ _)). }
  destruct (isdigit _);
    [exact (reads_on_trans _ _ _ Hadv (IH _ _ _ _ _))|].
  destruct (_ && _ && _);
    [exact (reads_on_trans _ _ _ Hadv (IH _ _ _ _ _))|].
  destruct ((_ || _) && _); [|apply reads_on_refl].
  destruct (_ || _).
  - exact (reads_on_trans _ _ _ Hadv2 (IH _ _ _ _ _)).
  - exact (reads_on_trans _ _ _ Hadv (IH _ _ _ _ _)).
Qed.

Lemma is_number_suffix_in_range l :
  is_number_suffix (lexer_current l) = true -> lx_pos l < lx_length l.
Proof.
  intros H. apply lexer_current_in_range. intros Hnul. rewrite Hnul in H.
  discriminate.
Qed.

Lemma read_number_suffix_fuel f1 :
  forall f2 l, (remaining l < f1)%nat -> (remaining l < f2)%nat ->
  read_number_suffix f1 l = read_number_suffix f2 l.
Proof.
  induction f1 as [|f1 IH]; intros f2 l H1 H2; [lia|].
  destruct f2 as [|f2]; [lia|]. simpl.
  destruct (is_number_suffix _) eqn:E; [|reflexivity].
  pose proof (remaining_advance l (is_number_suffix_in_range l E)).
  apply IH; lia.
Qed.

Lemma read_number_suffix_reads_on f :
  forall l, reads_on l (read_number_suffix f l).
Proof.
  induction f as [|f IH]; intros l; simpl; [apply reads_on_refl|].
  destruct (is_number_suffix _); [|apply reads_on_refl].
  exact (reads_on_trans _ _ _ (lexer_advance_reads_on l) (IH _)).
Qed.

(** [reads_on l X] for [X] a chain of [lexer_advance] over [l]. *)
Ltac solve_reads :=
  repeat first
    [ apply reads_on_refl
    | apply lexer_advance_reads_on
    | eapply reads_on_trans; [|apply lexer_advance_reads_on] ].

Lemma read_escape_char_reads_further l :
  lx_pos l < lx_length l -> reads_further l (read_escape_char l).2.
Proof.
  intros Hpos. unfold read_escape_char.
  repeat match goal with
         | |- context [if ?c then _ else _] => destruct c
         end; simpl;
    (apply (reads_further_then _ (lexer_advance l));
     [now apply lexer_advance_reads_further|solve_reads]).
Qed.

Lemma make_error_token_lexer l msg : reads_on l (make_error_token l msg).2.
Proof. split; simpl; [reflexivity|lia]. Qed.

Lemma read_string_loop_fuel f1 :
  forall f2 value l, (remaining l < f1)%nat -> (remaining l < f2)%nat ->
  read_string_loop f1 value l = read_string_loop f2 value l.
Proof.
  induction f1 as [|f1 IH]; intros f2 value l H1 H2; [lia|].
  destruct f2 as [|f2]; [lia|]. simpl.
  destruct (lx_pos l <? lx_length l) eqn:E; simpl; [|reflexivity].
  assert (lx_pos l < lx_length l) as Hpos by lia.
  destruct (str_len value <? MAX_TOKEN_LEN - 1); [|reflexivity].
  destruct (char_is (lexer_current l) "034"); [reflexivity|].
  destruct (char_is (lexer_current l) "\").
  { pose proof (remaining_reads_further _ _ Hpos
                  (read_escape_char_reads_further l Hpos)) as Hesc.
    destruct (read_escape_char l) as [e l']. simpl in Hesc.
    apply IH; lia. }
  destruct (char_is (lexer_current l) "010"); [reflexivity|].
  pose proof (remaining_advance l Hpos). apply IH; lia.
Qed.

Lemma read_string_loop_reads_on f :
  forall value l,
  reads_on l (read_string_loop_lexer (read_string_loop f value l)).
Proof.
  induction f as [|f IH]; intros value l; simpl; [apply reads_on_refl|].
  destruct (lx_pos l <? lx_length l) eqn:E; simpl; [|apply reads_on_refl].
  assert (lx_pos l < lx_length l) as Hpos by lia.
  destruct (str_len value <? MAX_TOKEN_LEN - 1); [|apply reads_on_refl].
  destruct (char_is (lexer_current l) "034");
    [apply lexer_advance_reads_on|].
  destruct (char_is (lexer_current l) "\").
  { pose proof (reads_further_on _ _ (read_escape_char_reads_further l Hpos))
      as Hesc.
    destruct (read_escape_char l) as [e l']. simpl in Hesc.
    exact (reads_on_trans _ _ _ Hesc (IH _ _)). }
  destruct (char_is (lexer_current l) "010").
  { simpl. split; simpl; [reflexivity|lia]. }
  exact (reads_on_trans _ _ _ (lexer_advance_reads_on l) (IH _ _)).
Qed.

Lemma read_identifier_reads_further l :
  lx_pos l < lx_length l ->
  isalpha (lexer_current l) || char_is (lexer_current l) "_" = true ->
  reads_further l (read_identifier l).2.
Proof.
  intros Hpos Hc. unfold read_identifier.
  pose proof (read_identifier_loop_reads_on (remaining l)) as Hloop.
  simpl.
  destruct (lx_pos l <? lx_length l) eqn:E; [|lia].
  assert (isalnum (lexer_current l) || char_is (lexer_current l) "_" = true)
    as Hc'.
  { unfold isalnum. destruct (isalpha _); [reflexivity|].
    simpl in Hc. rewrite Hc. now destruct (isdigit _). }
  rewrite Hc'.
  match goal with
  | |- context [read_identifier_loop _ ?v ?l'] =>
      specialize (Hloop v l');
      destruct (read_identifier_loop (remaining l) v l') as [value l2]
  end.
  simpl in *.
  exact (reads_further_then _ _ _ (lexer_advance_reads_further l Hpos) Hloop).
Qed.

Lemma read_number_loop_first f value is_float l :
  lx_pos l < lx_length l ->
  str_len value < MAX_TOKEN_LEN - 1 ->
  isdigit (lexer_current l) = true
  \/ (char_is (lexer_current l) "." = true /\ is_float = false
      /\ isdigit (lexer_peek l) = true) ->
  reads_further l (read_number_loop (S f) false false value is_float l).2.
Proof.
  intros Hpos Hlen Hc. simpl.
  destruct (lx_pos l <? lx_length l) eqn:E; [|lia].
  destruct (str_len value <? MAX_TOKEN_LEN - 1) eqn:E'; [|lia]. simpl.
  pose proof (lexer_advance_reads_further l Hpos) as Hadv.
  destruct (isdigit (lexer_current l)) eqn:Hd.
  - exact (reads_further_then _ _ _ Hadv (read_number_loop_reads_on _ _ _ _ _ _)).
  - destruct Hc as [Hc|(Hdot & -> & Hpeek)]; [discriminate|].
    rewrite Hdot, Hpeek. simpl.
    exact (reads_further_then _ _ _ Hadv (read_number_loop_reads_on _ _ _ _ _ _)).
Qed.

Lemma read_number_reads_further l :
  lx_pos l < lx_length l ->
  isdigit (lexer_current l) = true
  \/ (char_is (lexer_current l) "." = true
      /\ isdigit (lexer_peek l) = true) ->
  reads_further l (read_number l).2.
Proof.
  intros Hpos Hc. unfold read_number.
  pose proof (lexer_advance_reads_further l Hpos) as Hadv.
  pose proof (reads_further_then _ _ _ Hadv
                (lexer_advance_reads_on (lexer_advance l))) as Hadv2.
  destruct (char_is (lexer_current l) "0") eqn:Hzero.
  - repeat match goal with
           | |- context [if ?c then (_, _) else _] => destruct c
           end;
    (destruct (read_number_loop _ _ _ _ _ _) as [[v' fl] l2'] eqn:Hloop;
     match type of Hloop with
     | read_number_loop ?f ?a ?b ?v ?c ?l1 = _ =>
         pose proof (read_number_loop_reads_on f a b v c l1) as H;
         rewrite Hloop in H
     end;
     cbn [snd] in H; cbn [snd];
     refine (reads_further_then _ _ _ _ (read_number_suffix_reads_on _ _));
     refine (reads_further_then _ _ _ _ H); assumption).
  - assert (str_len EmptyString < MAX_TOKEN_LEN - 1) as Hlen by reflexivity.
    assert (isdigit (lexer_current l) = true
            \/ (char_is (lexer_current l) "." = true /\ false = false
                /\ isdigit (lexer_peek l) = true)) as Hc'
      by (destruct Hc as [?|[? ?]]; [now left|now right]).
    pose proof (read_number_loop_first (remaining l) EmptyString false l
                  Hpos Hlen Hc') as Hloop.
    destruct (read_number_loop (S (remaining l)) false false EmptyString
                               false l) as [[v' fl] l2'].
    cbn [snd] in Hloop. cbn [snd].
    exact (reads_further_then _ _ _ Hloop (read_number_suffix_reads_on _ _)).
Qed.

Lemma read_string_reads_further l :
  lx_pos l < lx_length l -> reads_further l (read_string l).2.
Proof.
  intros Hpos. unfold read_string.
  pose proof (read_string_loop_reads_on (S (remaining (lexer_advance l)))
                EmptyString (lexer_advance l)) as Hloop.
  destruct (read_string_loop _ _ _) as [[t l2]|[v l2]]; simpl in *;
    exact (reads_further_then _ _ _ (lexer_advance_reads_further l Hpos) Hloop).
Qed.

Lemma read_char_reads_further l :
  lx_pos l < lx_length l -> reads_further l (read_char l).2.
Proof.
  intros Hpos. unfold read_char.
  pose proof (lexer_advance_reads_further l Hpos) as Hadv.
  assert (reads_on (lexer_advance l)
            (if char_is (lexer_current (lexer_advance l)) "\"
             then read_escape_char (lexer_advance l)
             else (lexer_current (lexer_advance l),
                   lexer_advance (lexer_advance l))).2) as H2.
  { destruct (char_is _ _); simpl; [|apply lexer_advance_reads_on].
    unfold read_escape_char.
    repeat match goal with
           | |- context [if ?c then _ else _] => destruct c
           end; simpl; solve_reads. }
  destruct (if char_is (lexer_current (lexer_advance l)) "\"
            then read_escape_char (lexer_advance l)
            else (lexer_current (lexer_advance l),
                  lexer_advance (lexer_advance l))) as [cv l2].
  simpl in H2.
  destruct (negb _); simpl.
  - exact (reads_further_then _ _ _ Hadv H2).
  - exact (reads_further_then _ _ _ Hadv
             (reads_on_trans _ _ _ H2 (lexer_advance_reads_on _))).
Qed.

(** The operator switch: every branch but [.digit] only reads on; the
    [.digit] branch steps back one character and reads a number. *)
Lemma lex_operator_reads_further l :
  lx_pos l < lx_length l ->
  reads_further l (lex_operator (lexer_current l) (lexer_advance l)).2.
Proof.
  intros Hpos.
  pose proof (lexer_advance_reads_further l Hpos) as Hadv.
  unfold lex_operator.
  destruct (char_is (lexer_current l) ".") eqn:Hdot.
  - rewrite (char_is_eq _ _ Hdot). cbn [char_is Ascii.eqb Bool.eqb]. cbv iota.
    destruct (isdigit (lexer_current (lexer_advance l))) eqn:Hdig.
    + set (back := mk_lexer _ _ _ _ _ _ _ _).
      assert (lx_pos back = lx_pos l /\ lx_length back = lx_length l
              /\ lx_source back = lx_source l) as (Bpos & Blen & Bsrc).
      { unfold back, lexer_advance.
        destruct (lx_pos l <? lx_length l) eqn:E; [|lia].
        destruct (char_is (source_at l (lx_pos l)) "010"); simpl;
          repeat split; first [reflexivity|lia]. }
      assert (lexer_current back = lexer_current l) as Bcur.
      { unfold lexer_current, source_at. now rewrite Bpos, Blen, Bsrc. }
      assert (lexer_peek back = lexer_current (lexer_advance l)) as Bpeek.
      { unfold lexer_peek, lexer_current, source_at.
        rewrite Bpos, Blen, Bsrc.
        destruct (lexer_advance_spec l) as [Alen Apos].
        rewrite Alen, Apos.
        destruct (lx_pos l <? lx_length l) eqn:E; [|lia].
        unfold lexer_advance. rewrite E.
        destruct (char_is (source_at l (lx_pos l)) "010"); reflexivity. }
      destruct (read_number_reads_further back) as [Rlen Rpos].
      * lia.
      * right. now rewrite Bcur, Bpeek.
      * split; [congruence|lia].
    + exact Hadv.
  - repeat match goal with
           | |- context [if ?c then _ else _] => destruct c
           end;
      try discriminate;
      cbn [snd make_error_token];
      first [ exact Hadv
            | exact (reads_further_then _ _ _ Hadv (lexer_advance_reads_on _))
            | exact (reads_further_then _ _ _ Hadv
                       (reads_on_trans _ _ _ (lexer_advance_reads_on _)
                                       (lexer_advance_reads_on _)))
            | exact (reads_further_then _ _ _ Hadv
                       (make_error_token_lexer _ _)) ].
Qed.

Lemma skip_whitespace_and_comments_reads_on l :
  reads_on l (skip_whitespace_and_comments l).
Proof. apply skip_whitespace_and_comments_loop_reads_on. Qed.

(** A scan either answers EOF or leaves fewer characters to read. *)
Lemma lexer_scan_cases l :
  (tok_type (lexer_scan l).1 = TOKEN_EOF
   /\ (remaining (lexer_scan l).2 <= remaining l)%nat)
  \/ (remaining (lexer_scan l).2 < remaining l)%nat.
Proof.
  unfold lexer_scan.
  pose proof (remaining_reads_on _ _ (skip_whitespace_and_comments_reads_on l))
    as Hskip.
  set (l1 := skip_whitespace_and_comments l) in *.
  destruct (lx_pos l1 >=? lx_length l1) eqn:E.
  { left. now split. }
  right.
  assert (lx_pos l1 < lx_length l1) as Hpos by lia.
  enough (reads_further l1
            (if isalpha (lexer_current l1) || char_is (lexer_current l1) "_"
             then read_identifier l1
             else if isdigit (lexer_current l1) then read_number l1
             else if char_is (lexer_current l1) "034" then read_string l1
             else if char_is (lexer_current l1) "'" then read_char l1
             else lex_operator (lexer_current l1) (lexer_advance l1)).2) as H.
  { pose proof (remaining_reads_further _ _ Hpos H). cbv zeta. lia. }
  destruct (isalpha (lexer_current l1) || char_is (lexer_current l1) "_")
    eqn:Hid; [now apply read_identifier_reads_further|].
  destruct (isdigit (lexer_current l1)) eqn:Hdig;
    [apply read_number_reads_further; [exact Hpos|now left]|].
  destruct (char_is (lexer_current l1) "034");
    [now apply read_string_reads_further|].
  destruct (char_is (lexer_current l1) "'");
    [now apply read_char_reads_further|].
  now apply lex_operator_reads_further.
Qed.

Lemma parser_error_at_tokens_bound p tok msg :
  tokens_bound (parser_error_at p tok msg) = tokens_bound p.
Proof. unfold parser_error_at. now destruct (p_panic_mode p). Qed.

Lemma parser_error_at_current p tok msg :
  p_current (parser_error_at p tok msg) = p_current p.
Proof. unfold parser_error_at. now destruct (p_panic_mode p). Qed.

(** One call of [lexer_next_token_ex]: EOF, or less is left. *)
Lemma next_token_cases l st :
  let r := lexer_next_token_ex l st in
  let left_after :=
    (remaining r.1.2 + (if has_unget r.2 then 1 else 0))%nat in
  let left_before := (remaining l + (if has_unget st then 1 else 0))%nat in
  (tok_type r.1.1 = TOKEN_EOF /\ (left_after <= left_before)%nat)
  \/ (left_after < left_before)%nat.
Proof.
  unfold lexer_next_token_ex.
  destruct (has_unget st) eqn:Hu; simpl.
  - right. lia.
  - pose proof (lexer_scan_cases l) as H.
    destruct (lexer_scan l) as [t l']. simpl in *. rewrite Hu.
    destruct H as [[? ?]|?]; [left; split; [assumption|lia]|right; lia].
Qed.

(** [advance]: enough fuel gives the same parser as any larger fuel. *)
Lemma advance_loop_fuel f1 :
  forall f2 p, (tokens_bound p < f1)%nat -> (tokens_bound p < f2)%nat ->
  advance_loop f1 p = advance_loop f2 p.
Proof.
  induction f1 as [|f1 IH]; intros f2 p H1 H2; [lia|].
  destruct f2 as [|f2]; [lia|].
  cbn [advance_loop].
  pose proof (next_token_cases (p_lexer p) (p_statics p)) as Hnext.
  destruct (lexer_next_token_ex (p_lexer p) (p_statics p)) as [[t l] st].
  cbn [fst snd] in Hnext. cbv zeta in Hnext.
  destruct (negb (token_type_eqb (tok_type t) TOKEN_ERROR)) eqn:Herr;
    [reflexivity|].
  apply IH; rewrite parser_error_at_tokens_bound;
    unfold tokens_bound in *; cbn [p_lexer p_statics];
    (destruct Hnext as [[Heof _]|Hlt];
     [rewrite Heof in Herr; discriminate|lia]).
Qed.

(** What [advance] leaves: the new current token is EOF, or less is left. *)
Lemma advance_loop_cases f :
  forall p, (tokens_bound p < f)%nat ->
  (tok_type (p_current (advance_loop f p)) = TOKEN_EOF
   /\ (tokens_bound (advance_loop f p) <= tokens_bound p)%nat)
  \/ (tokens_bound (advance_loop f p) < tokens_bound p)%nat.
Proof.
  induction f as [|f IH]; intros p Hf; [lia|].
  cbn [advance_loop].
  pose proof (next_token_cases (p_lexer p) (p_statics p)) as Hnext.
  destruct (lexer_next_token_ex (p_lexer p) (p_statics p)) as [[t l] st].
  cbn [fst snd] in Hnext. cbv zeta in Hnext.
  destruct (negb (token_type_eqb (tok_type t) TOKEN_ERROR)) eqn:Herr.
  - unfold tokens_bound. cbn [p_lexer p_statics p_current].
    unfold tokens_bound in Hf. exact Hnext.
  - cbn [p_current].
    set (p1 := parser_error_at _ _ _).
    assert (tokens_bound p1 < tokens_bound p)%nat as Hlt.
    { unfold p1. rewrite parser_error_at_tokens_bound.
      unfold tokens_bound in *; cbn [p_lexer p_statics].
      destruct Hnext as [[Heof _]|Hlt];
        [rewrite Heof in Herr; discriminate|lia]. }
    assert (tokens_bound p1 < f)%nat as Hf' by lia.
    destruct (IH p1 Hf') as [[Heof Hle]|Hlt'];
      [left; split; [exact Heof|lia]|right; lia].
Qed.

Lemma advance_cases p :
  (tok_type (p_current (advance p)) = TOKEN_EOF
   /\ (tokens_bound (advance p) <= tokens_bound p)%nat)
  \/ (tokens_bound (advance p) < tokens_bound p)%nat.
Proof.
  unfold advance.
  set (p0 := mk_parser _ _ _ _ _ _ _ _).
  assert (tokens_bound p0 = tokens_bound p) as <- by reflexivity.
  apply advance_loop_cases.
  unfold tokens_bound. cbn [p_lexer p_statics p0].
  destruct (has_unget (p_statics p)); lia.
Qed.

(** [advance] with any fuel above the bound. *)
Lemma advance_fuel f p :
  (tokens_bound p < f)%nat ->
  advance p
  = advance_loop f
      (mk_parser (p_lexer p) (p_statics p) (p_current p) (p_current p)
                 (p_had_error p) (p_panic_mode p) (p_error_msg p)
                 (p_filename p)).
Proof.
  intros Hf. unfold advance. apply advance_loop_fuel.
  - unfold tokens_bound. cbn [p_lexer p_statics].
    destruct (has_unget (p_statics p)); lia.
  - exact Hf.
Qed.

(** [parser_synchronize]: the loop stops within the bound. *)
Lemma parser_synchronize_loop_fuel f1 :
  forall f2 p, (tokens_bound p < f1)%nat -> (tokens_bound p < f2)%nat ->
  parser_synchronize_loop f1 p = parser_synchronize_loop f2 p.
Proof.
  induction f1 as [|f1 IH]; intros f2 p H1 H2; [lia|].
  destruct f2 as [|f2]; [lia|].
  cbn [parser_synchronize_loop].
  destruct (negb (token_type_eqb (tok_type (p_current p)) TOKEN_EOF));
    [|reflexivity].
  destruct (token_type_eqb (tok_type (p_previous p)) TOKEN_SEMICOLON);
    [reflexivity|].
  destruct (is_sync_token (tok_type (p_current p))); [reflexivity|].
  destruct (advance_cases p) as [[Heof _]|Hlt].
  - assert (forall f, parser_synchronize_loop f (advance p) = advance p) as Hstop.
    { intros [|f]; [reflexivity|]. cbn [parser_synchronize_loop].
      now rewrite Heof. }
    now rewrite !Hstop.
  - apply IH; lia.
Qed.

Lemma parser_synchronize_fuel f p :
  (tokens_bound p < f)%nat ->
  parser_synchronize p
  = parser_synchronize_loop f
      (mk_parser (p_lexer p) (p_statics p) (p_current p) (p_previous p)
                 (p_had_error p) false (p_error_msg p) (p_filename p)).
Proof.
  intros Hf. unfold parser_synchronize. apply parser_synchronize_loop_fuel.
  - unfold tokens_bound. cbn [p_lexer p_statics].
    destruct (has_unget (p_statics p)); lia.
  - exact Hf.
Qed.

(** ** Lexer: peek and positions *)

(** A second [peek] answers from the buffer and changes nothing. *)
Lemma peek_peek_same (l : lexer_t) (st : lexer_statics) :
  let '(t1, l1, st1) := lexer_peek_token_ex l st in
  lexer_peek_token_ex l1 st1 = (t1, l1, st1).
Proof.
  unfold lexer_peek_token_ex.
  destruct (has_peek st) eqn:Hpeek; simpl.
  - now rewrite Hpeek.
  - destruct (lexer_next_token_ex l st) as [[t l'] st']. reflexivity.
Qed.

(** [lexer_next_token_ex] never looks at the peek buffer: the token and
    the lexer it answers are the same whatever [has_peek] and [peek_buffer]
    hold. *)
Lemma next_token_ignores_peek (l : lexer_t) (st : lexer_statics)
    (buffer : token_t) (flag : bool) :
  (lexer_next_token_ex l
     (mk_statics buffer flag (unget_buffer st) (has_unget st))).1
  = (lexer_next_token_ex l st).1.
Proof.
  unfold lexer_next_token_ex. simpl.
  destruct (has_unget st); [reflexivity|].
  destruct (lexer_scan l). reflexivity.
Qed.

(** C2: on the source [a b], two successive peeks both return the token
    [a], and the call of next that follows returns the token [b]: the
    peeked token is not delivered by next. *)
Theorem peek_then_next_skips_token :
  let '(t1, l1, st1) :=
    lexer_peek_token_ex (lexer_init_ex "a b" "<stdin>") statics_at_start in
  let '(t2, l2, st2) := lexer_peek_token_ex l1 st1 in
  let '(t3, l3, st3) := lexer_next_token_ex l2 st2 in
  token_position t1 = ("a", 1, 1)
  /\ t2 = t1
  /\ token_position t3 = ("b", 1, 3)
  /\ t3 <> t1.
Proof. vm_compute. repeat split. discriminate. Qed.

(** An identifier token carries the position at which [read_identifier]
    starts. *)
Lemma read_identifier_position (l : lexer_t) :
  tok_line (read_identifier l).1 = lx_line l
  /\ tok_column (read_identifier l).1 = lx_column l.
Proof.
  unfold read_identifier.
  destruct (read_identifier_loop (S (remaining l)) EmptyString l).
  split; reflexivity.
Qed.

(** A one-character delimiter is stamped by [make_token] after the
    [lexer_advance] that consumed it: its column is one past the column of
    the character. *)
Lemma semicolon_token_position (l : lexer_t) :
  lx_pos l < lx_length l ->
  lexer_current l = ";"%char ->
  tok_type (lex_operator ";" (lexer_advance l)).1 = TOKEN_SEMICOLON
  /\ tok_line (lex_operator ";" (lexer_advance l)).1 = lx_line l
  /\ tok_column (lex_operator ";" (lexer_advance l)).1 = lx_column l + 1.
Proof.
  intros Hpos Hcur.
  unfold lexer_current in Hcur.
  destruct (lx_pos l >=? lx_length l) eqn:E; [lia|].
  unfold lexer_advance.
  destruct (lx_pos l <? lx_length l) eqn:E'; [|lia].
  rewrite Hcur. simpl. repeat split.
Qed.

(** C4: on the source [a + b] the identifiers carry the coordinates of
    their first character, and the operator [+], the third character of
    the line, carries column 4. *)
Theorem operator_token_column_is_past_token :
  String.get 2 "a + b" = Some "+"%char
  /\ map token_position
       (lexer_tokens 3 (lexer_init_ex "a + b" "<stdin>") statics_at_start).1.1
     = [("a", 1, 1); ("+", 1, 4); ("b", 1, 5)].
Proof. vm_compute. split; reflexivity. Qed.

(** ** Lexer: the tokens delivered *)

(** X13: [token_get_precedence] is positive exactly on the tokens that
    [token_is_binary_op] accepts and never above 10; the comparison
    operators have precedence 6 or 7; an assignment operator is neither a
    binary nor a unary operator. *)
Theorem precedence_is_of_binary_operators (t : token_type_t) :
  (0 < token_get_precedence t <-> token_is_binary_op t = true)
  /\ 0 <= token_get_precedence t <= 10
  /\ (token_is_comparison_op t = true ->
      6 <= token_get_precedence t <= 7)
  /\ (token_is_assignment_op t = true ->
      token_is_binary_op t = false /\ token_is_unary_op t = false).
Proof.
  destruct t; vm_compute; repeat split; intros; congruence.
Qed.

(** X12: for every token type to which [token_type_to_string] gives a
    spelling (not the name of a class of tokens, not UNKNOWN), lexing that
    spelling delivers one token of that type with that text, and then
    EOF. *)
Theorem token_name_lexes_back (t : token_type_t) (filename : string) :
  token_type_to_string t ∉ token_class_names ->
  let r := lexer_scan (lexer_init_ex (token_type_to_string t) filename) in
  tok_type r.1 = t
  /\ tok_value r.1 = token_type_to_string t
  /\ tok_line r.1 = 1
  /\ tok_type (lexer_scan r.2).1 = TOKEN_EOF.
Proof.
  intros Hname.
  destruct t;
    try (exfalso; apply Hname; unfold token_class_names; cbn;
         repeat first [left; reflexivity | right]; fail);
    vm_compute; repeat split.
Qed.

Lemma next_token_no_unget (l : lexer_t) (st : lexer_statics) :
  has_unget st = false ->
  lexer_next_token_ex l st = ((lexer_scan l).1, (lexer_scan l).2, st).
Proof.
  intros H. unfold lexer_next_token_ex. rewrite H.
  now destruct (lexer_scan l).
Qed.

(** The tokens of a lexer with nothing pushed back are those of the scans. *)
Lemma lexer_tokens_no_unget (n : nat) :
  forall l st st',
  has_unget st = false -> has_unget st' = false ->
  (lexer_tokens n l st).1 = (lexer_tokens n l st').1.
Proof.
  induction n as [|n IH]; intros l st st' H H'; [reflexivity|].
  cbn [lexer_tokens].
  rewrite (next_token_no_unget l st H), (next_token_no_unget l st' H').
  specialize (IH (lexer_scan l).2 st st' H H').
  destruct (lexer_tokens n _ st) as [[rest l2] st2].
  destruct (lexer_tokens n _ st') as [[rest' l2'] st2'].
  cbn in *. now injection IH as -> ->.
Qed.

(** X14: [lexer_init] clears the peek and push-back flags, so the tokens
    read after it do not depend on what was peeked or pushed back
    before. *)
Theorem lexer_init_forgets_push_back
    (source : string) (st st' : lexer_statics) (n : nat) :
  let '(l, s) := lexer_init source st in
  let '(l', s') := lexer_init source st' in
  (lexer_tokens n l s).1.1 = (lexer_tokens n l' s').1.1
  /\ has_peek s = false /\ has_unget s = false.
Proof.
  cbn. split; [|now split].
  f_equal. now apply lexer_tokens_no_unget.
Qed.

Lemma skip_at_end (l : lexer_t) :
  lx_length l <= lx_pos l -> skip_whitespace_and_comments l = l.
Proof.
  intros H. unfold skip_whitespace_and_comments.
  cbn [skip_whitespace_and_comments_loop].
  destruct (lx_pos l <? lx_length l) eqn:E; [lia|reflexivity].
Qed.

Lemma lexer_scan_at_end (l : lexer_t) :
  lx_length l <= lx_pos l ->
  lexer_scan l = (make_token l TOKEN_EOF EmptyString, l).
Proof.
  intros H. unfold lexer_scan. rewrite (skip_at_end l H).
  destruct (lx_pos l >=? lx_length l) eqn:E; [reflexivity|lia].
Qed.

Lemma lookup_keyword_not_eof (w : string) : lookup_keyword w <> TOKEN_EOF.
Proof.
  unfold lookup_keyword.
  assert (Forall (fun e => e.2 <> TOKEN_EOF) keywords) as Hall
    by (repeat constructor; discriminate).
  induction Hall as [|[k t] rest Ht _ IH]; cbn; [discriminate|].
  destruct (String.eqb k w); [exact Ht|exact IH].
Qed.

Lemma read_identifier_not_eof (l : lexer_t) :
  tok_type (read_identifier l).1 <> TOKEN_EOF.
Proof.
  unfold read_identifier.
  destruct (read_identifier_loop _ _ _) as [value l']. cbn.
  apply lookup_keyword_not_eof.
Qed.

Lemma read_number_not_eof (l : lexer_t) :
  tok_type (read_number l).1 <> TOKEN_EOF.
Proof.
  unfold read_number.
  destruct (if char_is (lexer_current l) "0" then _ else _)
    as [[[[value is_hex] is_binary] is_octal] l1].
  destruct (read_number_loop _ _ _ _ _ _) as [[v fl] l2]. cbn.
  destruct fl; discriminate.
Qed.

Lemma read_string_loop_error (f : nat) :
  forall value l t l2,
  read_string_loop f value l = inl (t, l2) -> tok_type t = TOKEN_ERROR.
Proof.
  induction f as [|f IH]; intros value l t l2 E; cbn in E; [discriminate|].
  destruct (_ && _); [|discriminate].
  destruct (char_is (lexer_current l) "034"); [discriminate|].
  destruct (char_is (lexer_current l) "\").
  { destruct (read_escape_char l) as [e l']. exact (IH _ _ _ _ E). }
  destruct (char_is (lexer_current l) "010").
  - now injection E as <- _.
  - exact (IH _ _ _ _ E).
Qed.

Lemma read_string_not_eof (l : lexer_t) :
  tok_type (read_string l).1 <> TOKEN_EOF.
Proof.
  unfold read_string.
  destruct (read_string_loop _ _ _) as [[t l2]|[v l2]] eqn:E; cbn.
  - rewrite (read_string_loop_error _ _ _ _ _ E). discriminate.
  - discriminate.
Qed.

Lemma read_char_not_eof (l : lexer_t) :
  tok_type (read_char l).1 <> TOKEN_EOF.
Proof.
  unfold read_char.
  destruct (if char_is _ _ then _ else _) as [cv l2].
  destruct (negb _); cbn; discriminate.
Qed.

Lemma lex_operator_not_eof (c : ascii) (l : lexer_t) :
  tok_type (lex_operator c l).1 <> TOKEN_EOF.
Proof.
  unfold lex_operator.
  repeat match goal with
         | |- context [if ?b then _ else _] => destruct b
         end;
    try (cbn; discriminate); apply read_number_not_eof.
Qed.

(** A scan answers EOF only at the end of the input. *)
Lemma lexer_scan_eof (l : lexer_t) :
  tok_type (lexer_scan l).1 = TOKEN_EOF ->
  lx_length (lexer_scan l).2 <= lx_pos (lexer_scan l).2
  /\ lexer_scan l
     = (make_token (lexer_scan l).2 TOKEN_EOF EmptyString, (lexer_scan l).2).
Proof.
  unfold lexer_scan.
  set (l1 := skip_whitespace_and_comments l).
  destruct (lx_pos l1 >=? lx_length l1) eqn:E.
  - intros _. cbn [fst snd]. split; [lia|reflexivity].
  - intros H. exfalso. revert H.
    repeat match goal with
           | |- context [if ?b then _ else _] => destruct b
           end.
    + apply read_identifier_not_eof.
    + apply read_number_not_eof.
    + apply read_string_not_eof.
    + apply read_char_not_eof.
    + apply lex_operator_not_eof.
Qed.

(** X8: with nothing pushed back, once [lexer_next_token_ex] has answered
    EOF the next call answers the same token and leaves the lexer and the
    statics as they are. *)
Theorem eof_is_absorbing (l : lexer_t) (st : lexer_statics) :
  has_unget st = false ->
  tok_type (lexer_next_token_ex l st).1.1 = TOKEN_EOF ->
  lexer_next_token_ex (lexer_next_token_ex l st).1.2
                      (lexer_next_token_ex l st).2
  = lexer_next_token_ex l st.
Proof.
  intros Hst. rewrite (next_token_no_unget l st Hst). cbn [fst snd].
  intros Heof. rewrite (next_token_no_unget _ st Hst).
  destruct (lexer_scan_eof l Heof) as [Hend Hscan].
  rewrite (lexer_scan_at_end _ Hend). cbn [fst snd].
  rewrite Hscan at 3 4. reflexivity.
Qed.

Lemma lexer_tokens_S (n : nat) (l : lexer_t) (st : lexer_statics) :
  has_unget st = false ->
  (lexer_tokens (S n) l st).1.1
  = (lexer_scan l).1 :: (lexer_tokens n (lexer_scan l).2 st).1.1.
Proof.
  intros H. cbn [lexer_tokens]. rewrite (next_token_no_unget l st H).
  now destruct (lexer_tokens n _ st) as [[rest l2] st2].
Qed.

(** X7: with nothing pushed back, the lexer delivers an EOF token after at
    most as many other tokens as there are characters left to read. *)
Theorem lexing_reaches_eof (l : lexer_t) (st : lexer_statics) :
  has_unget st = false ->
  exists (k : nat) (t : token_t),
    (k <= remaining l)%nat
    /\ (lexer_tokens (S k) l st).1.1 !! k = Some t
    /\ tok_type t = TOKEN_EOF.
Proof.
  intros Hst.
  remember (remaining l) as m eqn:Hm.
  revert l Hm. induction m as [m IH] using lt_wf_ind. intros l Hm.
  destruct (lexer_scan_cases l) as [[Heof _]|Hlt].
  - exists 0%nat, (lexer_scan l).1. split; [lia|]. split; [|exact Heof].
    now rewrite lexer_tokens_S.
  - destruct (IH (remaining (lexer_scan l).2) ltac:(lia) _ eq_refl)
      as (k & t & Hk & Hget & Heof).
    exists (S k), t. split; [lia|]. split; [|exact Heof].
    rewrite lexer_tokens_S by exact Hst. exact Hget.
Qed.

Lemma ident_start_facts (c : ascii) :
  ident_start c = true ->
  is_space c = false /\ char_is c "/" = false /\ ident_char c = true.
Proof.
  destruct c as [[] [] [] [] [] [] [] []]; vm_compute;
    intros H; try discriminate H; repeat split.
Qed.

Lemma ident_char_not_newline (c : ascii) :
  ident_char c = true -> char_is c "010" = false.
Proof.
  destruct c as [[] [] [] [] [] [] [] []]; vm_compute;
    intros H; try discriminate H; reflexivity.
Qed.

Lemma advanced_by_0 (l : lexer_t) : advanced_by l 0 = l.
Proof.
  destruct l. unfold advanced_by. cbn. f_equal; lia.
Qed.

Lemma advanced_by_add (l : lexer_t) (a b : Z) :
  advanced_by (advanced_by l a) b = advanced_by l (a + b).
Proof. unfold advanced_by. cbn. f_equal; lia. Qed.

Lemma lexer_advance_same_line (l : lexer_t) :
  lx_pos l < lx_length l ->
  char_is (lexer_current l) "010" = false ->
  lexer_advance l = advanced_by l 1.
Proof.
  intros Hpos Hc. unfold lexer_advance, lexer_current in *.
  destruct (lx_pos l <? lx_length l) eqn:E; [|lia].
  destruct (lx_pos l >=? lx_length l) eqn:E'; [lia|].
  now rewrite Hc.
Qed.

Lemma lexer_current_get (l : lexer_t) (c : ascii) :
  0 <= lx_pos l < lx_length l ->
  String.get (Z.to_nat (lx_pos l)) (lx_source l) = Some c ->
  lexer_current l = c.
Proof.
  intros Hpos Hget. unfold lexer_current, source_at.
  destruct (lx_pos l >=? lx_length l) eqn:E; [lia|]. now rewrite Hget.
Qed.

Lemma append_String (x : ascii) (a b : string) :
  String x a +:+ b = String x (a +:+ b).
Proof. reflexivity. Qed.

Lemma append_snoc (value : string) (c : ascii) (w : string) :
  str_snoc value c +:+ w = value +:+ String c w.
Proof.
  unfold str_snoc. induction value as [|x value IH]; [reflexivity|].
  now rewrite !append_String, IH.
Qed.

Lemma append_empty_r (s : string) : s +:+ EmptyString = s.
Proof.
  induction s as [|c s IH]; [reflexivity|].
  now rewrite append_String, IH.
Qed.

Lemma str_len_snoc (value : string) (c : ascii) :
  str_len (str_snoc value c) = str_len value + 1.
Proof.
  unfold str_len, str_snoc.
  induction value as [|x value IH]; [reflexivity|].
  rewrite append_String. cbn [String.length]. lia.
Qed.

Lemma read_identifier_loop_word (w : string) :
  forall (value : string) (l : lexer_t) (fuel : nat),
  0 <= lx_pos l ->
  lx_pos l + str_len w <= lx_length l ->
  (forall i ch, String.get i w = Some ch ->
     String.get (Z.to_nat (lx_pos l) + i) (lx_source l) = Some ch) ->
  string_forall ident_char w = true ->
  str_len value + str_len w < MAX_TOKEN_LEN ->
  lx_pos l + str_len w = lx_length l
  \/ ident_char (source_at l (lx_pos l + str_len w)) = false ->
  (String.length w < fuel)%nat ->
  read_identifier_loop fuel value l
  = (value +:+ w, advanced_by l (str_len w)).
Proof.
  induction w as [|ch w IH]; intros value l fuel Hpos Hlen Hget Hall Hfit
    Hend Hfuel; (destruct fuel as [|fuel]; [cbn in Hfuel; lia|]);
    cbn [read_identifier_loop].
  - rewrite append_empty_r. change (str_len EmptyString) with 0 in *.
    rewrite advanced_by_0, Z.add_0_r in *.
    destruct (lx_pos l <? lx_length l) eqn:E; [|reflexivity].
    destruct Hend as [Hend|Hend]; [lia|].
    unfold lexer_current.
    destruct (lx_pos l >=? lx_length l) eqn:E'; [lia|].
    fold (ident_char (source_at l (lx_pos l))). now rewrite Hend.
  - assert (str_len (String ch w) = 1 + str_len w) as Hw
      by (unfold str_len; cbn [String.length]; lia).
    rewrite Hw in *. unfold str_len in Hlen, Hfit.
    assert (lx_pos l < lx_length l) as Hin by (unfold str_len in *; lia).
    destruct (lx_pos l <? lx_length l) eqn:E; [|lia].
    assert (lexer_current l = ch) as Hc.
    { apply lexer_current_get; [lia|].
      specialize (Hget 0%nat ch eq_refl). now rewrite Nat.add_0_r in Hget. }
    rewrite Hc.
    cbn [string_forall] in Hall. apply andb_true_iff in Hall as [Hch Hall].
    fold (ident_char ch). rewrite Hch.
    destruct (str_len value <? MAX_TOKEN_LEN - 1) eqn:Hroom;
      [|unfold str_len in *; lia].
    rewrite lexer_advance_same_line;
      [|exact Hin|rewrite Hc; now apply ident_char_not_newline].
    rewrite (IH (str_snoc value ch) (advanced_by l 1) fuel).
    + now rewrite append_snoc, advanced_by_add.
    + cbn. lia.
    + cbn. unfold str_len in *. lia.
    + intros i c Hi. cbn [advanced_by lx_pos lx_source].
      specialize (Hget (S i) c Hi).
      replace (Z.to_nat (lx_pos l + 1) + i)%nat
        with (Z.to_nat (lx_pos l) + S i)%nat by lia.
      exact Hget.
    + exact Hall.
    + rewrite str_len_snoc. unfold str_len in *. lia.
    + cbn [advanced_by lx_pos lx_length]. unfold source_at in *.
      cbn [lx_source]. rewrite <- Z.add_assoc. exact Hend.
    + cbn in Hfuel. lia.
Qed.

Lemma get_Some_lt (w : string) :
  forall i c, String.get i w = Some c -> (i < String.length w)%nat.
Proof.
  induction w as [|x w IH]; intros i c H; [discriminate|].
  destruct i as [|i]; cbn in *; [lia|]. specialize (IH _ _ H). lia.
Qed.

Lemma substring_holds (s w : string) (n : nat) :
  String.substring n (String.length w) s = w ->
  forall i c, String.get i w = Some c -> String.get (n + i) s = Some c.
Proof.
  intros Hsub i c Hget.
  pose proof (get_Some_lt _ _ _ Hget) as Hlt.
  rewrite <- Hsub in Hget at 1.
  rewrite substring_correct1 in Hget by exact Hlt.
  now rewrite Nat.add_comm.
Qed.

(** X10: where the source holds, at the position of the lexer, a word of
    fewer than [MAX_TOKEN_LEN] letters, digits and underscores that does
    not start with a digit and is followed by the end of the input or by
    another kind of character, the scan delivers that whole word, typed by
    [lookup_keyword], stamped with the line and column of its first
    character, and leaves the lexer behind its last character on the same
    line. *)
Theorem identifier_is_lexed_whole (l : lexer_t) (c : ascii) (w : string) :
  0 <= lx_pos l ->
  lx_pos l + str_len (String c w) <= lx_length l ->
  String.substring (Z.to_nat (lx_pos l)) (String.length (String c w))
                   (lx_source l) = String c w ->
  ident_start c = true ->
  string_forall ident_char w = true ->
  str_len (String c w) < MAX_TOKEN_LEN ->
  lx_pos l + str_len (String c w) = lx_length l
  \/ ident_char (source_at l (lx_pos l + str_len (String c w))) = false ->
  lexer_scan l
  = (mk_token (lookup_keyword (String c w)) (String c w) (LitInt 0)
              (lx_line l) (lx_column l) (lx_filename l),
     advanced_by l (str_len (String c w))).
Proof.
  intros Hpos Hlen Hsub Hstart Hall Hfit Hend.
  pose proof (substring_holds _ _ _ Hsub) as Hget.
  destruct (ident_start_facts c Hstart) as (Hspace & Hslash & Hchar).
  assert (0 < str_len (String c w)) as Hw
    by (unfold str_len; cbn [String.length]; lia).
  assert (lexer_current l = c) as Hc.
  { apply lexer_current_get; [lia|].
    specialize (Hget 0%nat c eq_refl). now rewrite Nat.add_0_r in Hget. }
  assert (skip_whitespace_and_comments l = l) as Hskip.
  { unfold skip_whitespace_and_comments.
    cbn [skip_whitespace_and_comments_loop].
    destruct (lx_pos l <? lx_length l); [|reflexivity].
    now rewrite Hc, Hspace, Hslash. }
  unfold lexer_scan. rewrite Hskip.
  destruct (lx_pos l >=? lx_length l) eqn:E; [lia|].
  rewrite Hc. fold (ident_start c). rewrite Hstart.
  unfold read_identifier.
  rewrite (read_identifier_loop_word (String c w) EmptyString l).
  - reflexivity.
  - exact Hpos.
  - exact Hlen.
  - exact Hget.
  - cbn [string_forall]. now rewrite Hchar, Hall.
  - change (str_len EmptyString) with 0. lia.
  - exact Hend.
  - unfold remaining, str_len in *. lia.
Qed.

Lemma identifier_is_lexed_whole_witness :
  lexer_scan (lexer_init_ex "while1 (x)" "<stdin>")
  = (mk_token TOKEN_IDENTIFIER "while1" (LitInt 0) 1 1 "<stdin>",
     advanced_by (lexer_init_ex "while1 (x)" "<stdin>") 6).
Proof.
  apply (identifier_is_lexed_whole (lexer_init_ex "while1 (x)" "<stdin>")
           "w" "hile1"); try reflexivity; try (vm_compute; congruence).
  right. reflexivity.
Defined.

Lemma skip_step (l l1 : lexer_t) :
  (remaining l1 < remaining l)%nat ->
  skip_whitespace_and_comments_loop (remaining l) l1
  = skip_whitespace_and_comments l1.
Proof.
  intros H. unfold skip_whitespace_and_comments.
  apply skip_whitespace_and_comments_loop_fuel; lia.
Qed.

Lemma lexer_scan_after_skip (l l1 : lexer_t) :
  skip_whitespace_and_comments l = skip_whitespace_and_comments l1 ->
  lexer_scan l = lexer_scan l1.
Proof. intros H. unfold lexer_scan. now rewrite H. Qed.

(** X9: a blank, a line comment or a block comment in front changes nothing
    to the token that [lexer_scan] delivers nor to the lexer it leaves:
    scanning from before it is scanning from behind it. *)
Theorem blanks_and_comments_are_skipped (l : lexer_t) :
  lx_pos l < lx_length l ->
  (is_space (lexer_current l) = true ->
   lexer_scan l = lexer_scan (lexer_advance l))
  /\ (char_is (lexer_current l) "/" = true ->
      char_is (lexer_peek l) "/" = true ->
      lexer_scan l = lexer_scan (skip_line_comment l))
  /\ (char_is (lexer_current l) "/" = true ->
      char_is (lexer_peek l) "*" = true ->
      lexer_scan l = lexer_scan (skip_block_comment l)).
Proof.
  intros Hpos.
  assert (forall l1,
            skip_whitespace_and_comments_loop (S (remaining l)) l
            = skip_whitespace_and_comments_loop (remaining l) l1 ->
            (remaining l1 < remaining l)%nat ->
            lexer_scan l = lexer_scan l1) as Hstep.
  { intros l1 Heq Hlt. apply lexer_scan_after_skip.
    unfold skip_whitespace_and_comments at 1.
    now rewrite Heq, skip_step. }
  assert (forall c, char_is c "/" = true -> is_space c = false) as Hslash.
  { intros c Hc. apply Ascii.eqb_eq in Hc. now subst c. }
  split; [|split].
  - intros Hspace. apply Hstep; [|now apply remaining_advance].
    cbn [skip_whitespace_and_comments_loop].
    destruct (lx_pos l <? lx_length l) eqn:E; [|lia]. now rewrite Hspace.
  - intros Hc Hp. apply Hstep.
    + cbn [skip_whitespace_and_comments_loop].
      destruct (lx_pos l <? lx_length l) eqn:E; [|lia].
      now rewrite (Hslash _ Hc), Hc, Hp.
    + apply remaining_reads_further; [exact Hpos|].
      apply skip_line_comment_reads_further; [exact Hpos|].
      apply Ascii.eqb_eq in Hc. rewrite Hc. discriminate.
  - intros Hc Hp. apply Hstep.
    + cbn [skip_whitespace_and_comments_loop].
      destruct (lx_pos l <? lx_length l) eqn:E; [|lia].
      rewrite (Hslash _ Hc), Hc, Hp. cbn [andb].
      apply Ascii.eqb_eq in Hp. rewrite Hp. reflexivity.
    + apply remaining_reads_further; [exact Hpos|].
      now apply skip_block_comment_reads_further.
Qed.

(** X11: every entry of the keyword table is found by [lookup_keyword] (no entry
    is shadowed by an earlier one), and a word is an IDENTIFIER exactly
    when it is not a key of the table. *)
Theorem keyword_table_is_consistent :
  (forall k t, (k, t) ∈ keywords -> lookup_keyword k = t)
  /\ (forall w, lookup_keyword w = TOKEN_IDENTIFIER <-> w ∉ keywords.*1).
Proof.
  split.
  - intros k t Hin.
    assert (Forall (fun e => lookup_keyword e.1 = e.2) keywords) as Hall
      by (repeat constructor).
    exact (proj1 (Forall_forall _ _) Hall (k, t) Hin).
  - intros w. unfold lookup_keyword.
    assert (Forall (fun e => e.2 <> TOKEN_IDENTIFIER) keywords) as Hall
      by (repeat constructor; discriminate).
    induction Hall as [|[k t] rest Ht _ IH]; cbn [lookup_keyword_in fmap
      list_fmap fst].
    + split; [intros _; apply not_elem_of_nil|reflexivity].
    + destruct (String.eqb k w) eqn:E.
      * apply String.eqb_eq in E. subst k. split; [contradiction|].
        intros Hno. exfalso. apply Hno. left.
      * apply String.eqb_neq in E. rewrite IH. rewrite not_elem_of_cons.
        cbn. split; [now split|now intros [_ H]].
Qed.

Lemma token_name_lexes_back_witness :
  tok_type (lexer_scan (lexer_init_ex "<=" "<stdin>")).1 = TOKEN_LE
  /\ tok_value (lexer_scan (lexer_init_ex "<=" "<stdin>")).1 = "<=".
Proof.
  assert (token_type_to_string TOKEN_LE ∉ token_class_names) as Hname.
  { unfold token_class_names. rewrite !not_elem_of_cons.
    repeat split; try discriminate. apply not_elem_of_nil. }
  destruct (token_name_lexes_back TOKEN_LE "<stdin>" Hname) as (Ht & Hv & _).
  split; [exact Ht|exact Hv].
Defined.

Lemma eof_is_absorbing_witness :
  let first := lexer_next_token_ex (lexer_init_ex "x" "<stdin>")
                                   statics_at_start in
  let second := lexer_next_token_ex first.1.2 first.2 in
  lexer_next_token_ex second.1.2 second.2 = second.
Proof.
  intros first second.
  apply (eof_is_absorbing first.1.2 first.2); reflexivity.
Defined.

Lemma lexing_reaches_eof_witness :
  exists (k : nat) (t : token_t),
    (k <= 3)%nat
    /\ (lexer_tokens (S k) (lexer_init_ex "a b" "<stdin>")
                     statics_at_start).1.1 !! k = Some t
    /\ tok_type t = TOKEN_EOF.
Proof.
  exact (lexing_reaches_eof (lexer_init_ex "a b" "<stdin>") statics_at_start
           eq_refl).
Defined.

Lemma blanks_and_comments_are_skipped_witness :
  lexer_scan (lexer_init_ex " x" "<stdin>")
  = lexer_scan (lexer_advance (lexer_init_ex " x" "<stdin>")).
Proof.
  assert (lx_pos (lexer_init_ex " x" "<stdin>")
          < lx_length (lexer_init_ex " x" "<stdin>")) as Hpos by reflexivity.
  exact (proj1 (blanks_and_comments_are_skipped _ Hpos) eq_refl).
Defined.

(** ** Parser: tokens and error recovery *)

Lemma token_type_eqb_eq (a b : token_type_t) :
  token_type_eqb a b = true <-> a = b.
Proof.
  unfold token_type_eqb. rewrite Z.eqb_eq. split; [|now intros ->].
  destruct a; destruct b; intros H; first [reflexivity|discriminate H].
Qed.

Lemma token_type_eqb_neq (a b : token_type_t) :
  token_type_eqb a b = false <-> a <> b.
Proof.
  rewrite <- token_type_eqb_eq. destruct (token_type_eqb a b); split;
    congruence.
Qed.

Lemma parser_error_at_had_error p tok msg :
  p_had_error p = true -> p_had_error (parser_error_at p tok msg) = true.
Proof. unfold parser_error_at. now destruct (p_panic_mode p). Qed.

Lemma parser_error_at_previous p tok msg :
  p_previous (parser_error_at p tok msg) = p_previous p.
Proof. unfold parser_error_at. now destruct (p_panic_mode p). Qed.

(** What the loop of [advance] leaves, given fuel above the bound. *)
Lemma advance_loop_result (f : nat) :
  forall p, (tokens_bound p < f)%nat ->
  tok_type (p_current (advance_loop f p)) <> TOKEN_ERROR
  /\ p_previous (advance_loop f p) = p_previous p
  /\ (p_had_error p = true -> p_had_error (advance_loop f p) = true)
  /\ p_filename (advance_loop f p) = p_filename p.
Proof.
  induction f as [|f IH]; intros p Hf; [lia|].
  cbn [advance_loop].
  pose proof (next_token_cases (p_lexer p) (p_statics p)) as Hnext.
  destruct (lexer_next_token_ex (p_lexer p) (p_statics p)) as [[t l] st].
  cbn [fst snd] in Hnext. cbv zeta in Hnext.
  destruct (negb (token_type_eqb (tok_type t) TOKEN_ERROR)) eqn:Herr.
  - cbn [p_current p_previous p_had_error p_filename].
    repeat split; auto.
    apply negb_true_iff, token_type_eqb_neq in Herr. exact Herr.
  - cbn [p_current].
    set (p1 := parser_error_at _ _ _).
    assert (tokens_bound p1 < f)%nat as Hf'.
    { unfold p1. rewrite parser_error_at_tokens_bound.
      unfold tokens_bound in *; cbn [p_lexer p_statics].
      destruct Hnext as [[Heof _]|Hlt];
        [rewrite Heof in Herr; discriminate|lia]. }
    destruct (IH p1 Hf') as (H1 & H2 & H3 & H4).
    split; [exact H1|]. split; [|split].
    + rewrite H2. unfold p1. now rewrite parser_error_at_previous.
    + intros He. apply H3. unfold p1. now apply parser_error_at_had_error.
    + rewrite H4. unfold p1, parser_error_at.
      now destruct (p_panic_mode _).
Qed.

(** X15: [advance] never leaves an ERROR token as the current token; the
    token that was current becomes the previous one, and an error already
    recorded stays recorded. *)
Theorem advance_skips_error_tokens (p : parser_t) :
  tok_type (p_current (advance p)) <> TOKEN_ERROR
  /\ p_previous (advance p) = p_current p
  /\ (p_had_error p = true -> p_had_error (advance p) = true).
Proof.
  unfold advance.
  set (p0 := mk_parser _ _ _ _ _ _ _ _).
  destruct (advance_loop_result (S (S (remaining (p_lexer p)))) p0)
    as (H1 & H2 & H3 & _).
  { unfold tokens_bound, p0. cbn [p_lexer p_statics].
    destruct (has_unget (p_statics p)); lia. }
  split; [exact H1|]. split; [exact H2|exact H3].
Qed.

Lemma advance_had_error (p : parser_t) :
  p_had_error p = true -> p_had_error (advance p) = true.
Proof.
  unfold advance.
  set (p0 := mk_parser _ _ _ _ _ _ _ _).
  destruct (advance_loop_result (S (S (remaining (p_lexer p)))) p0)
    as (_ & _ & H3 & _); [|exact H3].
  unfold tokens_bound, p0. cbn [p_lexer p_statics].
  destruct (has_unget (p_statics p)); lia.
Qed.

Lemma parser_synchronize_loop_at_eof (f : nat) (p : parser_t) :
  tok_type (p_current p) = TOKEN_EOF -> parser_synchronize_loop f p = p.
Proof.
  intros H. destruct f as [|f]; [reflexivity|].
  cbn [parser_synchronize_loop]. now rewrite H.
Qed.

Lemma parser_synchronize_loop_result (f : nat) :
  forall p, (tokens_bound p < f)%nat ->
  at_sync_point (parser_synchronize_loop f p)
  /\ (p_had_error p = true ->
      p_had_error (parser_synchronize_loop f p) = true).
Proof.
  induction f as [|f IH]; intros p Hf; [lia|].
  cbn [parser_synchronize_loop].
  destruct (negb (token_type_eqb (tok_type (p_current p)) TOKEN_EOF)) eqn:Heof.
  2:{ apply negb_false_iff, token_type_eqb_eq in Heof.
      split; [now left|auto]. }
  destruct (token_type_eqb (tok_type (p_previous p)) TOKEN_SEMICOLON) eqn:Hsemi.
  { apply token_type_eqb_eq in Hsemi. split; [right; now left|auto]. }
  destruct (is_sync_token (tok_type (p_current p))) eqn:Hsync.
  { split; [right; now right|auto]. }
  destruct (advance_cases p) as [[Hend _]|Hlt].
  - rewrite (parser_synchronize_loop_at_eof _ _ Hend).
    split; [now left|apply advance_had_error].
  - destruct (IH (advance p) ltac:(lia)) as [Hstop Herr].
    split; [exact Hstop|].
    intros He. now apply Herr, advance_had_error.
Qed.

(** X16: [parser_synchronize] comes back at the end of the input, just
    behind a semicolon, or in front of one of [if while for return int
    void char float], and does not clear [had_error]. *)
Theorem parser_synchronize_stops_at_sync_point (p : parser_t) :
  at_sync_point (parser_synchronize p)
  /\ (p_had_error p = true -> p_had_error (parser_synchronize p) = true).
Proof.
  unfold parser_synchronize.
  set (p0 := mk_parser _ _ _ _ _ _ _ _).
  destruct (parser_synchronize_loop_result
              (S (S (remaining (p_lexer p)))) p0) as [Hstop Herr].
  { unfold tokens_bound, p0. cbn [p_lexer p_statics].
    destruct (has_unget (p_statics p)); lia. }
  split; [exact Hstop|exact Herr].
Qed.

Lemma parser_synchronize_had_error (p : parser_t) :
  p_had_error p = true -> p_had_error (parser_synchronize p) = true.
Proof.
  unfold parser_synchronize.
  set (p0 := mk_parser _ _ _ _ _ _ _ _).
  destruct (parser_synchronize_loop_result
              (S (S (remaining (p_lexer p)))) p0) as [_ Herr]; [|exact Herr].
  unfold tokens_bound, p0. cbn [p_lexer p_statics].
  destruct (has_unget (p_statics p)); lia.
Qed.

(** At a synchronisation point that is not the end of the input,
    [parser_synchronize] only clears the panic flag. *)
Lemma parser_synchronize_at_sync_point (p : parser_t) :
  tok_type (p_current p) <> TOKEN_EOF ->
  tok_type (p_previous p) = TOKEN_SEMICOLON
  \/ is_sync_token (tok_type (p_current p)) = true ->
  parser_synchronize p
  = mk_parser (p_lexer p) (p_statics p) (p_current p) (p_previous p)
              (p_had_error p) false (p_error_msg p) (p_filename p).
Proof.
  intros Hne Hstop. unfold parser_synchronize.
  cbn [parser_synchronize_loop p_current p_previous].
  apply token_type_eqb_neq in Hne. rewrite Hne. cbn [negb].
  destruct Hstop as [Hsemi|Hsync].
  - apply token_type_eqb_eq in Hsemi. now rewrite Hsemi.
  - destruct (token_type_eqb (tok_type (p_previous p)) TOKEN_SEMICOLON);
      [reflexivity|].
    now rewrite Hsync.
Qed.

(** X17: once [had_error] is set, [parser_parse_program] parses no further
    declaration: whenever its loop returns, the program node is the one it
    had and the input is at its end; and when the parser stands at a
    synchronisation point that is not the end of the input the loop does
    not return at all, because [parser_synchronize] does not move and the
    flag is never cleared. *)
Theorem parse_program_after_error (p : parser_t) :
  p_had_error p = true ->
  (forall fuel program ast p',
     parser_parse_program_loop fuel program p = Some (ast, p') ->
     ast = program /\ tok_type (p_current p') = TOKEN_EOF)
  /\ (tok_type (p_current p) <> TOKEN_EOF ->
      tok_type (p_previous p) = TOKEN_SEMICOLON
      \/ is_sync_token (tok_type (p_current p)) = true ->
      forall fuel program, parser_parse_program_loop fuel program p = None).
Proof.
  intros Herr. split.
  - intros fuel. revert p Herr.
    induction fuel as [|fuel IH]; intros p Herr program ast p' E;
      [discriminate|].
    cbn [parser_parse_program_loop] in E. unfold check in E.
    destruct (negb (token_type_eqb (tok_type (p_current p)) TOKEN_EOF))
      eqn:Heof.
    + rewrite Herr in E.
      exact (IH _ (parser_synchronize_had_error _ Herr) _ _ _ E).
    + injection E as <- <-. split; [reflexivity|].
      now apply negb_false_iff, token_type_eqb_eq in Heof.
  - intros Hne Hstop fuel. revert p Herr Hne Hstop.
    induction fuel as [|fuel IH]; intros p Herr Hne Hstop program;
      [reflexivity|].
    cbn [parser_parse_program_loop]. unfold check.
    pose proof Hne as Hne'. apply token_type_eqb_neq in Hne'.
    rewrite Hne', Herr. cbn [negb].
    rewrite (parser_synchronize_at_sync_point _ Hne Hstop).
    apply IH; assumption.
Qed.

Lemma parse_program_after_error_witness :
  parser_parse_program_loop 3 (ast_create_node NODE_PROGRAM)
    (parser_error
       (parser_init fresh_parser (lexer_init_ex "int x" "<stdin>")
                    statics_at_start)
       "Expected declaration")
  = None.
Proof.
  set (p := parser_error _ _).
  assert (p_had_error p = true) as Herr by (vm_compute; reflexivity).
  assert (tok_type (p_current p) <> TOKEN_EOF) as Hne
    by (vm_compute; discriminate).
  assert (tok_type (p_previous p) = TOKEN_SEMICOLON
          \/ is_sync_token (tok_type (p_current p)) = true) as Hstop
    by (right; vm_compute; reflexivity).
  exact (proj2 (parse_program_after_error p Herr) Hne Hstop 3%nat _).
Defined.

(** ** Types *)

Lemma data_type_eqb_eq (a b : data_type_t) :
  data_type_eqb a b = true <-> a = b.
Proof. destruct a, b; cbn; split; congruence. Qed.

Lemma array_sizes_equal_spec (n : nat) :
  forall xs ys, (n <= length xs)%nat -> (n <= length ys)%nat ->
  array_sizes_equal n xs ys = true <-> take n xs = take n ys.
Proof.
  induction n as [|n IH]; intros xs ys Hx Hy; [cbn; tauto|].
  destruct xs as [|x xs]; [cbn in Hx; lia|].
  destruct ys as [|y ys]; [cbn in Hy; lia|].
  cbn in *. rewrite andb_true_iff, Z.eqb_eq, IH by lia.
  split; [intros [-> ->]; reflexivity|intros [= -> ->]; now split].
Qed.

Lemma type_equal_spec (a b : type_info_t) :
  type_wf a -> type_wf b ->
  type_equal (Some a) (Some b) = true
  <-> base_type a = base_type b
      /\ pointer_depth a = pointer_depth b
      /\ array_dims a = array_dims b
      /\ take (Z.to_nat (array_dims a)) (array_sizes a)
         = take (Z.to_nat (array_dims a)) (array_sizes b).
Proof.
  intros [Hla Hda] [Hlb Hdb]. unfold type_equal.
  rewrite !andb_true_iff, data_type_eqb_eq, !Z.eqb_eq.
  split.
  - intros [[[H1 H2] H3] H4]. repeat split; try assumption.
    apply array_sizes_equal_spec in H4; [exact H4| |]; lia.
  - intros (H1 & H2 & H3 & H4). repeat split; try assumption.
    apply array_sizes_equal_spec; [| |exact H4]; lia.
Qed.

(** X18: [type_equal] is reflexive, symmetric and transitive on the
    descriptors that the constructors build; it looks neither at the
    qualifiers nor at the pointed-to type (any two pointer types are
    equal). *)
Theorem type_equal_is_an_equivalence (a b c : type_info_t) :
  type_wf a -> type_wf b -> type_wf c ->
  type_equal (Some a) (Some a) = true
  /\ type_equal (Some a) (Some b) = type_equal (Some b) (Some a)
  /\ (type_equal (Some a) (Some b) = true ->
      type_equal (Some b) (Some c) = true ->
      type_equal (Some a) (Some c) = true)
  /\ (forall q, type_equal (Some a) (Some (add_qualifier a q)) = true)
  /\ (forall p q, type_equal (Some (type_create_pointer p))
                             (Some (type_create_pointer q)) = true).
Proof.
  intros Ha Hb Hc.
  assert (forall x y, type_wf x -> type_wf y ->
          type_equal (Some x) (Some y) = true ->
          type_equal (Some y) (Some x) = true) as Hsym.
  { intros x y Hx Hy H. apply type_equal_spec in H as (H1 & H2 & H3 & H4);
      [|assumption..].
    apply type_equal_spec; [assumption..|].
    rewrite <- H3. now repeat split. }
  split; [|split; [|split; [|split]]].
  - apply type_equal_spec; [assumption..|]. now repeat split.
  - destruct (type_equal (Some a) (Some b)) eqn:E.
    + symmetry. now apply Hsym.
    + destruct (type_equal (Some b) (Some a)) eqn:E'; [|reflexivity].
      apply Hsym in E'; [congruence|assumption..].
  - intros Hab Hbc.
    apply type_equal_spec in Hab as (H1 & H2 & H3 & H4); [|assumption..].
    apply type_equal_spec in Hbc as (K1 & K2 & K3 & K4); [|assumption..].
    apply type_equal_spec; [assumption..|].
    rewrite <- H3 in K4. repeat split; congruence.
  - intros q. apply type_equal_spec; [assumption|exact Ha|].
    now repeat split.
  - intros p q. reflexivity.
Qed.

Lemma type_create_wf (base : data_type_t) : type_wf (type_create base).
Proof. split; [reflexivity|unfold MAX_ARRAY_DIMS; cbn; lia]. Qed.

Lemma fold_left_int_mul_snoc (xs : list Z) (n base : Z) :
  fold_left (fun size k => to_int32 (size * k)) (xs ++ [n])%list base
  = to_int32 (fold_left (fun size k => to_int32 (size * k)) xs base * n).
Proof. now rewrite fold_left_app. Qed.

(** X19: [type_create_array] over a type with fewer than [MAX_ARRAY_DIMS]
    dimensions adds one dimension, and the [type_size] of the result is the
    [int] product of the [type_size] of the element and the length: their
    product when it fits an [int], its 32-bit value when it does not; over
    a type that already has [MAX_ARRAY_DIMS] dimensions it returns a plain
    copy and the new dimension is lost. *)
Theorem type_create_array_size (t : type_info_t) (n : Z) :
  type_wf t ->
  (array_dims t < MAX_ARRAY_DIMS ->
   exists t', type_create_array (Some t) n = Some t'
              /\ type_wf t'
              /\ array_dims t' = array_dims t + 1
              /\ type_size (Some t') = to_int32 (type_size (Some t) * n)
              /\ (- 2 ^ 31 <= type_size (Some t) * n < 2 ^ 31 ->
                  type_size (Some t') = type_size (Some t) * n))
  /\ (array_dims t = MAX_ARRAY_DIMS ->
      type_create_array (Some t) n = Some t).
Proof.
  intros [Hlen Hdims]. unfold type_create_array, type_copy. split.
  - intros Hroom.
    destruct (array_dims t <? MAX_ARRAY_DIMS) eqn:E; [|lia].
    eexists. split; [reflexivity|]. unfold MAX_ARRAY_DIMS in *.
    split; [|split; [reflexivity|]].
    + unfold type_wf, MAX_ARRAY_DIMS. cbn [array_sizes array_dims].
      split; [now rewrite length_insert|lia].
    + assert (type_size
                (Some (mk_type_info (base_type t) (qualifiers t)
                         (pointer_depth t) (array_dims t + 1)
                         (<[Z.to_nat (array_dims t) := n]> (array_sizes t))
                         (struct_name t) (pointed_type t) (return_type t)
                         (num_params t) (param_types t)))
              = to_int32 (type_size (Some t) * n)) as Hsize.
      { unfold type_size. cbn [array_dims array_sizes base_type].
        replace (Z.to_nat (array_dims t + 1))
          with (S (Z.to_nat (array_dims t))) by lia.
        rewrite (take_S_r _ _ n).
        - rewrite take_insert_ge by lia. apply fold_left_int_mul_snoc.
        - apply list_lookup_insert_eq. lia. }
      split; [exact Hsize|].
      intros Hfits. rewrite Hsize. now apply to_int32_small.
  - intros Hfull.
    destruct (array_dims t <? MAX_ARRAY_DIMS) eqn:E; [lia|reflexivity].
Qed.

Lemma array_sizes_equal_sym (n : nat) :
  forall xs ys, array_sizes_equal n xs ys = array_sizes_equal n ys xs.
Proof.
  induction n as [|n IH]; intros xs ys; [reflexivity|].
  destruct xs as [|x xs], ys as [|y ys]; try reflexivity.
  cbn. now rewrite IH, Z.eqb_sym.
Qed.

Lemma type_equal_sym (a b : option type_info_t) :
  type_equal a b = type_equal b a.
Proof.
  destruct a as [a|], b as [b|]; try reflexivity. unfold type_equal.
  assert (data_type_eqb (base_type a) (base_type b)
          = data_type_eqb (base_type b) (base_type a)) as ->
    by (destruct (base_type a), (base_type b); reflexivity).
  rewrite (Z.eqb_sym (pointer_depth a)), (Z.eqb_sym (array_dims a)).
  rewrite (array_sizes_equal_sym _ (array_sizes a)).
  destruct (array_dims b =? array_dims a) eqn:E;
    [|now rewrite !andb_false_r].
  apply Z.eqb_eq in E. now rewrite E.
Qed.

(** X20: [type_compatible] accepts equal types and any two of int, char and
    short; when it returns for both orders of its arguments the answers
    agree; with a NULL first argument and another second one it does not
    return (it reads [a->base_type]); with a NULL second argument and
    another first one it does not return when the first is an int, a char,
    a short or a pointer (then it reads [b->base_type]) and answers false
    for every other first argument, whose tests fail before [b] is
    read. *)
Theorem type_compatible_agrees_both_ways (a b : option type_info_t) :
  (type_equal a b = true -> type_compatible a b = Some true)
  /\ (forall x y, type_compatible a b = Some x ->
                  type_compatible b a = Some y -> x = y)
  /\ (forall ta tb, a = Some ta -> b = Some tb ->
      is_small_integer (base_type ta) = true ->
      is_small_integer (base_type tb) = true ->
      type_compatible a b = Some true)
  /\ (forall tb, a = None -> b = Some tb -> type_compatible a b = None)
  /\ (forall ta, a = Some ta -> b = None ->
      type_compatible a b
      = if is_small_integer (base_type ta)
           || data_type_eqb (base_type ta) TYPE_POINTER
        then None else Some false).
Proof.
  split; [|split; [|split; [|split]]].
  - intros H. unfold type_compatible. now rewrite H.
  - intros x y. unfold type_compatible.
    rewrite (type_equal_sym b a).
    destruct (type_equal a b); [congruence|].
    destruct a as [ta|]; [|discriminate].
    destruct b as [tb|]; [|intros _; discriminate].
    cbn [mbind option_bind].
    destruct (base_type ta), (base_type tb);
      cbn [is_small_integer data_type_eqb mbind option_bind]; try congruence.
    destruct (pointed_type ta) as [pa|], (pointed_type tb) as [pb|];
      cbn [mbind option_bind]; try discriminate.
    destruct (data_type_eqb (base_type pa) TYPE_VOID),
             (data_type_eqb (base_type pb) TYPE_VOID); congruence.
  - intros ta tb -> -> Ha Hb. unfold type_compatible.
    destruct (type_equal _ _); [reflexivity|].
    cbn [mbind option_bind]. now rewrite Ha, Hb.
  - intros tb -> ->. reflexivity.
  - intros ta -> ->. unfold type_compatible. cbn [type_equal mbind option_bind].
    destruct (base_type ta); reflexivity.
Qed.

Lemma type_equal_is_an_equivalence_witness :
  type_equal (Some (type_create TYPE_INT)) (Some (type_create TYPE_INT)) = true
  /\ type_equal (Some (type_create TYPE_INT)) (Some (type_create TYPE_CHAR))
     = type_equal (Some (type_create TYPE_CHAR)) (Some (type_create TYPE_INT)).
Proof.
  destruct (type_equal_is_an_equivalence
              (type_create TYPE_INT) (type_create TYPE_CHAR)
              (type_create TYPE_INT) (type_create_wf _) (type_create_wf _)
              (type_create_wf _)) as (Hrefl & Hsym & _).
  split; [exact Hrefl|exact Hsym].
Defined.

Lemma type_create_array_size_witness :
  (exists t',
     type_create_array (Some (type_create TYPE_INT)) 10 = Some t'
     /\ type_wf t'
     /\ array_dims t' = 0 + 1
     /\ type_size (Some t') = 4 * 10)
  /\ type_size (type_create_array
                  (type_create_array (Some (type_create TYPE_INT)) 65536)
                  65536)
     = 0.
Proof.
  assert (array_dims (type_create TYPE_INT) < MAX_ARRAY_DIMS) as Hroom
    by reflexivity.
  destruct (proj1 (type_create_array_size (type_create TYPE_INT) 10
                     (type_create_wf _)) Hroom)
    as (t' & Hcreate & Hwf & Hdims & _ & Hsize).
  split; [|vm_compute; reflexivity].
  exists t'. split; [exact Hcreate|]. split; [exact Hwf|].
  split; [exact Hdims|]. apply Hsize. vm_compute.
  split; [discriminate|reflexivity].
Defined.

Lemma type_compatible_agrees_both_ways_witness :
  type_compatible (Some (type_create TYPE_CHAR)) (Some (type_create TYPE_INT))
  = Some true
  /\ type_compatible None (Some (type_create TYPE_INT)) = None
  /\ type_compatible (Some (type_create TYPE_INT)) None = None
  /\ type_compatible (Some (type_create TYPE_FLOAT)) None = Some false.
Proof.
  split; [|split; [|split]].
  - exact (proj1 (proj2 (proj2 (type_compatible_agrees_both_ways
                                  (Some (type_create TYPE_CHAR))
                                  (Some (type_create TYPE_INT)))))
             _ _ eq_refl eq_refl eq_refl eq_refl).
  - exact (proj1 (proj2 (proj2 (proj2 (type_compatible_agrees_both_ways
                                         None (Some (type_create TYPE_INT))))))
             _ eq_refl eq_refl).
  - exact (proj2 (proj2 (proj2 (proj2 (type_compatible_agrees_both_ways
                                         (Some (type_create TYPE_INT)) None))))
             _ eq_refl eq_refl).
  - exact (proj2 (proj2 (proj2 (proj2 (type_compatible_agrees_both_ways
                                         (Some (type_create TYPE_FLOAT)) None))))
             _ eq_refl eq_refl).
Defined.

(** ** End-to-end scenarios *)

Lemma compile_if_else (k : nat) :
  option_map (option_map listing)
    (compile (22 + k) src_if_else statics_at_start)
  = Some (Some listing_if_else).
Proof. vm_compute. reflexivity. Qed.

Lemma compile_if_else_cases (fuel : nat) :
  compile fuel src_if_else statics_at_start = None
  \/ option_map (option_map listing)
       (compile fuel src_if_else statics_at_start)
     = Some (Some listing_if_else).
Proof.
  do 22 (destruct fuel as [|fuel]; [left; vm_compute; reflexivity|]).
  right. apply (compile_if_else fuel).
Qed.

(** C1, as stated: no amount of fuel makes the compiler emit the listing
    with [JZ 5]. *)
Lemma if_else_expected_listing_not_emitted :
  ~ exists fuel,
      option_map (option_map listing)
        (compile fuel src_if_else statics_at_start)
      = Some (Some listing_if_else_expected).
Proof.
  intros [fuel H].
  destruct (compile_if_else_cases fuel) as [E|E]; rewrite E in H; discriminate.
Qed.

(** C1, amended: the compiler emits NOP 0; PUSH 1; JZ 6; PUSH 2; RET 0;
    JMP 8; PUSH 3; RET 0; PUSH 0; RET 0; HALT 0 for the if-else source: the
    JZ of the condition is patched to 6, the first instruction of the
    else branch, and the JMP that closes the then branch to 8. *)
Theorem if_else_listing (k : nat) :
  option_map (option_map listing)
    (compile (22 + k) src_if_else statics_at_start)
  = Some (Some listing_if_else)
  /\ listing_if_else !! 2%nat = Some (OP_JZ, 6)
  /\ listing_if_else !! 6%nat = Some (OP_PUSH, 3).
Proof. split; [apply compile_if_else|split; reflexivity]. Qed.

Lemma two_functions_compiled (k : nat) :
  two_functions_outcome (22 + k)
  = Some (Some 0, Some 0, Some listing_two_functions).
Proof. vm_compute. reflexivity. Qed.

Lemma two_functions_cases (fuel : nat) :
  two_functions_outcome fuel = None
  \/ two_functions_outcome fuel
     = Some (Some 0, Some 0, Some listing_two_functions).
Proof.
  do 22 (destruct fuel as [|fuel]; [left; vm_compute; reflexivity|]).
  right. apply (two_functions_compiled fuel).
Qed.

(** C3, as stated: no run of the compiler gives [a] and [b] distinct
    offsets. *)
Lemma two_functions_offsets_not_distinct :
  ~ exists fuel offset_a offset_b code,
      two_functions_outcome fuel = Some (Some offset_a, Some offset_b, code)
      /\ offset_a <> offset_b.
Proof.
  intros (fuel & oa & ob & code & H & Hne).
  destruct (two_functions_cases fuel) as [E|E]; rewrite E in H;
    [discriminate|].
  injection H as <- <- _. now apply Hne.
Qed.

(** C3, amended: after the driver has populated the global scope, [a] and
    [b] both have offset 0 (a function does not advance [next_offset]),
    and the body of [b] emits CALL 0, the offset of [a]. *)
Theorem two_functions_offsets_and_call (k : nat) :
  two_functions_outcome (22 + k)
  = Some (Some 0, Some 0, Some listing_two_functions)
  /\ listing_two_functions !! 4%nat = Some (OP_CALL, 0).
Proof. split; [apply two_functions_compiled|reflexivity]. Qed.

(** ** Code generator: jump targets *)

(** Induction on a node with the hypothesis for the three named children
    and for every member of the child list. *)
Lemma ast_node_ind_nested (P : ast_node_t -> Prop) :
  (forall n,
      (forall c, node_left n = Some c -> P c) ->
      (forall c, node_right n = Some c -> P c) ->
      (forall c, node_extra n = Some c -> P c) ->
      Forall P (children n) -> P n) ->
  forall n, P n.
Proof.
  intros H. fix IH 1. intros [ty dt v nm op l r e ch lv].
  apply H; simpl.
  - destruct l as [c'|]; intros c Hc; [|discriminate].
    injection Hc as <-. apply IH.
  - destruct r as [c'|]; intros c Hc; [|discriminate].
    injection Hc as <-. apply IH.
  - destruct e as [c'|]; intros c Hc; [|discriminate].
    injection Hc as <-. apply IH.
  - revert ch. fix IHch 1. intros [|c ch]; constructor.
    + apply IH.
    + apply IHch.
Qed.

Lemma same_context_refl (gen : codegen_t) : same_context gen gen.
Proof. unfold same_context. repeat split; lia. Qed.

Lemma same_context_trans (g1 g2 g3 : codegen_t) :
  same_context g1 g2 -> same_context g2 g3 -> same_context g1 g3.
Proof.
  unfold same_context. intros (?&?&?&?) (?&?&?&?).
  repeat split; try congruence; lia.
Qed.

Lemma step_ok_refl (gen : codegen_t) : step_ok gen gen.
Proof. intros H. split; [exact H|apply same_context_refl]. Qed.

Lemma step_ok_trans (g1 g2 g3 : codegen_t) :
  step_ok g1 g2 -> step_ok g2 g3 -> step_ok g1 g3.
Proof.
  intros H12 H23 H1. destruct (H12 H1) as [H2 C12].
  destruct (H23 H2) as [H3 C23]. split; [exact H3|].
  exact (same_context_trans _ _ _ C12 C23).
Qed.

Lemma jump_in_range_mono (n m : Z) (i : instruction_t) :
  n <= m -> jump_in_range n i -> jump_in_range m i.
Proof. unfold jump_in_range. intros Hnm H Hj. specialize (H Hj). lia. Qed.

Lemma count_emit (gen : codegen_t) op arg :
  count (code (codegen_emit gen op arg)) = count (code gen) + 1.
Proof.
  unfold codegen_emit, count. simpl. rewrite length_app. simpl. lia.
Qed.

(** Emitting an instruction keeps the invariant when the instruction is no
    jump, or a jump to an address up to the new count. *)
Lemma emit_step_ok (gen : codegen_t) op arg :
  (is_jump op = true -> 0 <= arg <= count (code gen) + 1) ->
  step_ok gen (codegen_emit gen op arg).
Proof.
  intros Harg (Hjumps & Hbreak & Hcont).
  pose proof (count_emit gen op arg) as Hcount.
  split.
  - unfold gen_inv. rewrite Hcount. split; [|simpl; lia].
    unfold codegen_emit. simpl. apply Forall_app. split.
    + eapply Forall_impl; [exact Hjumps|].
      intros i. apply jump_in_range_mono. lia.
    + constructor; [|constructor]. exact Harg.
  - unfold same_context. rewrite Hcount. simpl. repeat split; lia.
Qed.

Lemma emit_plain_step_ok (gen : codegen_t) op arg :
  is_jump op = false -> step_ok gen (codegen_emit gen op arg).
Proof. intros H. apply emit_step_ok. rewrite H. discriminate. Qed.

Lemma count_patch_jump (gen : codegen_t) index target :
  count (code (codegen_patch_jump gen index target)) = count (code gen).
Proof.
  unfold codegen_patch_jump, count.
  destruct ((index >=? 0) && (index <? _)); simpl; [|reflexivity].
  now rewrite length_alter.
Qed.

(** Patching any instruction with an address up to the count keeps the
    invariant. *)
Lemma patch_jump_step_ok (gen : codegen_t) index target :
  0 <= target <= count (code gen) ->
  step_ok gen (codegen_patch_jump gen index target).
Proof.
  intros Htarget (Hjumps & Hbreak & Hcont).
  pose proof (count_patch_jump gen index target) as Hcount.
  split.
  - unfold gen_inv. rewrite Hcount.
    unfold codegen_patch_jump in *.
    destruct ((index >=? 0) && (index <? count (code gen))); simpl;
      [|now repeat split].
    split; [|split; assumption].
    apply Forall_lookup. intros j i Hj.
    rewrite list_lookup_alter in Hj. case_decide as Hij.
    + destruct (instructions (code gen) !! Z.to_nat index) as [old|];
        simpl in Hj; [|discriminate].
      injection Hj as <-. intros _. exact Htarget.
    + exact (proj1 (Forall_lookup _ _) Hjumps j i Hj).
  - unfold same_context. rewrite Hcount.
    unfold codegen_patch_jump.
    destruct ((index >=? 0) && (index <? count (code gen))); simpl;
      repeat split; lia.
Qed.

Lemma set_label_at_step_ok (gen : codegen_t) (index : nat) (text : string) :
  step_ok gen
    (set_code gen
       (mk_code_buffer
          (alter (fun i => set_label i text) index (instructions (code gen)))
          (capacity (code gen)) (label_counter (code gen)))).
Proof.
  intros (Hjumps & Hbreak & Hcont).
  assert (forall l : list instruction_t,
            Z.of_nat (length (alter (fun i => set_label i text) index l))
            = Z.of_nat (length l)) as Hlen
    by (intros l; now rewrite length_alter).
  unfold gen_inv, same_context, count in *. simpl. rewrite Hlen.
  repeat split; try assumption; try lia.
  apply Forall_lookup. intros j i Hj.
  rewrite list_lookup_alter in Hj. case_decide as Hij.
  - destruct (instructions (code gen) !! index) as [old|] eqn:Hold;
      simpl in Hj; [|discriminate].
    injection Hj as <-.
    exact (proj1 (Forall_lookup _ _) Hjumps _ _ Hold).
  - exact (proj1 (Forall_lookup _ _) Hjumps j i Hj).
Qed.

Lemma emit_label_step_ok (gen : codegen_t) text :
  step_ok gen (codegen_emit_label gen text).
Proof.
  unfold codegen_emit_label.
  destruct (count (code (codegen_emit gen OP_NOP 0)) >? 0).
  - apply (step_ok_trans _ (codegen_emit gen OP_NOP 0)).
    + now apply emit_plain_step_ok.
    + apply set_label_at_step_ok.
  - apply emit_plain_step_ok. reflexivity.
Qed.

Lemma new_label_step_ok (gen : codegen_t) :
  step_ok gen (codegen_new_label gen).2.
Proof.
  intros H. split; [exact H|]. unfold same_context, count. simpl.
  repeat split. lia.
Qed.

Lemma error_step_ok (gen : codegen_t) message :
  step_ok gen (codegen_error gen message).
Proof.
  intros H. split; [exact H|]. unfold same_context. simpl.
  repeat split. lia.
Qed.

Lemma on_node_steps_ok (f : ast_node_t -> codegen_t -> option codegen_t)
    (node : option ast_node_t) :
  (forall c, node = Some c -> steps_ok (f c)) ->
  steps_ok (on_node f node).
Proof.
  intros H gen gen' E. destruct node as [c|]; simpl in E.
  - exact (H c eq_refl gen gen' E).
  - injection E as <-. apply step_ok_refl.
Qed.

Lemma for_children_steps_ok (f : ast_node_t -> codegen_t -> option codegen_t)
    (nodes : list ast_node_t) :
  Forall (fun c => steps_ok (f c)) nodes ->
  steps_ok (for_children f nodes).
Proof.
  induction 1 as [|c rest Hc Hrest IH]; intros gen gen' E; simpl in E.
  - injection E as <-. apply step_ok_refl.
  - destruct (f c gen) as [g1|] eqn:E1; simpl in E; [|discriminate].
    exact (step_ok_trans _ _ _ (Hc _ _ E1) (IH _ _ E)).
Qed.

Lemma emit_opt_step_ok (gen : codegen_t) (op : option opcode_t) :
  (forall o, op = Some o -> is_jump o = false) ->
  step_ok gen (emit_opt gen op).
Proof.
  intros H. destruct op as [o|]; simpl.
  - apply emit_plain_step_ok. now apply H.
  - apply step_ok_refl.
Qed.

Lemma binary_opcode_plain (op : string) (o : opcode_t) :
  binary_opcode op = Some o -> is_jump o = false.
Proof.
  unfold binary_opcode.
  repeat (match goal with
          | |- context [String.eqb ?a ?b] => destruct (String.eqb a b)
          end; [intros [= <-]; reflexivity|]).
  discriminate.
Qed.

Lemma unary_opcode_plain (op : string) (o : opcode_t) :
  unary_opcode op = Some o -> is_jump o = false.
Proof.
  unfold unary_opcode.
  repeat (match goal with
          | |- context [String.eqb ?a ?b] => destruct (String.eqb a b)
          end; [intros [= <-]; reflexivity|]).
  discriminate.
Qed.

(** Splits [E : (x ← e; k x) = Some y] into [e = Some g] and the rest. *)
Ltac break_bind E g E1 :=
  match type of E with
  | mbind _ ?e = Some _ =>
      destruct e as [g|] eqn:E1; [simpl in E|discriminate E]
  end.

(** Chains [step_ok] through an intermediate generator. *)
Ltac via g := apply (step_ok_trans _ g).

Lemma load_or_store_step_ok (gen : codegen_t) (sym : symbol_t)
    (global local_ : opcode_t) (gen' : codegen_t) :
  is_jump global = false -> is_jump local_ = false ->
  (if sym_scope_level sym =? 0
   then Some (codegen_emit gen global (sym_offset sym))
   else Some (codegen_emit gen local_ (sym_offset sym))) = Some gen' ->
  step_ok gen gen'.
Proof.
  intros Hg Hl E.
  destruct (sym_scope_level sym =? 0); injection E as <-;
    now apply emit_plain_step_ok.
Qed.

(** An expression emits no jump and leaves the loop targets and the symbol
    table alone. *)
Lemma codegen_expression_steps_ok (node : ast_node_t) :
  steps_ok (codegen_expression node).
Proof.
  induction node as [node IHl IHr IHe IHch] using ast_node_ind_nested.
  intros gen gen' E.
  pose proof (on_node_steps_ok codegen_expression _ IHl) as Hl.
  pose proof (on_node_steps_ok codegen_expression _ IHr) as Hr.
  pose proof (for_children_steps_ok codegen_expression _ IHch) as Hch.
  destruct node as [ty dt v nm op l r e ch lv]. simpl in Hl, Hr, Hch.
  simpl in E.
  destruct ty; try (injection E as <-; apply step_ok_refl).
  - (* NODE_NUMBER *)
    injection E as <-. now apply emit_plain_step_ok.
  - (* NODE_IDENTIFIER *)
    destruct (symtab_lookup (symtab gen) nm) as [sym|].
    + now apply (load_or_store_step_ok gen sym OP_LOADG OP_LOADL).
    + injection E as <-. apply error_step_ok.
  - (* NODE_BINARY_OP *)
    break_bind E g1 E1. break_bind E g2 E2. injection E as <-.
    via g1; [exact (Hl _ _ E1)|]. via g2; [exact (Hr _ _ E2)|].
    apply emit_opt_step_ok, binary_opcode_plain.
  - (* NODE_UNARY_OP *)
    break_bind E g1 E1. injection E as <-.
    via g1; [exact (Hl _ _ E1)|].
    apply emit_opt_step_ok, unary_opcode_plain.
  - (* NODE_ASSIGN *)
    destruct l as [target|]; simpl in E; [|discriminate].
    destruct (symtab_lookup (symtab gen) (node_name target)) as [sym|].
    + break_bind E g1 E1.
      via g1; [exact (Hr _ _ E1)|].
      via (codegen_emit g1 OP_DUP 0); [now apply emit_plain_step_ok|].
      now apply (load_or_store_step_ok _ sym OP_STOREG OP_STOREL).
    + injection E as <-. apply error_step_ok.
  - (* NODE_CALL *)
    break_bind E g1 E1.
    destruct l as [callee|]; simpl in E; [|discriminate].
    via g1; [exact (Hch _ _ E1)|].
    destruct (symtab_lookup (symtab g1) (node_name callee)) as [sym|];
      injection E as <-.
    + now apply emit_plain_step_ok.
    + apply error_step_ok.
  - (* NODE_GETPID *)
    injection E as <-. now apply emit_plain_step_ok.
Qed.

Lemma codegen_expression_then_steps_ok (node : option ast_node_t) op :
  is_jump op = false -> steps_ok (codegen_expression_then node op).
Proof.
  intros Hop gen gen' E. unfold codegen_expression_then in E.
  break_bind E g1 E1. injection E as <-.
  via g1.
  - refine (on_node_steps_ok codegen_expression node _ _ _ E1).
    intros c _. apply codegen_expression_steps_ok.
  - now apply emit_plain_step_ok.
Qed.

#[local] Arguments codegen_emit : simpl never.
#[local] Arguments codegen_patch_jump : simpl never.
#[local] Arguments codegen_new_label : simpl never.
#[local] Arguments codegen_emit_label : simpl never.
#[local] Arguments codegen_expression_then : simpl never.
#[local] Arguments count : simpl never.

Lemma count_nonneg (buf : code_buffer_t) : 0 <= count buf.
Proof. unfold count. lia. Qed.

Lemma emit_zero_step_ok (gen : codegen_t) op :
  step_ok gen (codegen_emit gen op 0).
Proof.
  apply emit_step_ok. intros _. pose proof (count_nonneg (code gen)). lia.
Qed.

Lemma patch_to_count_step_ok (gen : codegen_t) index :
  step_ok gen (codegen_patch_jump gen index (count (code gen))).
Proof.
  apply patch_jump_step_ok. pose proof (count_nonneg (code gen)). lia.
Qed.

Lemma set_loop_continue_label_inv (gen : codegen_t) (target : Z) :
  gen_inv gen -> target <= count (code gen) ->
  gen_inv (set_loop_continue_label gen target).
Proof. intros (?&?&?) ?. unfold gen_inv. simpl. now repeat split. Qed.

Lemma set_loop_break_label_inv (gen : codegen_t) (target : Z) :
  gen_inv gen -> target < count (code gen) ->
  gen_inv (set_loop_break_label gen target).
Proof. intros (?&?&?) ?. unfold gen_inv. simpl. now repeat split. Qed.

Lemma reached_refl (gen : codegen_t) : gen_inv gen -> reached_from gen gen.
Proof. intros I. split; [exact I|]. split; [reflexivity|lia]. Qed.

Lemma reached_trans (g1 g2 g3 : codegen_t) :
  reached_from g1 g2 -> reached_from g2 g3 -> reached_from g1 g3.
Proof.
  intros (I2 & ? & ?) (I3 & ? & ?).
  split; [exact I3|]. split; [congruence|lia].
Qed.

Lemma reached_step (g1 g2 g3 : codegen_t) :
  reached_from g1 g2 -> step_ok g2 g3 -> reached_from g1 g3.
Proof.
  intros (I2 & ? & ?) Hstep. destruct (Hstep I2) as [I3 (?&?&?&?)].
  split; [exact I3|]. split; [congruence|lia].
Qed.

Lemma reached_set_continue (g1 g2 : codegen_t) (target : Z) :
  reached_from g1 g2 -> target <= count (code g2) ->
  reached_from g1 (set_loop_continue_label g2 target).
Proof.
  intros (I2 & ? & ?) Ht.
  split; [now apply set_loop_continue_label_inv|]. now split.
Qed.

Lemma reached_set_break (g1 g2 : codegen_t) (target : Z) :
  reached_from g1 g2 -> target < count (code g2) ->
  reached_from g1 (set_loop_break_label g2 target).
Proof.
  intros (I2 & ? & ?) Ht.
  split; [now apply set_loop_break_label_inv|]. now split.
Qed.

(** A jump back to an instruction of the buffer as it was at [g1]. *)
Lemma reached_emit_back (g1 g2 : codegen_t) (op : opcode_t) :
  reached_from g1 g2 ->
  reached_from g1 (codegen_emit g2 op (count (code g1))).
Proof.
  intros R. apply (reached_step _ g2); [exact R|].
  apply emit_step_ok. intros _.
  destruct R as (_ & _ & ?). pose proof (count_nonneg (code g1)). lia.
Qed.

(** [gen->loop_break_label = old_break;
     gen->loop_continue_label = old_continue;] at the end of a loop. *)
Lemma restore_labels (gen gen' : codegen_t) :
  gen_inv gen -> reached_from gen gen' ->
  gen_inv (set_loop_continue_label
             (set_loop_break_label gen' (loop_break_label gen))
             (loop_continue_label gen))
  /\ same_context gen
       (set_loop_continue_label
          (set_loop_break_label gen' (loop_break_label gen))
          (loop_continue_label gen)).
Proof.
  intros (_ & Hb & Hc) (I' & Hsym & Hcount).
  split.
  - apply set_loop_continue_label_inv; [|simpl; lia].
    apply set_loop_break_label_inv; [exact I'|lia].
  - unfold same_context. simpl. now repeat split.
Qed.

(** A statement keeps the invariant, the loop targets and the symbol
    table. *)
Lemma codegen_statement_steps_ok (node : ast_node_t) :
  steps_ok (codegen_statement node).
Proof.
  induction node as [node IHl IHr IHe IHch] using ast_node_ind_nested.
  intros gen gen' E.
  pose proof (on_node_steps_ok codegen_statement _ IHr) as Hr.
  pose proof (for_children_steps_ok codegen_statement _ IHch) as Hch.
  pose proof (fun c => on_node_steps_ok codegen_expression c
                (fun c' _ => codegen_expression_steps_ok c')) as Hexpr.
  pose proof (fun l => for_children_steps_ok codegen_expression l
                (proj2 (Forall_forall _ _)
                   (fun c' _ => codegen_expression_steps_ok c'))) as Hexprs.
  destruct node as [ty dt v nm op l r e ch lv]. simpl in IHe, Hr, Hch, IHch.
  simpl in E.
  destruct ty; try (injection E as <-; apply step_ok_refl);
    try (refine (codegen_expression_then_steps_ok _ _ _ _ _ E); reflexivity).
  - (* NODE_BLOCK *)
    exact (Hch _ _ E).
  - (* NODE_IF *)
    break_bind E g2 E2. break_bind E g3 E3.
    via (codegen_new_label gen).2; [apply new_label_step_ok|].
    via (codegen_new_label (codegen_new_label gen).2).2;
      [apply new_label_step_ok|].
    via g2; [exact (Hexpr _ _ _ E2)|].
    via (codegen_emit g2 OP_JZ 0); [apply emit_zero_step_ok|].
    via g3; [exact (Hr _ _ E3)|].
    destruct e as [else_branch|].
    + break_bind E g4 E4. injection E as <-.
      via (codegen_emit g3 OP_JMP 0); [apply emit_zero_step_ok|].
      via (codegen_patch_jump (codegen_emit g3 OP_JMP 0) (count (code g2))
             (count (code (codegen_emit g3 OP_JMP 0))));
        [apply patch_to_count_step_ok|].
      via g4; [exact (IHe _ eq_refl _ _ E4)|].
      apply patch_to_count_step_ok.
    + injection E as <-. apply patch_to_count_step_ok.
  - (* NODE_WHILE *)
    break_bind E g1 E1. break_bind E g2 E2. injection E as <-.
    intros Hinv. apply (restore_labels _ _ Hinv).
    pose proof (reached_set_continue _ _ (count (code gen))
                  (reached_refl _ Hinv) (Z.le_refl _)) as R0.
    pose proof (reached_step _ _ _ R0 (Hexpr _ _ _ E1)) as R1.
    pose proof (reached_step _ _ _ R1 (emit_zero_step_ok g1 OP_JZ)) as R2.
    pose proof (reached_step _ _ _ R2 (Hr _ _ E2)) as R3.
    pose proof (reached_emit_back _ _ OP_JMP R3) as R4.
    exact (reached_step _ _ _ R4 (patch_to_count_step_ok _ _)).
  - (* NODE_FOR *)
    break_bind E g1 E1. break_bind E g2 E2. break_bind E g3 E3.
    break_bind E g5 E5. injection E as <-.
    intros Hinv. apply (restore_labels _ _ Hinv).
    (* init *)
    assert (reached_from gen g1) as R1.
    { apply (reached_step _ gen); [now apply reached_refl|].
      destruct l as [init|].
      - break_bind E1 gi Ei. injection E1 as <-.
        via gi; [exact (codegen_expression_steps_ok _ _ _ Ei)|].
        now apply emit_plain_step_ok.
      - injection E1 as <-. apply step_ok_refl. }
    pose proof R1 as (I1 & _ & _).
    (* condition *)
    assert (reached_from g1 g2) as R2.
    { destruct r as [cond|].
      - break_bind E2 gc Ec. injection E2 as <-.
        pose proof (reached_step _ _ _ (reached_refl _ I1)
                      (codegen_expression_steps_ok _ _ _ Ec)) as Rc.
        pose proof (reached_step _ _ _ Rc (emit_zero_step_ok gc OP_JZ)) as Rz.
        apply reached_set_break; [exact Rz|]. rewrite count_emit. lia.
      - injection E2 as <-. now apply reached_refl. }
    (* body *)
    assert (reached_from g1 g3) as R3.
    { apply (reached_step _ g2); [exact R2|].
      destruct ch as [|body rest].
      - injection E3 as <-. apply step_ok_refl.
      - inversion IHch as [|? ? Hbody _]; subst.
        exact (Hbody _ _ E3). }
    (* step *)
    assert (reached_from g1 g5) as R5.
    { pose proof (reached_set_continue _ _ (count (code g3)) R3
                    (Z.le_refl _)) as Rs.
      destruct e as [step|].
      - break_bind E5 gs Es. injection E5 as <-.
        pose proof (reached_step _ _ _ Rs
                      (codegen_expression_steps_ok _ _ _ Es)) as Rs'.
        apply (reached_step _ gs); [exact Rs'|].
        now apply emit_plain_step_ok.
      - injection E5 as <-. exact Rs. }
    pose proof (reached_emit_back _ _ OP_JMP R5) as R6.
    apply (reached_trans _ g1); [exact R1|].
    destruct r as [cond|]; [|exact R6].
    destruct (loop_break_label _ >=? 0); [|exact R6].
    exact (reached_step _ _ _ R6 (patch_to_count_step_ok _ _)).
  - (* NODE_RETURN *)
    break_bind E g1 E1. injection E as <-.
    via g1; [|now apply emit_plain_step_ok].
    destruct l as [value|].
    + exact (codegen_expression_steps_ok _ _ _ E1).
    + injection E1 as <-. now apply emit_plain_step_ok.
  - (* NODE_BREAK *)
    destruct (loop_break_label gen >=? 0) eqn:Hb; injection E as <-;
      [|apply step_ok_refl].
    intros Hinv. apply emit_step_ok; [|exact Hinv].
    intros _. destruct Hinv as (_ & Hbreak & _). lia.
  - (* NODE_CONTINUE *)
    destruct (loop_continue_label gen >=? 0) eqn:Hc; injection E as <-;
      [|apply step_ok_refl].
    intros Hinv. apply emit_step_ok; [|exact Hinv].
    intros _. destruct Hinv as (_ & _ & Hcont). lia.
  - (* NODE_CREATE *)
    break_bind E g1 E1. injection E as <-.
    via g1; [exact (Hexprs _ _ _ E1)|]. now apply emit_plain_step_ok.
  - (* NODE_YIELD *)
    injection E as <-. now apply emit_plain_step_ok.
Qed.

Lemma codegen_function_steps_ok (node : ast_node_t) :
  steps_ok (codegen_function node).
Proof.
  intros gen gen' E. unfold codegen_function in E.
  break_bind E g1 E1. injection E as <-.
  via (codegen_emit_label gen (str_take 63 ("func_" +:+ node_name node)));
    [apply emit_label_step_ok|].
  via g1.
  - refine (on_node_steps_ok codegen_statement _ _ _ _ E1).
    intros c _. apply codegen_statement_steps_ok.
  - via (codegen_emit g1 OP_PUSH 0); now apply emit_plain_step_ok.
Qed.

Lemma codegen_program_child_steps_ok (child : ast_node_t) :
  steps_ok (codegen_program_child child).
Proof.
  intros gen gen' E. unfold codegen_program_child in E.
  destruct (is_function_or_process (node_type child)).
  - exact (codegen_function_steps_ok _ _ _ E).
  - injection E as <-. apply step_ok_refl.
Qed.

Lemma codegen_create_inv (table : symbol_table_t) :
  gen_inv (codegen_create table).
Proof. unfold gen_inv, count. simpl. split; [constructor|lia]. Qed.

(** What [codegen_program] does, by the kind of the root. *)
Lemma codegen_program_cases (ast : ast_node_t) (gen gen' : codegen_t) :
  codegen_program ast gen = Some gen' ->
  gen' = gen
  \/ exists g1, for_children codegen_program_child (children ast) gen = Some g1
             /\ gen' = codegen_emit g1 OP_HALT 0.
Proof.
  unfold codegen_program. intros E.
  destruct (node_type ast); try (injection E as <-; now left).
  break_bind E g1 E1. injection E as <-. right. now exists g1.
Qed.

Lemma codegen_program_steps_ok (ast : ast_node_t) :
  steps_ok (codegen_program ast).
Proof.
  intros gen gen' E.
  destruct (codegen_program_cases _ _ _ E) as [->|(g1 & E1 & ->)].
  - apply step_ok_refl.
  - via g1; [|now apply emit_plain_step_ok].
    refine (for_children_steps_ok codegen_program_child _ _ _ _ E1).
    apply Forall_forall. intros c _. apply codegen_program_child_steps_ok.
Qed.

(** C5: when code generation completes, the operand of every JMP, JZ and
    JNZ of the buffer is an instruction index in [0, count). *)
Theorem jump_operands_are_instruction_indices
    (table : symbol_table_t) (ast : ast_node_t) (gen : codegen_t) (ok : bool)
    (i : instruction_t) :
  codegen_generate (codegen_create table) ast = Some (gen, ok) ->
  i ∈ instructions (code gen) ->
  is_jump (opcode i) = true ->
  0 <= operand i < count (code gen).
Proof.
  unfold codegen_generate. intros E Hin Hjump.
  break_bind E g E1. injection E as <- _.
  destruct (codegen_program_cases _ _ _ E1) as [->|(g1 & E2 & ->)].
  - inversion Hin.
  - assert (steps_ok (for_children codegen_program_child (children ast)))
      as Hsteps.
    { apply for_children_steps_ok, Forall_forall.
      intros c _. apply codegen_program_child_steps_ok. }
    destruct (Hsteps _ _ E2 (codegen_create_inv table))
      as [(Hjumps & _ & _) _].
    rewrite count_emit.
    unfold codegen_emit in Hin. simpl in Hin.
    apply elem_of_app in Hin as [Hin|Hin].
    + pose proof (proj1 (Forall_forall _ _) Hjumps i Hin Hjump). lia.
    + apply list_elem_of_singleton in Hin. subst i. discriminate.
Qed.

Lemma jump_operands_are_instruction_indices_witness :
  exists gen,
    codegen_generate (codegen_create symtab_create) ast_while_yield
    = Some (gen, true)
    /\ listing (code gen) = listing_while_yield
    /\ 0 <= 5 < count (code gen).
Proof.
  destruct (codegen_generate (codegen_create symtab_create) ast_while_yield)
    as [[gen ok]|] eqn:E.
  2:{ vm_compute in E. discriminate. }
  pose proof (jump_operands_are_instruction_indices
                symtab_create ast_while_yield gen ok
                (mk_instruction OP_JZ 5 EmptyString EmptyString) E) as H.
  vm_compute in E. injection E as <- <-.
  eexists. split; [reflexivity|]. split; [reflexivity|].
  apply H; [|reflexivity].
  vm_compute. do 2 right. left.
Defined.

(** ** Code generator: what is emitted and where *)

(** The six parts of [extends]. *)
Ltac split_extends :=
  unfold extends; split; [|split; [|split; [|split; [|split]]]].

Lemma extends_refl (n : nat) (gen : codegen_t) :
  (n <= length (instructions (code gen)))%nat -> extends n gen gen.
Proof.
  intros H. split_extends; auto.
Qed.

Lemma extends_trans (n : nat) (g0 g1 g2 : codegen_t) :
  extends n g0 g1 -> extends n g1 g2 -> extends n g0 g2.
Proof.
  intros (H1 & H2 & H3 & H4 & H5 & H6) (K1 & K2 & K3 & K4 & K5 & K6).
  split_extends; try congruence; tauto.
Qed.

Lemma extends_le (n m : nat) (g0 g : codegen_t) :
  (n <= m)%nat -> (m <= length (instructions (code g0)))%nat ->
  extends m g0 g -> extends n g0 g.
Proof.
  intros Hnm Hm (H1 & H2 & H3 & H4 & H5 & H6).
  split_extends; try assumption; try lia.
  - rewrite <- (Nat.min_l n m) by lia.
    rewrite <- !take_take. now rewrite H2.
  - intros Hall.
    rewrite <- (take_drop (m - n) (drop n (instructions (code g)))).
    rewrite <- (take_drop (m - n) (drop n (instructions (code g0)))) in Hall.
    apply Forall_app in Hall as [Ha Hb].
    apply Forall_app. split.
    + rewrite take_drop_commute in *.
      replace (n + (m - n))%nat with m in * by lia.
      now rewrite H2.
    + rewrite drop_drop in *.
      replace (n + (m - n))%nat with m in * by lia.
      now apply H3.
Qed.

Lemma buffer_fits_emit (gen : codegen_t) op arg :
  buffer_fits (code gen) -> buffer_fits (code (codegen_emit gen op arg)).
Proof.
  unfold buffer_fits, codegen_emit, count. cbn.
  rewrite length_app. cbn [length].
  intros (Hle & Hhalf & k & Hk).
  destruct (Z.of_nat (length (instructions (code gen))) >=? capacity (code gen))
    eqn:E.
  - assert (0 < capacity (code gen)).
    { rewrite Hk. unfold INITIAL_CODE_CAPACITY.
      pose proof (Z.pow_pos_nonneg 2 (Z.of_nat k)). lia. }
    split; [lia|]. split; [right; lia|].
    exists (S k). rewrite Hk, Nat2Z.inj_succ, Z.pow_succ_r by lia. lia.
  - split; [lia|]. split; [destruct Hhalf; [now left|right; lia]|].
    now exists k.
Qed.

Lemma extends_emit (n : nat) (g0 gen : codegen_t) op arg :
  statement_opcode op = true ->
  extends n g0 gen -> extends n g0 (codegen_emit gen op arg).
Proof.
  intros Hop (H1 & H2 & H3 & H4 & H5 & H6).
  unfold extends.
  assert (instructions (code (codegen_emit gen op arg))
          = (instructions (code gen)
               ++ [mk_instruction op arg EmptyString EmptyString])%list)
    as -> by reflexivity.
  split_extends.
  - rewrite length_app. lia.
  - rewrite take_app_le by lia. exact H2.
  - intros Hall. rewrite drop_app_le by lia.
    apply Forall_app. split; [now apply H3|].
    constructor; [exact Hop|constructor].
  - exact H4.
  - exact H5.
  - intros Hf. now apply buffer_fits_emit, H6.
Qed.

Lemma take_alter_ge {A} (f : A -> A) (l : list A) (n i : nat) :
  (n <= i)%nat -> take n (alter f i l) = take n l.
Proof.
  revert n i. induction l as [|x l IH]; intros n i Hni; [now destruct i, n|].
  destruct n as [|n]; [reflexivity|]. destruct i as [|i]; [lia|].
  simpl. f_equal. apply IH. lia.
Qed.

Lemma drop_alter_ge {A} (f : A -> A) (l : list A) (n i : nat) :
  (n <= i)%nat -> drop n (alter f i l) = alter f (i - n)%nat (drop n l).
Proof.
  revert n i. induction l as [|x l IH]; intros n i Hni; [now destruct n|].
  destruct n as [|n]; [now rewrite Nat.sub_0_r|].
  destruct i as [|i]; [lia|]. simpl. apply IH. lia.
Qed.

Lemma Forall_alter_keep {A} (P : A -> Prop) (f : A -> A) (l : list A) (i : nat) :
  (forall x, P x -> P (f x)) -> Forall P l -> Forall P (alter f i l).
Proof.
  intros Hf. revert i. induction l as [|x l IH]; intros i H; [constructor|].
  inversion H as [|? ? Hx Hl]; subst.
  destruct i as [|i]; simpl; constructor; auto; now apply IH.
Qed.

(** Rewriting a field other than the opcode of an instruction at or
    beyond [n]. *)
Lemma extends_alter (n : nat) (g0 gen : codegen_t) (f : instruction_t -> instruction_t)
    (i : nat) :
  (forall x, opcode (f x) = opcode x) ->
  (n <= i)%nat ->
  extends n g0 gen ->
  extends n g0
    (set_code gen
       (mk_code_buffer (alter f i (instructions (code gen)))
                       (capacity (code gen)) (label_counter (code gen)))).
Proof.
  intros Hf Hni (H1 & H2 & H3 & H4 & H5 & H6).
  split_extends; cbn [set_code code instructions symtab had_error].
  - now rewrite length_alter.
  - now rewrite take_alter_ge.
  - intros Hall. rewrite drop_alter_ge by exact Hni.
    apply Forall_alter_keep; [|now apply H3].
    intros x. unfold statement_instruction. now rewrite Hf.
  - exact H4.
  - exact H5.
  - intros Hf0. specialize (H6 Hf0). unfold buffer_fits, count in *.
    cbn [instructions capacity]. now rewrite length_alter.
Qed.

Lemma extends_patch_jump (n : nat) (g0 gen : codegen_t) (index target : Z) :
  Z.of_nat n <= index ->
  extends n g0 gen -> extends n g0 (codegen_patch_jump gen index target).
Proof.
  intros Hn H. unfold codegen_patch_jump.
  destruct ((index >=? 0) && (index <? count (code gen))); [|exact H].
  apply extends_alter; [reflexivity|lia|exact H].
Qed.

Lemma extends_emit_label (n : nat) (g0 gen : codegen_t) text :
  extends n g0 gen -> extends n g0 (codegen_emit_label gen text).
Proof.
  intros H. unfold codegen_emit_label.
  pose proof (extends_emit n g0 gen OP_NOP 0 eq_refl H) as H'.
  cbv zeta.
  destruct (count (code (codegen_emit gen OP_NOP 0)) >? 0); [|exact H'].
  apply extends_alter; [reflexivity| |exact H'].
  destruct H as (H1 & _).
  unfold count, codegen_emit. cbn. rewrite length_app. cbn [length]. lia.
Qed.

Lemma extends_same_code (n : nat) (g0 gen gen' : codegen_t) :
  instructions (code gen') = instructions (code gen) ->
  capacity (code gen') = capacity (code gen) ->
  symtab gen' = symtab gen ->
  (had_error gen = true -> had_error gen' = true) ->
  extends n g0 gen -> extends n g0 gen'.
Proof.
  intros Hi Hc Hs He (H1 & H2 & H3 & H4 & H5 & H6).
  split_extends; unfold buffer_fits, count in *; rewrite ?Hi, ?Hc;
    try tauto; try congruence.
Qed.

Lemma extends_new_label (n : nat) (g0 gen : codegen_t) :
  extends n g0 gen -> extends n g0 (codegen_new_label gen).2.
Proof. now apply extends_same_code. Qed.

Lemma extends_set_break (n : nat) (g0 gen : codegen_t) l :
  extends n g0 gen -> extends n g0 (set_loop_break_label gen l).
Proof. now apply extends_same_code. Qed.

Lemma extends_set_continue (n : nat) (g0 gen : codegen_t) l :
  extends n g0 gen -> extends n g0 (set_loop_continue_label gen l).
Proof. now apply extends_same_code. Qed.

Lemma extends_error (n : nat) (g0 gen : codegen_t) message :
  extends n g0 gen -> extends n g0 (codegen_error gen message).
Proof. now apply extends_same_code. Qed.

Lemma loop_labels_emit gen op arg :
  loop_labels (codegen_emit gen op arg) = loop_labels gen.
Proof. reflexivity. Qed.

Lemma loop_labels_patch_jump gen index target :
  loop_labels (codegen_patch_jump gen index target) = loop_labels gen.
Proof.
  unfold codegen_patch_jump. now destruct (_ && _).
Qed.

Lemma loop_labels_new_label gen :
  loop_labels (codegen_new_label gen).2 = loop_labels gen.
Proof. reflexivity. Qed.

Lemma loop_labels_emit_label gen text :
  loop_labels (codegen_emit_label gen text) = loop_labels gen.
Proof.
  unfold codegen_emit_label. cbv zeta. now destruct (_ >? _).
Qed.

Lemma loop_labels_error gen message :
  loop_labels (codegen_error gen message) = loop_labels gen.
Proof. reflexivity. Qed.

Lemma extends_length (n : nat) (g0 gen : codegen_t) :
  extends n g0 gen -> Z.of_nat n <= count (code gen).
Proof. intros (H & _). unfold count. lia. Qed.

Lemma preserves_refl : preserves Some.
Proof. intros gen gen' [= <-]. now split. Qed.

Lemma on_node_preserves (f : ast_node_t -> codegen_t -> option codegen_t)
    (node : option ast_node_t) :
  (forall c, node = Some c -> preserves (f c)) ->
  preserves (on_node f node).
Proof.
  intros H gen gen' E. destruct node as [c|]; simpl in E.
  - exact (H c eq_refl gen gen' E).
  - injection E as <-. now split.
Qed.

Lemma for_children_preserves (f : ast_node_t -> codegen_t -> option codegen_t)
    (nodes : list ast_node_t) :
  Forall (fun c => preserves (f c)) nodes ->
  preserves (for_children f nodes).
Proof.
  induction 1 as [|c rest Hc Hrest IH]; intros gen gen' E; simpl in E.
  - injection E as <-. now split.
  - destruct (f c gen) as [g1|] eqn:E1; simpl in E; [|discriminate].
    destruct (Hc _ _ E1) as [L1 X1]. destruct (IH _ _ E) as [L2 X2].
    split; [congruence|]. intros n g0 H0. apply X2, X1, H0.
Qed.

(** Solves [extends n g0 T] for a generator [T] written as a chain of
    emissions over results of calls that preserve. *)
Ltac ext :=
  match goal with
  | |- extends ?n ?g0 ?t =>
      first
        [ assumption
        | lazymatch t with
          | codegen_emit _ _ _ => apply extends_emit; [reflexivity|ext]
          | codegen_patch_jump _ (count (code ?g1)) _ =>
              apply extends_patch_jump;
              [apply (extends_length n g0 g1); ext|ext]
          | snd (codegen_new_label _) => apply extends_new_label; ext
          | set_loop_break_label _ _ => apply extends_set_break; ext
          | set_loop_continue_label _ _ => apply extends_set_continue; ext
          | codegen_error _ _ => apply extends_error; ext
          | codegen_emit_label _ _ => apply extends_emit_label; ext
          | _ =>
              match goal with
              | H : preserves ?f, E : ?f ?g = Some t |- _ =>
                  apply (proj2 (H _ _ E)); ext
              end
          end ]
  end.

(** Rewrites the loop targets of such a chain to those of its start. *)
Ltac labels :=
  repeat match goal with
    | |- context [loop_labels (codegen_emit ?g ?o ?a)] =>
        rewrite (loop_labels_emit g o a)
    | |- context [loop_labels (codegen_patch_jump ?g ?i ?t)] =>
        rewrite (loop_labels_patch_jump g i t)
    | |- context [loop_labels (snd (codegen_new_label ?g))] =>
        rewrite (loop_labels_new_label g)
    | |- context [loop_labels (codegen_emit_label ?g ?t)] =>
        rewrite (loop_labels_emit_label g t)
    | |- context [loop_labels (codegen_error ?g ?m)] =>
        rewrite (loop_labels_error g m)
    | H : preserves ?f, E : ?f ?g = Some ?g' |- context [loop_labels ?g'] =>
        rewrite (proj1 (H _ _ E))
    end;
  try reflexivity.

Lemma binary_opcode_statement (op : string) (o : opcode_t) :
  binary_opcode op = Some o -> statement_opcode o = true.
Proof.
  unfold binary_opcode.
  repeat (match goal with
          | |- context [String.eqb ?a ?b] => destruct (String.eqb a b)
          end; [intros [= <-]; reflexivity|]).
  discriminate.
Qed.

Lemma unary_opcode_statement (op : string) (o : opcode_t) :
  unary_opcode op = Some o -> statement_opcode o = true.
Proof.
  unfold unary_opcode.
  repeat (match goal with
          | |- context [String.eqb ?a ?b] => destruct (String.eqb a b)
          end; [intros [= <-]; reflexivity|]).
  discriminate.
Qed.

Lemma emit_opt_preserves (op : option opcode_t) :
  (forall o, op = Some o -> statement_opcode o = true) ->
  preserves (fun gen => Some (emit_opt gen op)).
Proof.
  intros Hop gen gen' [= <-]. destruct op as [o|]; simpl.
  - split; [reflexivity|]. intros n g0 H. apply extends_emit; auto.
  - now split.
Qed.

Lemma codegen_expression_preserves (node : ast_node_t) :
  preserves (codegen_expression node).
Proof.
  induction node as [node IHl IHr IHe IHch] using ast_node_ind_nested.
  intros gen gen' E.
  pose proof (on_node_preserves codegen_expression _ IHl) as Hl.
  pose proof (on_node_preserves codegen_expression _ IHr) as Hr.
  pose proof (for_children_preserves codegen_expression _ IHch) as Hch.
  destruct node as [ty dt v nm op l r e ch lv]. simpl in Hl, Hr, Hch.
  simpl in E.
  destruct ty; try (injection E as <-; now split).
  - (* NODE_NUMBER *)
    injection E as <-. split; [labels|intros n g0 H0; ext].
  - (* NODE_IDENTIFIER *)
    destruct (symtab_lookup (symtab gen) nm) as [sym|].
    + destruct (sym_scope_level sym =? 0); injection E as <-;
        (split; [labels|intros n g0 H0; ext]).
    + injection E as <-. split; [labels|intros n g0 H0; ext].
  - (* NODE_BINARY_OP *)
    break_bind E g1 E1. break_bind E g2 E2.
    pose proof (emit_opt_preserves _ (binary_opcode_statement op)) as Hop.
    cbv beta in Hop. destruct (Hop _ _ E) as [L X].
    split; [rewrite L; labels|intros n g0 H0; apply X; ext].
  - (* NODE_UNARY_OP *)
    break_bind E g1 E1.
    pose proof (emit_opt_preserves _ (unary_opcode_statement op)) as Hop.
    cbv beta in Hop. destruct (Hop _ _ E) as [L X].
    split; [rewrite L; labels|intros n g0 H0; apply X; ext].
  - (* NODE_ASSIGN *)
    destruct l as [target|]; simpl in E; [|discriminate].
    destruct (symtab_lookup (symtab gen) (node_name target)) as [sym|].
    + break_bind E g1 E1.
      destruct (sym_scope_level sym =? 0); injection E as <-;
        (split; [labels|intros n g0 H0; ext]).
    + injection E as <-. split; [labels|intros n g0 H0; ext].
  - (* NODE_CALL *)
    break_bind E g1 E1.
    destruct l as [callee|]; simpl in E; [|discriminate].
    destruct (symtab_lookup (symtab g1) (node_name callee)) as [sym|];
      injection E as <-; (split; [labels|intros n g0 H0; ext]).
  - (* NODE_GETPID *)
    injection E as <-. split; [labels|intros n g0 H0; ext].
Qed.

Lemma codegen_expression_then_preserves (node : option ast_node_t) op :
  statement_opcode op = true -> preserves (codegen_expression_then node op).
Proof.
  intros Hop gen gen' E. unfold codegen_expression_then in E.
  pose proof (on_node_preserves codegen_expression node
                (fun c _ => codegen_expression_preserves c)) as Hexpr.
  break_bind E g1 E1. injection E as <-.
  split; [labels|intros n g0 H0].
  apply extends_emit; [exact Hop|ext].
Qed.

Lemma codegen_statement_preserves (node : ast_node_t) :
  preserves (codegen_statement node).
Proof.
  induction node as [node IHl IHr IHe IHch] using ast_node_ind_nested.
  intros gen gen' E.
  pose proof (on_node_preserves codegen_statement _ IHr) as Hr.
  pose proof (for_children_preserves codegen_statement _ IHch) as Hch.
  pose proof (fun c => on_node_preserves codegen_expression c
                (fun c' _ => codegen_expression_preserves c')) as Hexpr.
  pose proof (fun l => for_children_preserves codegen_expression l
                (proj2 (Forall_forall _ _)
                   (fun c' _ => codegen_expression_preserves c'))) as Hexprs.
  destruct node as [ty dt v nm op l r e ch lv]. simpl in IHe, Hr, Hch, IHch.
  pose proof (Hexpr l) as Hel. pose proof (Hexpr r) as Her.
  pose proof (Hexprs ch) as Hech.
  simpl in E.
  destruct ty; try (injection E as <-; now split);
    try (refine (codegen_expression_then_preserves _ _ _ _ _ E); reflexivity).
  - (* NODE_BLOCK *)
    exact (Hch _ _ E).
  - (* NODE_IF *)
    set (gl := set_code (set_code gen _) _) in E.
    assert (loop_labels gl = loop_labels gen) as Ll by reflexivity.
    assert (forall n g0, extends n g0 gen -> extends n g0 gl) as Xl
      by (intros n g0; now apply extends_same_code).
    break_bind E g2 E2. break_bind E g3 E3.
    destruct e as [else_branch|].
    + specialize (IHe _ eq_refl). break_bind E g4 E4. injection E as <-.
      split; [labels; exact Ll|].
      intros n g0 H0. specialize (Xl n g0 H0). ext.
    + injection E as <-.
      split; [labels; exact Ll|].
      intros n g0 H0. specialize (Xl n g0 H0). ext.
  - (* NODE_WHILE *)
    break_bind E g1 E1. break_bind E g2 E2. injection E as <-.
    split.
    + unfold loop_labels. reflexivity.
    + intros n g0 H0. ext.
  - (* NODE_FOR *)
    break_bind E g1 E1. break_bind E g2 E2. break_bind E g3 E3.
    break_bind E g5 E5. injection E as <-.
    split; [reflexivity|]. intros n g0 H0.
    (* init *)
    assert (extends n g0 g1) as X1.
    { destruct l as [init|]; [|injection E1 as <-; exact H0].
      pose proof (codegen_expression_preserves init) as Hinit.
      break_bind E1 gi Ei. injection E1 as <-. ext. }
    (* condition: the break target is the index of its JZ *)
    assert (extends n g0 g2
            /\ match r with
               | Some _ => Z.of_nat n <= loop_break_label g2
               | None => True
               end) as [X2 B2].
    { destruct r as [cond|]; [|injection E2 as <-; now split].
      pose proof (codegen_expression_preserves cond) as Hcond.
      break_bind E2 gc Ec. injection E2 as <-.
      split; [ext|]. cbn [set_loop_break_label loop_break_label].
      apply (extends_length n g0). ext. }
    (* body *)
    assert (extends n g0 g3 /\ loop_labels g3 = loop_labels g2) as [X3 L3].
    { destruct ch as [|body rest]; [injection E3 as <-; now split|].
      inversion IHch as [|? ? Hbody _]; subst.
      split; [ext|exact (proj1 (Hbody _ _ E3))]. }
    (* step *)
    assert (extends n g0 g5 /\ loop_break_label g5 = loop_break_label g3)
      as [X5 L5].
    { destruct e as [step|].
      - pose proof (codegen_expression_preserves step) as Hstep.
        break_bind E5 gs Es. injection E5 as <-.
        split; [ext|].
        change (loop_break_label (codegen_emit gs OP_POP 0))
          with (fst (loop_labels gs)).
        now rewrite (proj1 (Hstep _ _ Es)).
      - injection E5 as <-. split; [ext|reflexivity]. }
    apply extends_set_continue, extends_set_break.
    destruct r as [cond|]; [|ext].
    destruct (loop_break_label g5 >=? 0); [|ext].
    apply extends_patch_jump; [|ext].
    rewrite L5. change (loop_break_label g3) with (fst (loop_labels g3)).
    rewrite L3. exact B2.
  - (* NODE_RETURN *)
    break_bind E g1 E1. injection E as <-.
    destruct l as [value|].
    + pose proof (codegen_expression_preserves value) as Hvalue.
      split; [labels|intros n g0 H0; ext].
    + injection E1 as <-. split; [labels|intros n g0 H0; ext].
  - (* NODE_BREAK *)
    destruct (loop_break_label gen >=? 0); injection E as <-;
      (split; [labels|intros n g0 H0; ext]).
  - (* NODE_CONTINUE *)
    destruct (loop_continue_label gen >=? 0); injection E as <-;
      (split; [labels|intros n g0 H0; ext]).
  - (* NODE_CREATE *)
    break_bind E g1 E1. injection E as <-.
    split; [labels|intros n g0 H0; ext].
  - (* NODE_YIELD *)
    injection E as <-. split; [labels|intros n g0 H0; ext].
Qed.

Lemma codegen_function_preserves (node : ast_node_t) :
  preserves (codegen_function node).
Proof.
  intros gen gen' E. unfold codegen_function in E.
  pose proof (on_node_preserves codegen_statement (node_left node)
                (fun c _ => codegen_statement_preserves c)) as Hbody.
  break_bind E g1 E1. injection E as <-.
  split; [labels|intros n g0 H0; ext].
Qed.

Lemma codegen_program_child_preserves (child : ast_node_t) :
  preserves (codegen_program_child child).
Proof.
  intros gen gen' E. unfold codegen_program_child in E.
  destruct (is_function_or_process (node_type child)).
  - exact (codegen_function_preserves _ _ _ E).
  - injection E as <-. now split.
Qed.

(** From [extends] at the length of the start: what was there is a prefix,
    and what was added is made of statement opcodes. *)
Lemma extends_appended (gen gen' : codegen_t) :
  extends (length (instructions (code gen))) gen gen' ->
  exists tail,
    instructions (code gen') = (instructions (code gen) ++ tail)%list
    /\ Forall statement_instruction tail.
Proof.
  intros (H1 & H2 & H3 & _).
  exists (drop (length (instructions (code gen))) (instructions (code gen'))).
  split.
  - rewrite <- (take_drop (length (instructions (code gen)))
                          (instructions (code gen'))) at 1.
    rewrite H2, firstn_all. reflexivity.
  - apply H3. rewrite drop_all. constructor.
Qed.

(** X21: [codegen_statement] only appends: the instructions that were in
    the buffer are unchanged, opcode and operand (back-patching reaches
    only jumps emitted by the statement itself), the instructions added
    use none of SWAP, LOAD, STORE, ADDR, JNZ and HALT, and the loop targets
    and the symbol table are those of before. *)
Theorem codegen_statement_only_appends
    (node : ast_node_t) (gen gen' : codegen_t) :
  codegen_statement node gen = Some gen' ->
  (exists tail,
     instructions (code gen') = (instructions (code gen) ++ tail)%list
     /\ Forall statement_instruction tail)
  /\ loop_break_label gen' = loop_break_label gen
  /\ loop_continue_label gen' = loop_continue_label gen
  /\ symtab gen' = symtab gen.
Proof.
  intros E. destruct (codegen_statement_preserves node gen gen' E) as [L X].
  pose proof (X _ gen (extends_refl _ gen (Nat.le_refl _))) as Hext.
  split; [now apply extends_appended|].
  unfold loop_labels in L. injection L as Lb Lc.
  destruct Hext as (_ & _ & _ & Hs & _). now repeat split.
Qed.

Lemma str_take_idem (n : nat) (s : string) :
  str_take n (str_take n s) = str_take n s.
Proof.
  unfold str_take. revert n.
  induction s as [|c s IH]; intros [|n]; simpl; try reflexivity.
  now rewrite IH.
Qed.

Lemma emit_label_instructions (gen : codegen_t) (text : string) :
  instructions (code (codegen_emit_label gen text))
  = (instructions (code gen)
       ++ [mk_instruction OP_NOP 0 (str_take 63 text) EmptyString])%list.
Proof.
  unfold codegen_emit_label. cbv zeta.
  assert (count (code (codegen_emit gen OP_NOP 0))
          = Z.of_nat (length (instructions (code gen))) + 1) as Hc.
  { unfold count, codegen_emit. cbn. rewrite length_app. cbn [length]. lia. }
  rewrite Hc.
  destruct (Z.of_nat (length (instructions (code gen))) + 1 >? 0) eqn:E; [|lia].
  cbn [set_code code instructions]. unfold codegen_emit.
  cbn [set_code code instructions].
  replace (Z.to_nat (Z.of_nat (length (instructions (code gen))) + 1 - 1))
    with (length (instructions (code gen)) + 0)%nat by lia.
  rewrite alter_app_r. reflexivity.
Qed.

Lemma str_take_length (n : nat) (s : string) :
  String.length (str_take n s) = Nat.min n (String.length s).
Proof.
  unfold str_take. revert n.
  induction s as [|c s IH]; intros [|n]; simpl; try reflexivity.
  now rewrite IH.
Qed.

Lemma function_label_length (name : string) :
  String.length ("func_" +:+ name) = (5 + String.length name)%nat.
Proof. reflexivity. Qed.

(** X22: the code of a function is appended as a NOP, the code of the body
    and the implicit return [PUSH 0; RET 0].  The first 63 bytes of the
    label of the NOP hold [func_<name>] cut to 63 characters.  For a name
    of fewer than 58 characters that is the whole of [func_<name>], and
    the label is terminated; for a longer name the label is 63 characters
    with no terminator written behind them. *)
Theorem codegen_function_layout (node : ast_node_t) (gen gen' : codegen_t) :
  codegen_function node gen = Some gen' ->
  exists head body,
    instructions (code gen')
    = (instructions (code gen)
         ++ head :: body
         ++ [mk_instruction OP_PUSH 0 EmptyString EmptyString;
             mk_instruction OP_RET 0 EmptyString EmptyString])%list
    /\ head = mk_instruction OP_NOP 0
                (str_take 63 ("func_" +:+ node_name node)) EmptyString
    /\ label_terminated head = (String.length (node_name node) <? 58)%nat
    /\ ((String.length (node_name node) < 58)%nat ->
        label head = "func_" +:+ node_name node)
    /\ Forall statement_instruction body.
Proof.
  intros E. unfold codegen_function in E.
  break_bind E g1 E1. injection E as <-.
  pose proof (on_node_preserves codegen_statement (node_left node)
                (fun c _ => codegen_statement_preserves c) _ _ E1) as [_ X].
  destruct (extends_appended _ _ (X _ _ (extends_refl _ _ (Nat.le_refl _))))
    as (body & Hbody & Hall).
  eexists _, body. split; [|split; [reflexivity|split; [|split]]].
  - unfold codegen_emit at 1 2. cbn [set_code code instructions].
    rewrite Hbody, emit_label_instructions, str_take_idem, <- !app_assoc.
    reflexivity.
  - unfold label_terminated. cbn [label].
    rewrite str_take_length, function_label_length.
    destruct (String.length (node_name node) <? 58)%nat eqn:Hshort.
    + apply Nat.ltb_lt in Hshort. apply Nat.ltb_lt. lia.
    + apply Nat.ltb_ge in Hshort. apply Nat.ltb_ge. lia.
  - intros Hshort. cbn [label]. apply str_take_all.
    rewrite function_label_length. lia.
  - exact Hall.
Qed.

Lemma codegen_program_extends (ast : ast_node_t) (gen gen' : codegen_t) :
  codegen_program ast gen = Some gen' ->
  (node_type ast <> NODE_PROGRAM /\ gen' = gen)
  \/ (node_type ast = NODE_PROGRAM
      /\ exists g1,
           gen' = codegen_emit g1 OP_HALT 0
           /\ forall n g0, extends n g0 gen -> extends n g0 g1).
Proof.
  unfold codegen_program. intros E.
  destruct (node_type ast) eqn:Hty;
    try (injection E as <-; left; split; [discriminate|reflexivity]).
  break_bind E g1 E1. injection E as <-. right. split; [reflexivity|].
  exists g1. split; [reflexivity|].
  refine (proj2 (for_children_preserves codegen_program_child _ _ _ _ E1)).
  apply Forall_forall. intros c _. apply codegen_program_child_preserves.
Qed.

Lemma codegen_create_fits (table : symbol_table_t) :
  buffer_fits (code (codegen_create table)).
Proof.
  unfold buffer_fits, count. cbn. split; [unfold INITIAL_CODE_CAPACITY; lia|].
  split; [now left|]. exists 0%nat. cbn. lia.
Qed.

(** X23: [codegen_generate] returns the negation of [had_error]; on a
    PROGRAM root the code ends with [HALT 0] and holds no other HALT; on
    any other root nothing is emitted and the answer is success. *)
Theorem codegen_generate_program_shape
    (table : symbol_table_t) (ast : ast_node_t) (gen : codegen_t) (ok : bool) :
  codegen_generate (codegen_create table) ast = Some (gen, ok) ->
  ok = negb (had_error gen)
  /\ (node_type ast = NODE_PROGRAM ->
      exists body,
        instructions (code gen)
        = (body ++ [mk_instruction OP_HALT 0 EmptyString EmptyString])%list
        /\ Forall statement_instruction body)
  /\ (node_type ast <> NODE_PROGRAM ->
      instructions (code gen) = [] /\ ok = true).
Proof.
  unfold codegen_generate. intros E. break_bind E g E1.
  injection E as <- <-. split; [reflexivity|].
  destruct (codegen_program_extends _ _ _ E1)
    as [[Hty ->]|(Hty & g1 & -> & X)].
  - split; [contradiction|]. intros _. now split.
  - split; [|contradiction]. intros _.
    destruct (extends_appended (codegen_create table) g1
                (X _ _ (extends_refl 0 (codegen_create table) (Nat.le_0_l _))))
      as (body & Hbody & Hall).
    exists body. split; [|exact Hall].
    unfold codegen_emit. cbn [set_code code instructions]. now rewrite Hbody.
Qed.

(** X24: after [codegen_generate] the instructions fit the capacity of the
    buffer, the capacity is 1024 doubled some number of times, and it was
    doubled only when needed (it is 1024 or less than twice the
    count). *)
Theorem code_buffer_never_overflows
    (table : symbol_table_t) (ast : ast_node_t) (gen : codegen_t) (ok : bool) :
  codegen_generate (codegen_create table) ast = Some (gen, ok) ->
  count (code gen) <= capacity (code gen)
  /\ (capacity (code gen) = INITIAL_CODE_CAPACITY
      \/ capacity (code gen) < 2 * count (code gen))
  /\ exists k : nat,
       capacity (code gen) = INITIAL_CODE_CAPACITY * 2 ^ Z.of_nat k.
Proof.
  unfold codegen_generate. intros E. break_bind E g E1.
  injection E as <- _.
  destruct (codegen_program_extends _ _ _ E1)
    as [[Hty ->]|(Hty & g1 & -> & X)].
  - apply codegen_create_fits.
  - apply buffer_fits_emit.
    destruct (X _ _ (extends_refl 0 (codegen_create table) (Nat.le_0_l _)))
      as (_ & _ & _ & _ & _ & Hfits).
    apply Hfits, codegen_create_fits.
Qed.

(** X25: every instruction that [codegen_generate] emits has a mnemonic in
    [opcode_to_string], and two opcodes share a mnemonic only when both
    print as UNKNOWN (SWAP and ADDR, which are never emitted). *)
Theorem generated_opcodes_have_mnemonics
    (table : symbol_table_t) (ast : ast_node_t) (gen : codegen_t) (ok : bool) :
  codegen_generate (codegen_create table) ast = Some (gen, ok) ->
  (forall i, i ∈ instructions (code gen) ->
     opcode_to_string (opcode i) <> "UNKNOWN")
  /\ (forall a b : opcode_t,
        opcode_to_string a = opcode_to_string b ->
        a = b \/ opcode_to_string a = "UNKNOWN").
Proof.
  intros E. split.
  - assert (forall op, statement_opcode op = true \/ op = OP_HALT ->
            opcode_to_string op <> "UNKNOWN") as Hnamed.
    { intros op [H| ->]; [|discriminate]. destruct op; discriminate. }
    unfold codegen_generate in E. break_bind E g E1. injection E as <- _.
    destruct (codegen_program_extends _ _ _ E1)
      as [[Hty ->]|(Hty & g1 & -> & X)].
    + intros i Hin. inversion Hin.
    + destruct (extends_appended (codegen_create table) g1
                  (X _ _ (extends_refl 0 (codegen_create table)
                            (Nat.le_0_l _))))
        as (body & Hbody & Hall).
      intros i Hin. unfold codegen_emit in Hin.
      cbn [set_code code instructions] in Hin. rewrite Hbody in Hin.
      apply Hnamed.
      apply elem_of_app in Hin as [Hin|Hin].
      * left. cbn in Hin.
        exact (proj1 (Forall_forall _ _) Hall i Hin).
      * apply list_elem_of_singleton in Hin. subst i. now right.
  - intros a b.
    destruct a; destruct b; intros H;
      first [left; reflexivity | right; reflexivity | discriminate H].
Qed.

Lemma codegen_statement_break (body : ast_node_t) (gen : codegen_t) :
  node_type body = NODE_BREAK ->
  codegen_statement body gen
  = if loop_break_label gen >=? 0
    then Some (codegen_emit gen OP_JMP (loop_break_label gen))
    else Some gen.
Proof. destruct body as [ty dt v nm op l r e ch lv]. simpl. now intros ->. Qed.

Lemma codegen_statement_while (node : ast_node_t) (gen : codegen_t) :
  node_type node = NODE_WHILE ->
  codegen_statement node gen
  = (g1 ← on_node codegen_expression (node_left node)
            (set_loop_continue_label gen (count (code gen)));
     g2 ← on_node codegen_statement (node_right node)
            (codegen_emit g1 OP_JZ 0);
     let g3 := codegen_emit g2 OP_JMP (count (code gen)) in
     let g4 := codegen_patch_jump g3 (count (code g1)) (count (code g3)) in
     Some (set_loop_continue_label
             (set_loop_break_label g4 (loop_break_label gen))
             (loop_continue_label gen))).
Proof. destruct node as [ty dt v nm op l r e ch lv]. simpl. now intros ->. Qed.

(** X26: a WHILE statement sets no break target: with no enclosing target,
    a [break] that is the body of the loop emits nothing, and the loop is
    the code of the condition, the JZ to the end and the JMP back to the
    start. *)
Theorem while_body_break_emits_nothing
    (node body : ast_node_t) (gen gen' : codegen_t) :
  node_type node = NODE_WHILE ->
  node_right node = Some body ->
  node_type body = NODE_BREAK ->
  loop_break_label gen < 0 ->
  codegen_statement node gen = Some gen' ->
  exists g1,
    on_node codegen_expression (node_left node)
            (set_loop_continue_label gen (count (code gen))) = Some g1
    /\ instructions (code gen')
       = (instructions (code g1)
            ++ [mk_instruction OP_JZ (count (code g1) + 2) EmptyString
                               EmptyString;
                mk_instruction OP_JMP (count (code gen)) EmptyString
                               EmptyString])%list.
Proof.
  intros Hty Hbody Hbreak Hneg E.
  rewrite (codegen_statement_while _ _ Hty), Hbody in E.
  break_bind E g1 E1. exists g1. split; [reflexivity|].
  cbn [on_node] in E. rewrite (codegen_statement_break _ _ Hbreak) in E.
  pose proof (on_node_preserves codegen_expression (node_left node)
                (fun c _ => codegen_expression_preserves c) _ _ E1) as [L _].
  assert (loop_break_label (codegen_emit g1 OP_JZ 0) = loop_break_label gen)
    as Hb.
  { change (loop_break_label (codegen_emit g1 OP_JZ 0))
      with (fst (loop_labels g1)). now rewrite L. }
  rewrite Hb in E.
  destruct (loop_break_label gen >=? 0) eqn:Hge; [lia|].
  cbn [mbind option_bind] in E. injection E as <-.
  cbn [set_loop_continue_label set_loop_break_label code].
  unfold codegen_patch_jump.
  assert (count (code (codegen_emit (codegen_emit g1 OP_JZ 0) OP_JMP
                         (count (code gen))))
          = count (code g1) + 2) as Hc.
  { unfold count, codegen_emit. cbn. rewrite !length_app. cbn [length]. lia. }
  rewrite Hc.
  pose proof (count_nonneg (code g1)) as Hpos.
  destruct ((count (code g1) >=? 0) && (count (code g1) <? count (code g1) + 2))
    eqn:Hin; [|lia].
  cbn [set_code code instructions]. unfold codegen_emit.
  cbn [set_code code instructions]. rewrite <- app_assoc. cbn [app].
  unfold count.
  replace (Z.to_nat (Z.of_nat (length (instructions (code g1)))))
    with (length (instructions (code g1)) + 0)%nat by lia.
  rewrite alter_app_r. cbn [alter list_alter set_operand opcode label comment
    instructions]. rewrite length_app. cbn [length].
  do 2 f_equal. unfold set_operand. cbn [opcode label comment].
  f_equal. lia.
Qed.

Lemma codegen_statement_only_appends_witness :
  exists gen',
    codegen_statement (ast_loop NODE_YIELD) (codegen_create symtab_create)
    = Some gen'
    /\ (exists tail,
          instructions (code gen')
          = (instructions (code (codegen_create symtab_create)) ++ tail)%list
          /\ Forall statement_instruction tail)
    /\ loop_break_label gen' = -1.
Proof.
  destruct (codegen_statement (ast_loop NODE_YIELD)
              (codegen_create symtab_create)) as [gen'|] eqn:E.
  2:{ vm_compute in E. discriminate. }
  pose proof (codegen_statement_only_appends _ _ _ E) as (Htail & Hbreak & _).
  exists gen'. split; [reflexivity|]. split; [exact Htail|exact Hbreak].
Defined.

Lemma codegen_function_layout_witness :
  exists gen' body,
    codegen_function
      (set_left (set_name (ast_create_node NODE_FUNCTION) "f")
                (Some (ast_loop NODE_YIELD)))
      (codegen_create symtab_create) = Some gen'
    /\ instructions (code gen')
       = (mk_instruction OP_NOP 0 "func_f" EmptyString
          :: body
          ++ [mk_instruction OP_PUSH 0 EmptyString EmptyString;
              mk_instruction OP_RET 0 EmptyString EmptyString])%list
    /\ label_terminated (mk_instruction OP_NOP 0 "func_f" EmptyString) = true
    /\ Forall statement_instruction body.
Proof.
  destruct (codegen_function
              (set_left (set_name (ast_create_node NODE_FUNCTION) "f")
                        (Some (ast_loop NODE_YIELD)))
              (codegen_create symtab_create)) as [gen'|] eqn:E.
  2:{ vm_compute in E. discriminate. }
  destruct (codegen_function_layout _ _ _ E)
    as (head & body & Hbody & -> & Hterm & _ & Hall).
  exists gen', body. split; [reflexivity|].
  split; [exact Hbody|]. split; [exact Hterm|exact Hall].
Defined.

Lemma codegen_generate_program_shape_witness :
  exists gen ok body,
    codegen_generate (codegen_create symtab_create) ast_while_yield
    = Some (gen, ok)
    /\ instructions (code gen)
       = (body ++ [mk_instruction OP_HALT 0 EmptyString EmptyString])%list
    /\ Forall statement_instruction body.
Proof.
  destruct (codegen_generate (codegen_create symtab_create) ast_while_yield)
    as [[gen ok]|] eqn:E.
  2:{ vm_compute in E. discriminate. }
  destruct (codegen_generate_program_shape _ _ _ _ E) as (_ & Hprog & _).
  destruct (Hprog eq_refl) as (body & Hbody & Hall).
  exists gen, ok, body. split; [reflexivity|]. split; [exact Hbody|exact Hall].
Defined.

Lemma code_buffer_never_overflows_witness :
  exists gen ok,
    codegen_generate (codegen_create symtab_create) ast_while_yield
    = Some (gen, ok)
    /\ count (code gen) <= capacity (code gen).
Proof.
  destruct (codegen_generate (codegen_create symtab_create) ast_while_yield)
    as [[gen ok]|] eqn:E.
  2:{ vm_compute in E. discriminate. }
  exists gen, ok. split; [reflexivity|].
  exact (proj1 (code_buffer_never_overflows _ _ _ _ E)).
Defined.

Lemma generated_opcodes_have_mnemonics_witness :
  exists gen ok,
    codegen_generate (codegen_create symtab_create) ast_while_yield
    = Some (gen, ok)
    /\ Forall (fun i => opcode_to_string (opcode i) <> "UNKNOWN")
              (instructions (code gen)).
Proof.
  destruct (codegen_generate (codegen_create symtab_create) ast_while_yield)
    as [[gen ok]|] eqn:E.
  2:{ vm_compute in E. discriminate. }
  exists gen, ok. split; [reflexivity|]. apply Forall_forall.
  exact (proj1 (generated_opcodes_have_mnemonics _ _ _ _ E)).
Defined.

Lemma while_body_break_emits_nothing_witness :
  exists gen' g1,
    codegen_statement (ast_loop NODE_BREAK) (codegen_create symtab_create)
    = Some gen'
    /\ instructions (code gen')
       = (instructions (code g1)
            ++ [mk_instruction OP_JZ (count (code g1) + 2) EmptyString
                               EmptyString;
                mk_instruction OP_JMP 0 EmptyString EmptyString])%list.
Proof.
  destruct (codegen_statement (ast_loop NODE_BREAK)
              (codegen_create symtab_create)) as [gen'|] eqn:E.
  2:{ vm_compute in E. discriminate. }
  assert (loop_break_label (codegen_create symtab_create) < 0) as Hneg
    by reflexivity.
  destruct (while_body_break_emits_nothing (ast_loop NODE_BREAK)
              (ast_create_node NODE_BREAK) (codegen_create symtab_create) gen'
              eq_refl eq_refl eq_refl Hneg E)
    as (g1 & _ & Hcode).
  exists gen', g1. split; [reflexivity|exact Hcode].
Defined.

(** ** The compiler as a whole *)

Lemma ast_add_child_type (parent : ast_node_t) (child : option ast_node_t) :
  node_type (ast_add_child parent child) = node_type parent.
Proof. now destruct child. Qed.

Lemma parser_parse_program_loop_type (fuel : nat) :
  forall program p ast p',
  parser_parse_program_loop fuel program p = Some (ast, p') ->
  node_type ast = node_type program.
Proof.
  induction fuel as [|fuel IH]; intros program p ast p' E; [discriminate|].
  cbn [parser_parse_program_loop] in E.
  destruct (negb (check p TOKEN_EOF)).
  - destruct (p_had_error p).
    + exact (IH _ _ _ _ E).
    + destruct (parse_declaration fuel p) as [[decl p1]|]; [|discriminate].
      cbn in E. rewrite (IH _ _ _ _ E). apply ast_add_child_type.
  - now injection E as <- _.
Qed.

Lemma compiler_parse_ok (fuel : nat) (c c' : compiler_t) :
  compiler_parse fuel c = Some (c', true) ->
  exists lexer ast p',
    c_lexer c = Some lexer
    /\ parser_parse fuel (parser_init fresh_parser lexer (c_statics c))
       = Some (ast, p')
    /\ p_had_error p' = false
    /\ c_ast c' = Some ast.
Proof.
  unfold compiler_parse.
  destruct (c_lexer c) as [lexer|]; [|discriminate].
  destruct (parser_parse fuel _) as [[ast p']|] eqn:Hparse; [|discriminate].
  cbn [mbind option_bind]. unfold parser_had_error.
  destruct (p_had_error p') eqn:Herr.
  - destruct (negb _); discriminate.
  - intros [= <-]. exists lexer, ast, p'. now repeat split.
Qed.

Lemma compiler_analyze_ok (c c' : compiler_t) :
  compiler_analyze c = (c', true) ->
  exists ast table,
    c_ast c = Some ast /\ c_ast c' = Some ast /\ c_symtab c' = Some table
    /\ table = match node_type ast with
               | NODE_PROGRAM =>
                   fold_left analyze_child (children ast) symtab_create
               | _ => symtab_create
               end
    /\ st_had_error table = false.
Proof.
  unfold compiler_analyze.
  destruct (c_ast c) as [ast|] eqn:Hast; [|discriminate].
  unfold symtab_had_error.
  destruct (st_had_error _) eqn:Herr; [discriminate|].
  intros [= <-]. eexists ast, _. cbn.
  split; [reflexivity|]. split; [reflexivity|]. split; [reflexivity|].
  split; [reflexivity|exact Herr].
Qed.

Lemma compiler_generate_ok (c c' : compiler_t) :
  compiler_generate c = Some (c', true) ->
  exists ast table gen,
    c_ast c = Some ast /\ c_symtab c = Some table
    /\ codegen_generate (codegen_create table) ast = Some (gen, true)
    /\ c_codegen c' = Some gen.
Proof.
  unfold compiler_generate.
  destruct (c_ast c) as [ast|]; [|discriminate].
  destruct (c_symtab c) as [table|]; [|discriminate].
  destruct (codegen_generate _ ast) as [[gen ok]|] eqn:Hgen; [|discriminate].
  cbn [mbind option_bind].
  destruct ok; cbn [negb].
  - intros [= <-]. exists ast, table, gen. now repeat split.
  - destruct (negb _); discriminate.
Qed.

(** A successful compilation went through every stage. *)
Lemma compile_success (fuel : nat) (source : string) (statics : lexer_statics)
    (buf : code_buffer_t) :
  compile fuel source statics = Some (Some buf) ->
  exists (p p' : parser_t) (ast : ast_node_t) (table : symbol_table_t)
         (gen : codegen_t),
    parser_parse fuel p = Some (ast, p')
    /\ p_had_error p' = false
    /\ node_type ast = NODE_PROGRAM
    /\ table = fold_left analyze_child (children ast) symtab_create
    /\ st_had_error table = false
    /\ codegen_generate (codegen_create table) ast = Some (gen, true)
    /\ buf = code gen.
Proof.
  unfold compile.
  destruct (compiler_compile _ _) as [[c ok]|] eqn:Hc; [|discriminate].
  destruct ok; [|discriminate]. intros [= Hbuf].
  unfold compiler_compile in Hc.
  destruct (compiler_lex _) as [c1 ok1].
  destruct ok1; cbn [negb] in Hc; [|discriminate].
  destruct (compiler_parse fuel c1) as [[c2 ok2]|] eqn:Hparse;
    [|discriminate].
  cbn [mbind option_bind] in Hc.
  destruct ok2; cbn [negb] in Hc; [|discriminate].
  destruct (compiler_analyze c2) as [c3 ok3] eqn:Hsem.
  destruct ok3; cbn [negb] in Hc; [|discriminate].
  destruct (compiler_generate c3) as [[c4 ok4]|] eqn:Hgen; [|discriminate].
  cbn [mbind option_bind] in Hc.
  destruct ok4; cbn [negb] in Hc; [|discriminate].
  injection Hc as <-.
  destruct (compiler_parse_ok _ _ _ Hparse)
    as (lexer & ast & p' & _ & Hp & Herr & Hast).
  destruct (compiler_analyze_ok _ _ Hsem)
    as (ast' & table & Hast' & Hast3 & Htab & Htable & Hsemerr).
  destruct (compiler_generate_ok _ _ Hgen)
    as (ast'' & table' & gen & Hast'' & Htab' & Hcode & Hgen4).
  assert (ast' = ast) as -> by congruence.
  assert (ast'' = ast) as -> by congruence.
  assert (table' = table) as -> by congruence.
  pose proof (parser_parse_program_loop_type _ _ _ _ _ Hp) as Hty.
  cbn in Hty. rewrite Hty in Htable.
  rewrite Hgen4 in Hbuf. cbn in Hbuf.
  exists (parser_init fresh_parser lexer (c_statics c1)), p', ast, table, gen.
  repeat split; auto. congruence.
Qed.

(** X27: whatever the source, when [compile] returns a code buffer its last
    instruction is the only HALT, every jump operand is an instruction
    index of the buffer, and the instructions fit its capacity. *)
Theorem compiled_code_is_well_formed
    (fuel : nat) (source : string) (statics : lexer_statics)
    (buf : code_buffer_t) :
  compile fuel source statics = Some (Some buf) ->
  (exists body,
     instructions buf
     = (body ++ [mk_instruction OP_HALT 0 EmptyString EmptyString])%list
     /\ Forall statement_instruction body)
  /\ (forall i, i ∈ instructions buf -> is_jump (opcode i) = true ->
      0 <= operand i < count buf)
  /\ count buf <= capacity buf.
Proof.
  intros E.
  destruct (compile_success _ _ _ _ E)
    as (p & p' & ast & table & gen & _ & _ & Hty & _ & _ & Hgen & ->).
  unfold codegen_generate in Hgen. break_bind Hgen g E1.
  injection Hgen as <- _.
  destruct (codegen_program_extends _ _ _ E1)
    as [[Hno _]|(_ & g1 & -> & X)]; [contradiction|].
  pose proof (X _ _ (extends_refl 0 (codegen_create table) (Nat.le_0_l _)))
    as Hext.
  destruct (extends_appended (codegen_create table) g1 Hext)
    as (body & Hbody & Hall).
  split; [|split].
  - exists body. split; [|exact Hall].
    unfold codegen_emit. cbn [set_code code instructions]. now rewrite Hbody.
  - destruct (codegen_program_cases _ _ _ E1) as [Hsame|(g2 & E2 & Heq)].
    { exfalso. apply (f_equal (fun g => length (instructions (code g)))) in Hsame.
      unfold codegen_emit in Hsame. cbn in Hsame.
      rewrite length_app in Hsame. cbn in Hsame. lia. }
    assert (steps_ok (for_children codegen_program_child (children ast)))
      as Hsteps.
    { apply for_children_steps_ok, Forall_forall.
      intros c _. apply codegen_program_child_steps_ok. }
    destruct (Hsteps _ _ E2 (codegen_create_inv table))
      as [(Hjumps & _ & _) _].
    rewrite Heq. intros i Hin Hjump.
    rewrite count_emit.
    unfold codegen_emit in Hin. cbn [set_code code instructions] in Hin.
    apply elem_of_app in Hin as [Hin|Hin].
    + pose proof (proj1 (Forall_forall _ _) Hjumps i Hin Hjump). lia.
    + apply list_elem_of_singleton in Hin. subst i. discriminate.
  - apply buffer_fits_emit.
    destruct Hext as (_ & _ & _ & _ & _ & Hfits).
    apply Hfits, codegen_create_fits.
Qed.

Lemma compiled_code_is_well_formed_witness :
  exists buf,
    compile 22 src_if_else statics_at_start = Some (Some buf)
    /\ listing buf = listing_if_else
    /\ count buf <= capacity buf.
Proof.
  destruct (compile 22 src_if_else statics_at_start) as [[buf|]|] eqn:E.
  2,3: vm_compute in E; discriminate.
  pose proof (compiled_code_is_well_formed _ _ _ _ E) as (_ & _ & Hfits).
  exists buf. split; [reflexivity|]. split; [|exact Hfits].
  pose proof (compile_if_else 0) as H. cbn [Nat.add] in H.
  rewrite E in H. cbn in H. congruence.
Defined.

(** ** Repeatability *)

(** With nothing pushed back, [lexer_next_token_ex] leaves the statics of
    the lexer as they are. *)
Lemma next_token_keeps_statics (l : lexer_t) (st : lexer_statics) :
  has_unget st = false -> (lexer_next_token_ex l st).2 = st.
Proof.
  intros H. unfold lexer_next_token_ex. rewrite H.
  destruct (lexer_scan l). reflexivity.
Qed.

Lemma lexer_tokens_keep_statics (n : nat) (l : lexer_t) (st : lexer_statics) :
  has_unget st = false -> (lexer_tokens n l st).2 = st.
Proof.
  revert l. induction n as [|n IH]; intros l H; simpl; [reflexivity|].
  pose proof (next_token_keeps_statics l st H) as Hst.
  destruct (lexer_next_token_ex l st) as [[token l1] st1]. simpl in Hst.
  subst st1. specialize (IH l1 H).
  destruct (lexer_tokens n l1 st) as [[rest l2] st2]. exact IH.
Qed.

(** The generator only reads the symbol table it borrows. *)
Lemma codegen_generate_keeps_symtab
    (table : symbol_table_t) (ast : ast_node_t) (gen : codegen_t) (ok : bool) :
  codegen_generate (codegen_create table) ast = Some (gen, ok) ->
  symtab gen = table.
Proof.
  unfold codegen_generate. intros E. break_bind E g E1. injection E as <- _.
  destruct (codegen_program_steps_ok _ _ _ E1 (codegen_create_inv table))
    as [_ (Hsym & _)].
  exact Hsym.
Qed.

(** C8, as stated: [lexer_init_ex] does not clear the push-back buffer of
    the file.  With the token [a] pushed back by [lexer_unget_token], a
    first lexing of [a b] from [lexer_init_ex] reads it before the source;
    a second lexing from [lexer_init_ex] does not. *)
Lemma second_lexing_differs_after_unget :
  let pushed :=
    (lexer_next_token_ex (lexer_init_ex "a b" "<stdin>")
                         statics_at_start).1.1 in
  let st := lexer_unget_token pushed statics_at_start in
  let first := lexer_tokens 3 (lexer_init_ex "a b" "<stdin>") st in
  let second := lexer_tokens 3 (lexer_init_ex "a b" "<stdin>") first.2 in
  map token_position first.1.1 = [("a", 1, 1); ("a", 1, 1); ("b", 1, 3)]
  /\ map token_position second.1.1
     = [("a", 1, 1); ("b", 1, 3); (EmptyString, 1, 4)]
  /\ first.1.1 <> second.1.1.
Proof.
  intros pushed st first second.
  assert (map token_position first.1.1
          = [("a", 1, 1); ("a", 1, 1); ("b", 1, 3)]) as H1
    by (vm_compute; reflexivity).
  assert (map token_position second.1.1
          = [("a", 1, 1); ("b", 1, 3); (EmptyString, 1, 4)]) as H2
    by (vm_compute; reflexivity).
  split; [exact H1|]. split; [exact H2|].
  intros Heq. rewrite Heq, H2 in H1. discriminate.
Qed.

(** C8, amended: a second lexing of the same source, started with
    [lexer_init_ex] after a first one has read any number of tokens,
    delivers the same tokens as the first, given that no token is pushed
    back when the first starts; and a second fresh generator, created on
    the symbol table that the first one borrowed and run on the same tree,
    ends in the same state, instruction for instruction: the same opcodes,
    operands and labels, a label being the bytes 0 to 62 of its array,
    which are all that the generator writes. *)
Theorem lexing_and_generation_are_repeatable
    (source filename : string) (st : lexer_statics) (m n : nat)
    (table : symbol_table_t) (ast : ast_node_t) (gen : codegen_t) (ok : bool) :
  has_unget st = false ->
  codegen_generate (codegen_create table) ast = Some (gen, ok) ->
  (lexer_tokens n (lexer_init_ex source filename)
     (lexer_tokens m (lexer_init_ex source filename) st).2).1.1
  = (lexer_tokens n (lexer_init_ex source filename) st).1.1
  /\ codegen_generate (codegen_create (symtab gen)) ast = Some (gen, ok).
Proof.
  intros Hunget Hgen. split.
  - now rewrite lexer_tokens_keep_statics.
  - now rewrite (codegen_generate_keeps_symtab _ _ _ _ Hgen).
Qed.

Lemma lexing_and_generation_are_repeatable_witness :
  exists gen,
    codegen_generate (codegen_create symtab_create) ast_while_yield
    = Some (gen, true)
    /\ map token_position
         (lexer_tokens 3 (lexer_init_ex "a b" "<stdin>")
            (lexer_tokens 3 (lexer_init_ex "a b" "<stdin>")
                          statics_at_start).2).1.1
       = [("a", 1, 1); ("b", 1, 3); (EmptyString, 1, 4)]
    /\ codegen_generate (codegen_create (symtab gen)) ast_while_yield
       = Some (gen, true).
Proof.
  destruct (codegen_generate (codegen_create symtab_create) ast_while_yield)
    as [[gen ok]|] eqn:E.
  2:{ vm_compute in E. discriminate. }
  pose proof (lexing_and_generation_are_repeatable
                "a b" "<stdin>" statics_at_start 3 3
                symtab_create ast_while_yield gen ok eq_refl E) as [Hlex Hgen].
  assert (ok = true) as -> by (vm_compute in E; congruence).
  exists gen. split; [reflexivity|]. split; [|exact Hgen].
  rewrite Hlex. vm_compute. reflexivity.
Defined.

(** ** The parser on a [yield] statement *)

Lemma bind_None_l {A B : Type} (x : option A) (k : A -> option B) :
  x = None -> x ≫= k = None.
Proof. intros ->. reflexivity. Qed.

Lemma bind_cases {A B : Type} (x : option A) (v : A) (k : A -> option B) :
  x = None \/ x = Some v -> k v = None -> x ≫= k = None.
Proof. intros [->| ->] H; [reflexivity|exact H]. Qed.

Ltac eval_closed t :=
  let v := eval vm_compute in t in
  replace t with v by (vm_compute; reflexivity).

Lemma bind_Some_l {A B : Type} (v : A) (k : A -> option B) :
  Some v ≫= k = k v.
Proof. reflexivity. Qed.

Ltac crunch :=
  repeat first
    [ progress cbv beta iota zeta delta [fst snd negb andb]
    | rewrite bind_Some_l
    | match goal with
      | |- context [check ?p ?t] => eval_closed (check p t)
      | |- context [match_ ?p ?t] => eval_closed (match_ p t)
      | |- context [consume ?p ?t ?m] => eval_closed (consume p t m)
      | |- context [p_had_error ?p] => eval_closed (p_had_error p)
      | |- context [parse_type_specifier ?p] => eval_closed (parse_type_specifier p)
      | |- context [previous_text ?p] => eval_closed (previous_text p)
      end ].

Ltac fuel_cases f :=
  repeat (destruct f as [|f]; [left; vm_compute; reflexivity|]);
  right; vm_compute; reflexivity.

Lemma wy_cond_cases f :
  parse_expression f wy_cond = None \/ parse_expression f wy_cond = Some wy_cond_result.
Proof. fuel_cases f. Qed.

Lemma wy_first_cases f :
  parse_statement f wy_yield = None \/ parse_statement f wy_yield = Some wy_first.
Proof. fuel_cases f. Qed.

Lemma wy_again_cases f :
  parse_statement f wy_stuck = None \/ parse_statement f wy_stuck = Some (wy_again.1, wy_stuck).
Proof. fuel_cases f. Qed.

Lemma parse_block_loop_S f block p :
  parse_block_loop (S f) block p =
  if negb (check p TOKEN_RBRACE) && negb (check p TOKEN_EOF) then
    '(stmt, p) ← parse_statement f p;
    parse_block_loop f (ast_add_child block stmt) p
  else Some (block, p).
Proof. reflexivity. Qed.

Lemma parse_block_S f p :
  parse_block (S f) p =
  '(block, p) ← parse_block_loop f (ast_create_node NODE_BLOCK)
                  (consume p TOKEN_LBRACE "Expected '{'");
  Some (Some block, consume p TOKEN_RBRACE "Expected '}'").
Proof. reflexivity. Qed.

Lemma stuck_loop f : forall block, parse_block_loop f block wy_stuck = None.
Proof.
  induction f as [|f IH]; intros block; [reflexivity|].
  rewrite parse_block_loop_S. crunch.
  apply (bind_cases _ _ _ (wy_again_cases f)). apply IH.
Qed.

Lemma yield_loop f block : parse_block_loop f block wy_yield = None.
Proof.
  destruct f as [|f]; [reflexivity|].
  rewrite parse_block_loop_S. crunch.
  apply (bind_cases _ _ _ (wy_first_cases f)). apply stuck_loop.
Qed.

Lemma inner_block f : parse_block f wy_inner = None.
Proof.
  destruct f as [|f]; [reflexivity|].
  rewrite parse_block_S. crunch. apply bind_None_l, yield_loop.
Qed.

Lemma parse_statement_S f p :
  parse_statement (S f) p =
  if check p TOKEN_LBRACE then parse_block f p
  else
  let '(m, p) := match_ p TOKEN_IF in
  if m then parse_if_statement f p else
  let '(m, p) := match_ p TOKEN_WHILE in
  if m then parse_while_statement f p else
  let '(m, p) := match_ p TOKEN_DO in
  if m then parse_do_while_statement f p else
  let '(m, p) := match_ p TOKEN_FOR in
  if m then parse_for_statement f p else
  let '(m, p) := match_ p TOKEN_RETURN in
  if m then parse_return_statement f p else
  let '(m, p) := match_ p TOKEN_BREAK in
  if m then parse_break_statement p else
  let '(m, p) := match_ p TOKEN_CONTINUE in
  if m then parse_continue_statement p else
  '(e, p) ← parse_expression f p;
  Some (Some (set_left (ast_create_node NODE_EXPR_STMT) e),
        consume p TOKEN_SEMICOLON "Expected ';' after expression").
Proof. reflexivity. Qed.

Lemma parse_while_statement_S f p :
  parse_while_statement (S f) p =
  '(cond, p) ← parse_expression f
                 (consume p TOKEN_LPAREN "Expected '(' after 'while'");
  '(body, p) ← parse_statement f
                 (consume p TOKEN_RPAREN "Expected ')' after condition");
  Some (Some (set_right (set_left (ast_create_node NODE_WHILE) cond) body), p).
Proof. reflexivity. Qed.

Lemma parser_parse_program_loop_S f program p :
  parser_parse_program_loop (S f) program p =
  if negb (check p TOKEN_EOF) then
    if p_had_error p then
      parser_parse_program_loop f program (parser_synchronize p)
    else
      '(decl, p) ← parse_declaration f p;
      parser_parse_program_loop f (ast_add_child program decl) p
  else Some (program, p).
Proof. reflexivity. Qed.

Lemma inner_statement f : parse_statement f wy_inner = None.
Proof.
  destruct f as [|f]; [reflexivity|].
  rewrite parse_statement_S. crunch. apply inner_block.
Qed.

Lemma while_statement f : parse_while_statement f wy_paren = None.
Proof.
  destruct f as [|f]; [reflexivity|].
  rewrite parse_while_statement_S. crunch.
  apply (bind_cases _ _ _ (wy_cond_cases f)). crunch.
  apply bind_None_l, inner_statement.
Qed.

Lemma outer_statement f : parse_statement f wy_while = None.
Proof.
  destruct f as [|f]; [reflexivity|].
  rewrite parse_statement_S. crunch. apply while_statement.
Qed.

Lemma outer_loop f block : parse_block_loop f block wy_while = None.
Proof.
  destruct f as [|f]; [reflexivity|].
  rewrite parse_block_loop_S. crunch. apply bind_None_l, outer_statement.
Qed.

Lemma outer_block f : parse_block f wy_body = None.
Proof.
  destruct f as [|f]; [reflexivity|].
  rewrite parse_block_S. crunch. apply bind_None_l, outer_loop.
Qed.

Lemma wy_stars_cases f :
  parse_pointer_stars f wy_type.1 wy_type.2 = None
  \/ parse_pointer_stars f wy_type.1 wy_type.2 = Some (wy_type.1, wy_type.2).
Proof. fuel_cases f. Qed.

Lemma declaration f : parse_declaration f wy_start = None.
Proof.
  unfold parse_declaration. crunch.
  apply (bind_cases _ _ _ (wy_stars_cases f)). crunch.
  unfold parse_function. crunch.
  apply bind_None_l, outer_block.
Qed.

Lemma program_loop f program : parser_parse_program_loop f program wy_start = None.
Proof.
  destruct f as [|f]; [reflexivity|].
  rewrite parser_parse_program_loop_S. crunch.
  apply bind_None_l, declaration.
Qed.

Lemma while_yield_compiler f :
  compiler_compile f
    (compiler_create src_while_yield "<stdin>" statics_at_start) = None.
Proof.
  unfold compiler_compile.
  eval_closed (compiler_lex
                 (compiler_create src_while_yield "<stdin>" statics_at_start)).
  crunch. apply bind_None_l.
  unfold compiler_parse. cbn [c_lexer c_statics].
  apply bind_None_l. apply program_loop.
Qed.

(** C7: on the source [void f(){ while (0) { yield; } }] the compiler
    never gets to the generator.  The parser has no statement for [yield]:
    [parse_statement] takes it for an expression statement, reports
    "Expected expression" without consuming it, and the loop of
    [parse_block] meets the same token again, whatever the fuel.  On the
    tree that the scenario stands for, the stages behind the parser emit
    NOP 0; PUSH 0; JZ 5; YIELD 0; JMP 1; PUSH 0; RET 0; HALT 0. *)
Theorem while_yield_source_never_compiles :
  (forall fuel, compile fuel src_while_yield statics_at_start = None)
  /\ tok_type (p_current wy_stuck) = TOKEN_YIELD
  /\ p_error_msg wy_stuck
     = "<stdin>:1:23: error: Expected expression at 'yield'"
  /\ (forall fuel block, parse_block_loop fuel block wy_stuck = None)
  /\ option_map (fun r => (compiled_listing r.1, r.2))
       (compile_tree ast_while_yield)
     = Some (Some listing_while_yield, true).
Proof.
  split; [|split; [|split; [|split]]].
  - intros fuel. unfold compile. now rewrite while_yield_compiler.
  - reflexivity.
  - reflexivity.
  - intros fuel block. apply stuck_loop.
  - vm_compute. reflexivity.
Qed.
